(** * TinyDataTable: data resolution and draw pipeline

    A shallow embedding of the data-source layer of [TinyDataTable.js]
    ([LocalDataSource], [AjaxLoadOnceDataSource]), of the draw controller
    ([TinyDataTable.draw], its stale-response guard and its catch handler),
    of the paging mutators and of the lazy child-row expansion, together
    with the properties the specification states about them; and of the
    response handling of [AjaxDataSource], of the row ledgers behind
    selection, grouping and the rendering of the body, and of the pager,
    with further properties read off the code.

    Row objects live in a heap and are referred to by reference, because the
    source grafts the hidden [__dt_index] property onto caller-owned row
    objects and writes fetched children into a row's child-data slot.
    ECMAScript built-ins whose behaviour is locale or engine defined
    ([String.prototype.trim], [toLowerCase], [localeCompare], [Number],
    [Date.parse], number formatting) are a parameter of the development
    (class [JsEnv]); a small ASCII instance is used to run the examples. *)

From Stdlib Require Import ZArith QArith Lia Lqa.
From stdpp Require Import base option list sorting gmap strings pretty.
From Stdlib Require Import Ascii.

Set Default Proof Using "Type".
Set Warnings "-clear-no-such-hyp".
Local Open Scope Z_scope.

(** ** JavaScript numbers

    Only the class of a number matters to the code under study (its sign,
    whether it is zero, whether it is NaN), so a number is a rational or one
    of the three special IEEE values.  Subtraction of two finite doubles is
    zero exactly when they are equal and has the sign of the exact
    difference, which is what [num_sub] computes. *)

Inductive jsnum : Type :=
  | Fin (q : Q)
  | PInf
  | NInf
  | NaN.

Definition num_of_Z (z : Z) : jsnum := Fin (inject_Z z).

Definition num_sub (a b : jsnum) : jsnum :=
  match a, b with
  | NaN, _ | _, NaN => NaN
  | Fin x, Fin y => Fin (x - y)%Q
  | Fin _, PInf => NInf
  | Fin _, NInf => PInf
  | PInf, PInf => NaN
  | PInf, _ => PInf
  | NInf, NInf => NaN
  | NInf, _ => NInf
  end.

Definition num_neg (a : jsnum) : jsnum :=
  match a with
  | Fin x => Fin (- x)%Q
  | PInf => NInf
  | NInf => PInf
  | NaN => NaN
  end.

(** [a * d] for an integer [d]; the source only multiplies by the direction
    multiplier, which is [1] or [-1]. *)
Definition num_mul_Z (a : jsnum) (d : Z) : jsnum :=
  match a with
  | Fin x => Fin (x * inject_Z d)%Q
  | NaN => NaN
  | PInf | NInf =>
      match d with
      | Z0 => NaN
      | Zpos _ => a
      | Zneg _ => num_neg a
      end
  end.

(** [a === 0] *)
Definition num_is_zero (a : jsnum) : bool :=
  match a with
  | Fin x => Qeq_bool x 0
  | _ => false
  end.

(** [a > 0] *)
Definition num_gt0 (a : jsnum) : bool :=
  match a with
  | Fin x => match (0 ?= x)%Q with Lt => true | _ => false end
  | PInf => true
  | _ => false
  end.

(** [a < 0] *)
Definition num_lt0 (a : jsnum) : bool :=
  match a with
  | Fin x => match (x ?= 0)%Q with Lt => true | _ => false end
  | NInf => true
  | _ => false
  end.

Definition num_is_nan (a : jsnum) : bool :=
  match a with NaN => true | _ => false end.

(** ** JavaScript values and the heap of row objects *)

Definition ref := nat.

Inductive jsval : Type :=
  | VUndef
  | VNull
  | VBool (b : bool)
  | VNum (n : jsnum)
  | VStr (s : string)
  | VArr (rows : list ref)   (* an array of row objects *)
  | VObj.                    (* any other object: a DOM node, [{html: ...}] *)

(** A row object: its own properties.  [__dt_index] is one of them (it is
    non-enumerable in the source, which no code modelled here observes). *)
Abbreviation obj := (gmap string jsval).
Abbreviation heap := (gmap ref obj).

Definition deref (h : heap) (r : ref) : obj := default ∅ (h !! r).

(** [o[k]] *)
Definition prop (o : obj) (k : string) : jsval := default VUndef (o !! k).

(** [v == null] *)
Definition nullish (v : jsval) : bool :=
  match v with VUndef | VNull => true | _ => false end.

(** Truthiness, as tested by [!v] and [v && ...]. *)
Definition truthy (v : jsval) : bool :=
  match v with
  | VUndef | VNull => false
  | VBool b => b
  | VNum n => negb (num_is_zero n || num_is_nan n)
  | VStr s => negb (String.eqb s "")
  | VArr _ | VObj => true
  end.

(** [Array.isArray(v)] and [v.length] *)
Definition is_array (v : jsval) : bool :=
  match v with VArr _ => true | _ => false end.

Definition array_rows (v : jsval) : list ref :=
  match v with VArr l => l | _ => [] end.

(** ** The built-ins the code calls *)

Class JsEnv : Type := {
  toLowerCase : string → string;
  trim : string → string;
  localeCompare : string → string → Z;
  toNumber : string → jsnum;           (* Number(s) *)
  dateParse : string → option Z;       (* Date.parse(s); None is NaN *)
  numToString : jsnum → string;        (* String(n) *)
}.

(** [haystack.indexOf(needle) !== -1] *)
Fixpoint contains (needle haystack : string) : bool :=
  String.prefix needle haystack ||
  match haystack with
  | EmptyString => false
  | String _ rest => contains needle rest
  end.

Fixpoint has_gt (s : string) : bool :=
  match s with
  | EmptyString => false
  | String c rest => Ascii.eqb c ">"%char || has_gt rest
  end.

(** [s.replace(/<[^>]*>/g, '')]: a ["<"] followed later by a [">"] is
    removed together with everything up to the first such [">"]. *)
Fixpoint strip_from (inside : bool) (s : string) : string :=
  match s with
  | EmptyString => EmptyString
  | String c rest =>
      if inside then
        if Ascii.eqb c ">"%char then strip_from false rest else strip_from true rest
      else if Ascii.eqb c "<"%char && has_gt rest then strip_from true rest
      else String c (strip_from false rest)
  end.

Definition strip_tags (s : string) : string := strip_from false s.

(** ** A small state monad

    The methods of the data sources read and write [this] and the row
    objects; they are written in state-passing style over a [world]. *)

Definition State (S A : Type) : Type := S → A * S.

Global Instance state_ret {S} : MRet (State S) := λ A a s, (a, s).
Global Instance state_bind {S} : MBind (State S) :=
  λ A B f m s, let '(a, s') := m s in f a s'.

Definition gets {S A} (f : S → A) : State S A := λ s, (f s, s).
Definition modify {S} (f : S → S) : State S unit := λ s, (tt, f s).

(** ** Columns, filters, the table configuration and the query state *)

(** A column after the constructor's normalisation: [sortable] and
    [searchable] hold the outcome of the tests [c.sortable !== false] and
    [c.searchable !== false]; [render], when present, is the column's
    renderer applied to a row and a phase, [None] standing for a renderer
    that throws. *)
Record column : Type := {
  key : string;
  isSyntheticKey : bool;
  sortable : bool;
  searchable : bool;
  visible : bool;
  render : option (obj → string → option jsval);
}.

(** An item of [table.filters.items]. *)
Record filterdef : Type := {
  fkey : string;
  ftype : string;
  predicate : option (obj → jsval → bool);
}.

(** The parts of the table instance the Local source reads through
    [this.table]. *)
Record table : Type := {
  columns : list column;                         (* this.columns *)
  filters_enabled : bool;                        (* this.filters.enabled *)
  filters_items : list filterdef;                (* this.filters.items *)
  childRows_enabled : bool;
  childRows_dataKey : string;
  childRows_columns : list column;               (* [] when null *)
  childRows_getColumns : option (obj → list column);
}.

(** An entry of [state.sortOrders]; [odir] is [order.dir || order.direction],
    the empty string when neither is set. *)
Record sortorder : Type := {
  okey : string;
  odir : string;
}.

Record QueryState : Type := {
  page : Z;
  pageSize : Z;
  pagingEnabled : bool;
  searchText : string;
  sortOrders : list sortorder;
  totalRows : Z;
  filters : gmap string jsval;
}.

Definition set_page (p : Z) (st : QueryState) : QueryState :=
  {| page := p; pageSize := pageSize st; pagingEnabled := pagingEnabled st;
     searchText := searchText st; sortOrders := sortOrders st;
     totalRows := totalRows st; filters := filters st |}.

Definition set_pageSize (n : Z) (st : QueryState) : QueryState :=
  {| page := page st; pageSize := n; pagingEnabled := pagingEnabled st;
     searchText := searchText st; sortOrders := sortOrders st;
     totalRows := totalRows st; filters := filters st |}.

Definition set_searchText (t : string) (st : QueryState) : QueryState :=
  {| page := page st; pageSize := pageSize st; pagingEnabled := pagingEnabled st;
     searchText := t; sortOrders := sortOrders st;
     totalRows := totalRows st; filters := filters st |}.

Definition set_sortOrders (o : list sortorder) (st : QueryState) : QueryState :=
  {| page := page st; pageSize := pageSize st; pagingEnabled := pagingEnabled st;
     searchText := searchText st; sortOrders := o;
     totalRows := totalRows st; filters := filters st |}.

Definition set_totalRows (n : Z) (st : QueryState) : QueryState :=
  {| page := page st; pageSize := pageSize st; pagingEnabled := pagingEnabled st;
     searchText := searchText st; sortOrders := sortOrders st;
     totalRows := n; filters := filters st |}.

Definition set_filters (f : gmap string jsval) (st : QueryState) : QueryState :=
  {| page := page st; pageSize := pageSize st; pagingEnabled := pagingEnabled st;
     searchText := searchText st; sortOrders := sortOrders st;
     totalRows := totalRows st; filters := f |}.

(** What a [load] resolves to. *)
Record result : Type := {
  rows : list ref;
  total : Z;
}.

(** An outbound request: a page request, or a child request with the
    identity of the parent ([{child: true, rowId: parentId}]). *)
Inductive request : Type :=
  | PageRequest
  | ChildRequest (rowId : jsval).

(** The state the data sources work on. *)
Record world : Type := {
  w_heap : heap;
  original : list ref;       (* LocalDataSource.original *)
  loaded : bool;             (* AjaxLoadOnceDataSource._loaded *)
  requests : list request;   (* outbound requests issued so far, oldest first *)
}.

Definition with_heap (h : heap) (w : world) : world :=
  {| w_heap := h; original := original w; loaded := loaded w; requests := requests w |}.
Definition with_original (l : list ref) (w : world) : world :=
  {| w_heap := w_heap w; original := l; loaded := loaded w; requests := requests w |}.
Definition with_loaded (b : bool) (w : world) : world :=
  {| w_heap := w_heap w; original := original w; loaded := b; requests := requests w |}.
Definition send (q : request) (w : world) : world :=
  {| w_heap := w_heap w; original := original w; loaded := loaded w;
     requests := requests w ++ [q] |}.

(** ** LocalDataSource *)

Definition dt_index_key : string := "__dt_index".

(** The callback of [_attachOriginalIndex]: a row that already owns
    [__dt_index] keeps it. *)
Definition attach_one (h : heap) (idx : nat) (r : ref) : heap :=
  let o := deref h r in
  match o !! dt_index_key with
  | Some _ => h
  | None => <[r := <[dt_index_key := VNum (num_of_Z (Z.of_nat idx))]> o]> h
  end.

Fixpoint attach_from (idx : nat) (l : list ref) (h : heap) : heap :=
  match l with
  | [] => h
  | r :: rest => attach_from (S idx) rest (attach_one h idx r)
  end.

Definition _attachOriginalIndex : State world unit :=
  modify (λ w, with_heap (attach_from 0 (original w) (w_heap w)) w).

(** [setData(data)]: [Array.isArray(data) ? data.slice() : []], then the
    index is attached. *)
Definition setData (data : jsval) : State world unit :=
  modify (with_original (array_rows data));;
  _attachOriginalIndex.

(** [Array.prototype.sort(cmp)].  ECMAScript requires the sort to be stable
    and inspects only whether [cmp x y] is positive (NaN counts as zero).
    It is modelled by stable insertion: every element is placed in front of
    the first element of the already sorted tail that it is not greater
    than.  When [cmp] is a consistent comparator every conforming engine
    returns this very list; when it is not, the order is left to the engine
    and this is one conforming choice. *)
Fixpoint sort_insert {A} (cmp : A → A → jsnum) (x : A) (l : list A) : list A :=
  match l with
  | [] => [x]
  | y :: rest =>
      if num_gt0 (cmp x y) then y :: sort_insert cmp x rest else x :: y :: rest
  end.

Definition js_sort {A} (cmp : A → A → jsnum) (l : list A) : list A :=
  foldr (sort_insert cmp) [] l.

(** Another conforming sort, for the inputs on which the order is left to
    the engine.  Like the merge sorts of the engines it looks for a run
    first: an input in which every element is greater than the next is one
    descending run, and is reversed; any other input is sorted as by
    [js_sort]. *)
Fixpoint descending_run {A} (cmp : A → A → jsnum) (l : list A) : bool :=
  match l with
  | x :: rest =>
      match rest with
      | y :: _ => num_gt0 (cmp x y) && descending_run cmp rest
      | [] => true
      end
  | [] => true
  end.

Definition run_sort {A} (cmp : A → A → jsnum) (l : list A) : list A :=
  if descending_run cmp l then reverse l else js_sort cmp l.

(** [Array.prototype.slice(start, end)] on integer arguments. *)
Definition js_slice {A} (l : list A) (start end_ : Z) : list A :=
  let len := Z.of_nat (length l) in
  let k := if start <? 0 then Z.max (len + start) 0 else Z.min start len in
  let final := if end_ <? 0 then Z.max (len + end_) 0 else Z.min end_ len in
  take (Z.to_nat (final - k)) (drop (Z.to_nat k) l).

(** A resolved sort spec, [{col, dir}] with [dir] the multiplier 1 or -1. *)
Record sortspec : Type := {
  col : column;
  dir : Z;
}.

(** A precomputed sort key, [{t, v}] in the source. *)
Inductive sortkey : Type :=
  | KNull                 (* {t: 'n', v: null} *)
  | KNum (n : jsnum)      (* {t: 'num', v: n} *)
  | KDate (d : Z)         (* {t: 'date', v: d} *)
  | KStr (s : string).    (* {t: 'str', v: v} *)

Record keyed : Type := {
  krow : ref;
  keys : list sortkey;
}.

Definition same_type (ka kb : sortkey) : bool :=
  match ka, kb with
  | KNull, KNull | KNum _, KNum _ | KDate _, KDate _ | KStr _, KStr _ => true
  | _, _ => false
  end.

Definition is_numeric (k : sortkey) : bool :=
  match k with KNum _ | KDate _ => true | _ => false end.

Definition key_num (k : sortkey) : jsnum :=
  match k with
  | KNum n => n
  | KDate d => num_of_Z d
  | _ => NaN
  end.

(** [typeof row.__dt_index === 'number' ? row.__dt_index : 0] *)
Definition dt_index (row : obj) : jsnum :=
  match prop row dt_index_key with
  | VNum n => n
  | _ => num_of_Z 0
  end.

Section LocalDataSource.
Context `{JsEnv}.

(** [String(v)] *)
Definition to_string (v : jsval) : string :=
  match v with
  | VUndef => "undefined"
  | VNull => "null"
  | VBool true => "true"
  | VBool false => "false"
  | VNum n => numToString n
  | VStr s => s
  | VArr l => String.concat "," (map (λ _, "[object Object]") l)
  | VObj => "[object Object]"
  end.

(** The helper [getValue(col, row, phase)] of [getFilteredRows]: the raw
    field for a real key, else the renderer's value, else null.  A
    renderer that throws, or a source without a table, gives null. *)
Definition getValue (tbl : option table) (c : column) (row : obj)
    (phase : string) : jsval :=
  if negb (String.eqb (key c) "") && negb (isSyntheticKey c) then
    prop row (key c)
  else
    match render c, tbl with
    | Some f, Some _ => default VNull (f row phase)
    | _, _ => VNull
    end.

(** *** Column filters *)

(** [v !== undefined && v !== null && v !== '' && v !== false] *)
Definition filter_value_active (v : jsval) : bool :=
  match v with
  | VUndef | VNull | VBool false => false
  | VStr s => negb (String.eqb s "")
  | _ => true
  end.

Definition hasActiveFilters (st : QueryState) : bool :=
  existsb (λ kv, filter_value_active kv.2) (map_to_list (filters st)).

(** [value === null || value === '' || value === undefined] *)
Definition empty_value (v : jsval) : bool :=
  match v with
  | VUndef | VNull => true
  | VStr s => String.eqb s ""
  | _ => false
  end.

(** One turn of the loop [for (var key in activeFilters)]: [true] when the
    loop goes on, [false] when the callback returns false. *)
Definition filter_passes (defs : list filterdef) (row : obj)
    (kv : string * jsval) : bool :=
  let '(k, value) := kv in
  let def := List.find (λ f, String.eqb (fkey f) k) defs in
  let is_bool :=
    match def with Some d => String.eqb (ftype d) "bool" | None => false end in
  if (if is_bool then negb (truthy value) else empty_value value) then true
  else
    match def ≫= predicate with
    | Some p => p row value
    | None =>
        let cellValue := prop row k in
        if is_bool then truthy cellValue
        else negb (nullish cellValue)
             && String.eqb (to_string cellValue) (to_string value)
    end.

Definition row_passes_filters (defs : list filterdef) (st : QueryState)
    (row : obj) : bool :=
  forallb (filter_passes defs row) (map_to_list (filters st)).

Definition filter_stage (h : heap) (tbl : option table) (st : QueryState)
    (rs : list ref) : list ref :=
  match tbl with
  | Some t =>
      if hasActiveFilters st && filters_enabled t then
        List.filter (λ r, row_passes_filters (filters_items t) st (deref h r)) rs
      else rs
  | None => rs
  end.

(** *** Search *)

(** [v != null && String(v).toLowerCase().indexOf(q) !== -1] *)
Definition cell_matches (q : string) (v : jsval) : bool :=
  negb (nullish v) && contains q (toLowerCase (to_string v)).

Definition _getChildrenForRow (t : table) (row : obj) : option (list ref) :=
  if negb (childRows_enabled t) then None
  else
    match prop row (childRows_dataKey t) with
    | VArr (x :: l) => Some (x :: l)
    | _ => None
    end.

(** [normalizeColumn] on one column of an array: a missing key becomes a
    synthetic one built from the prefix and the position. *)
Definition normalizeColumn (syntheticPrefix : string) (index : nat)
    (c : column) : column :=
  if String.eqb (key c) "" then
    {| key := "__" +:+ syntheticPrefix +:+ "_" +:+ pretty index;
       isSyntheticKey := true;
       sortable := sortable c; searchable := searchable c;
       visible := visible c; render := render c |}
  else c.

Definition _getChildColumnsForParent (t : table) (parentRow : obj)
    : list column :=
  let cols :=
    match childRows_getColumns t with
    | Some getColumns => getColumns parentRow
    | None =>
        match childRows_columns t with
        | [] => columns t
        | cs => cs
        end
    end in
  List.filter visible (imap (normalizeColumn "childcol") cols).

(** The callback of the search filter: a parent match, else a match in
    one of the row's children on a raw field. *)
Definition row_matches (h : heap) (tbl : option table)
    (searchableCols : list column) (q : string) (r : ref) : bool :=
  let row := deref h r in
  existsb (λ c, cell_matches q (getValue tbl c row "search")) searchableCols
  ||
  match tbl with
  | None => false
  | Some t =>
      if negb (childRows_enabled t) then false
      else
        match _getChildrenForRow t row with
        | None => false
        | Some children =>
            let childSearchableCols :=
              List.filter (λ c, searchable c && negb (String.eqb (key c) ""))
                          (_getChildColumnsForParent t row) in
            match childSearchableCols with
            | [] => false
            | _ =>
                existsb (λ child,
                  existsb (λ c, cell_matches q (prop (deref h child) (key c)))
                          childSearchableCols) children
            end
        end
  end.

(** The guard of the search block:
    [state.searchText && state.searchText.trim() !== '' &&
     searchableCols.length > 0]. *)
Definition search_applies (st : QueryState) (searchableCols : list column)
    : bool :=
  negb (String.eqb (searchText st) "")
  && negb (String.eqb (trim (searchText st)) "")
  && (0 <? length searchableCols)%nat.

Definition search_stage (h : heap) (tbl : option table) (st : QueryState)
    (cols : list column) (rs : list ref) : list ref :=
  let searchableCols := List.filter searchable cols in
  if search_applies st searchableCols then
    let q := toLowerCase (searchText st) in
    List.filter (row_matches h tbl searchableCols q) rs
  else rs.

(** *** Sort *)

(** The callback of [state.sortOrders.forEach]. *)
Definition resolve_order (cols : list column) (order : sortorder)
    : option sortspec :=
  if String.eqb (okey order) "" then None
  else
    let d := if String.eqb (odir order) "" then "asc" else odir order in
    let dirMult := if String.eqb (toLowerCase d) "desc" then -1 else 1 in
    match List.find (λ c, sortable c && String.eqb (key c) (okey order)) cols with
    | Some c => Some {| col := c; dir := dirMult |}
    | None => None
    end.

Definition sortSpecs (st : QueryState) (cols : list column) : list sortspec :=
  omap (resolve_order cols) (sortOrders st).

(** The sort key of a row for one spec: null, else numeric, else date,
    else string, on the value with its tags stripped. *)
Definition sort_key (tbl : option table) (row : obj) (spec : sortspec)
    : sortkey :=
  let v := getValue tbl (col spec) row "sort" in
  if nullish v then KNull
  else
    let s := strip_tags (to_string v) in
    let n := toNumber s in
    if negb (num_is_nan n) then KNum n
    else
      match dateParse s with
      | Some d => KDate d
      | None => KStr s
      end.

Definition make_keyed (h : heap) (tbl : option table)
    (specs : list sortspec) (r : ref) : keyed :=
  {| krow := r; keys := map (sort_key tbl (deref h r)) specs |}.

(** [String(k.v)] *)
Definition key_string (k : sortkey) : string :=
  match k with
  | KNull => "null"
  | KNum n => numToString n
  | KDate d => numToString (num_of_Z d)
  | KStr s => s
  end.

(** One turn of the comparator's loop: [None] when it goes on to the next
    spec, [Some r] when the comparator returns [r]. *)
Definition compare_key (d : Z) (ka kb : sortkey) : option jsnum :=
  match ka, kb with
  | KNull, KNull => None
  | KNull, _ => Some (num_of_Z 1)
  | _, KNull => Some (num_of_Z (-1))
  | _, _ =>
      if same_type ka kb then
        if is_numeric ka then
          let diff := num_sub (key_num ka) (key_num kb) in
          if num_is_zero diff then None else Some (num_mul_Z diff d)
        else
          let diffStr := localeCompare (key_string ka) (key_string kb) in
          if diffStr =? 0 then None else Some (num_of_Z (diffStr * d))
      else
        let diffAny := localeCompare (key_string ka) (key_string kb) in
        if diffAny =? 0 then None else Some (num_of_Z (diffAny * d))
  end.

Fixpoint compare_specs (specs : list sortspec) (ka kb : list sortkey)
    : option jsnum :=
  match specs, ka, kb with
  | s :: specs', a :: ka', b :: kb' =>
      match compare_key (dir s) a b with
      | Some r => Some r
      | None => compare_specs specs' ka' kb'
      end
  | _, _, _ => None
  end.

(** The comparator passed to [keyed.sort]. *)
Definition comparator (h : heap) (specs : list sortspec) (a b : keyed)
    : jsnum :=
  match compare_specs specs (keys a) (keys b) with
  | Some r => r
  | None =>
      let ia := dt_index (deref h (krow a)) in
      let ib := dt_index (deref h (krow b)) in
      num_sub ia ib
  end.

Definition sort_stage (h : heap) (tbl : option table) (st : QueryState)
    (cols : list column) (rs : list ref) : list ref :=
  match sortSpecs st cols with
  | [] => rs
  | specs =>
      map krow (js_sort (comparator h specs) (map (make_keyed h tbl specs) rs))
  end.

(** [getFilteredRows(state, columns)]: filters, search, sort. *)
Definition getFilteredRows (tbl : option table) (st : QueryState)
    (cols : list column) : State world (list ref) :=
  h ← gets w_heap;
  rs ← gets original;
  mret (sort_stage h tbl st cols
          (search_stage h tbl st cols (filter_stage h tbl st rs))).

(** [load(state, columns)] *)
Definition load (tbl : option table) (st : QueryState) (cols : list column)
    : State world result :=
  rs ← getFilteredRows tbl st cols;
  let total := Z.of_nat (length rs) in
  let paged :=
    if pagingEnabled st then
      let start := (page st - 1) * pageSize st in
      let end_ := start + pageSize st in
      js_slice rs start end_
    else rs in
  mret {| rows := paged; total := total |}.

(** [getFilteredRows] on an engine whose [Array.prototype.sort] is [sort]:
    the same stages, with [keyed.sort(...)] run by the engine.
    [getFilteredRows] is the case of [js_sort]. *)
Definition sort_stage_with
    (sort : (keyed → keyed → jsnum) → list keyed → list keyed)
    (h : heap) (tbl : option table) (st : QueryState)
    (cols : list column) (rs : list ref) : list ref :=
  match sortSpecs st cols with
  | [] => rs
  | specs =>
      map krow (sort (comparator h specs) (map (make_keyed h tbl specs) rs))
  end.

Definition getFilteredRows_with
    (sort : (keyed → keyed → jsnum) → list keyed → list keyed)
    (tbl : option table) (st : QueryState) (cols : list column)
    : State world (list ref) :=
  h ← gets w_heap;
  rs ← gets original;
  mret (sort_stage_with sort h tbl st cols
          (search_stage h tbl st cols (filter_stage h tbl st rs))).

End LocalDataSource.


(** ** AjaxLoadOnceDataSource

    [load] returns a promise.  When the data are already loaded the promise
    is the Local one; otherwise a request goes out and the promise waits
    for it, the [then] callback being run when the response arrives. *)

(** What the fetch resolves to, the result of the [ajax.fetch] hook or the
    parsed response of the default request: an array of rows, or an object
    of which only the [data] property is read. *)
Inductive json : Type :=
  | JArray (l : list ref)
  | JObject (data : jsval).

Record ajax_options : Type := {
  fetchFn : bool;                       (* typeof ajax.fetch === 'function' *)
  transform : option (json → jsval);
}.

Inductive load_outcome : Type :=
  | Resolved (r : result)   (* the promise is already resolved *)
  | Awaiting.               (* the promise waits for the response *)

Section AjaxLoadOnceDataSource.
Context `{JsEnv}.

(** The value handed to [setData] by the [then] callback: the result of
    the hook as it is, else the transformed response, else the response
    itself if it is an array, else [json.data || []]. *)
Definition fetched_rows (ajax : ajax_options) (j : json) : jsval :=
  if fetchFn ajax then
    match j with
    | JArray l => VArr l
    | JObject _ => VObj
    end
  else
    match transform ajax with
    | Some t => t j
    | None =>
        match j with
        | JArray l => VArr l
        | JObject d => if truthy d then d else VArr []
        end
    end.

Definition refresh : State world unit := modify (with_loaded false).

(** The synchronous part of [load(state, columns)]. *)
Definition loadOnce (tbl : option table) (st : QueryState)
    (cols : list column) : State world load_outcome :=
  isLoaded ← gets loaded;
  if isLoaded : bool then
    r ← load tbl st cols; (mret (Resolved r) : State world load_outcome)
  else
    modify (send PageRequest);; (mret Awaiting : State world load_outcome).

(** The [then] callback, run when the response arrives.  [st] is the
    state object captured by the call, read when the callback runs. *)
Definition loadOnce_then (ajax : ajax_options) (tbl : option table)
    (st : QueryState) (cols : list column) (f : json)
    : State world result :=
  setData (fetched_rows ajax f);;
  modify (with_loaded true);;
  load tbl st cols.

(** Calls of [load] one after the other. *)
Fixpoint loads (tbl : option table) (cols : list column)
    (sts : list QueryState) : State world (list load_outcome) :=
  match sts with
  | [] => mret []
  | st :: rest =>
      o ← loadOnce tbl st cols;
      os ← loads tbl cols rest;
      (mret (o :: os) : State world (list load_outcome))
  end.

End AjaxLoadOnceDataSource.

(** The source as the constructor leaves it: [super([], table)] and
    [_loaded = false]. *)
Definition new_loadOnce (h : heap) : world :=
  {| w_heap := h; original := []; loaded := false; requests := [] |}.

(** ** Query-state mutators of the table *)

(** [Math.ceil(a / b)] for a positive [b]. *)
Definition ceil_div (a b : Z) : Z := - ((- a) / b).

Inductive mutation : Type :=
  | GoToPage (p : Z)
  | Search (text : string)
  | SortBy (k : string) (append : bool)
  | FilterSwitch (k : string) (checked : bool)
  | FilterSelect (k : string) (v : string)
  | PageSizeChange (newSize : Z).

Section Mutators.
Context `{JsEnv}.

(** [goToPage(page)]; [None] when the method returns before changing
    anything. *)
Definition goToPage (paging_enabled : bool) (p : Z) (st : QueryState)
    : option QueryState :=
  if negb paging_enabled then None
  else
    let maxPage := Z.max 1 (ceil_div (totalRows st) (pageSize st)) in
    let oldPage := page st in
    let newPage := Z.min (Z.max 1 p) maxPage in
    if newPage =? oldPage then None
    else Some (set_page newPage st).

(** [search(text)] *)
Definition search (text : string) (st : QueryState) : QueryState :=
  set_page 1 (set_searchText text st).

(** The position of the first order with the given key. *)
Fixpoint order_index (k : string) (orders : list sortorder) : option nat :=
  match orders with
  | [] => None
  | o :: rest =>
      if String.eqb (okey o) k then Some 0%nat
      else S <$> order_index k rest
  end.

(** [sortBy(key, opts)]: the cycle none, asc, desc, none on the key. *)
Definition sortBy (cols : list column) (k : string) (append : bool)
    (st : QueryState) : option QueryState :=
  match List.find (λ c, String.eqb (key c) k) cols with
  | None => None
  | Some c =>
      if negb (sortable c) then None
      else
        let orders := sortOrders st in
        let index := order_index k orders in
        let currentDir :=
          match index ≫= (λ i, orders !! i) with
          | Some o => if String.eqb (odir o) "" then "" else toLowerCase (odir o)
          | None => ""
          end in
        let nextDir :=
          if String.eqb currentDir "" then "asc"
          else if String.eqb currentDir "asc" then "desc"
          else "" in
        let entry := {| okey := k; odir := nextDir |} in
        let nextOrders :=
          if negb append then
            if String.eqb nextDir "" then [] else [entry]
          else
            match index with
            | None => if String.eqb nextDir "" then orders else orders ++ [entry]
            | Some i =>
                if String.eqb nextDir "" then take i orders ++ drop (S i) orders
                else <[i := entry]> orders
            end in
        Some (set_page 1 (set_sortOrders nextOrders st))
  end.

(** The change handlers of a switch filter and of a select filter. *)
Definition filter_switch (k : string) (checked : bool) (st : QueryState)
    : QueryState :=
  set_page 1 (set_filters (<[k := VBool checked]> (filters st)) st).

Definition filter_select (k : string) (v : string) (st : QueryState)
    : QueryState :=
  let value := if String.eqb v "" then VNull else VStr v in
  set_page 1 (set_filters (<[k := value]> (filters st)) st).

(** The page-size handler given to the pager. *)
Definition pageSizeChange (newSize : Z) (st : QueryState)
    : option QueryState :=
  if newSize =? pageSize st then None
  else Some (set_page 1 (set_pageSize newSize st)).

(** The state after a mutation, [None] when nothing was changed. *)
Definition mutate (paging_enabled : bool) (cols : list column)
    (m : mutation) (st : QueryState) : option QueryState :=
  match m with
  | GoToPage p => goToPage paging_enabled p st
  | Search text => Some (search text st)
  | SortBy k append => sortBy cols k append st
  | FilterSwitch k checked => Some (filter_switch k checked st)
  | FilterSelect k v => Some (filter_select k v st)
  | PageSizeChange n => pageSizeChange n st
  end.

End Mutators.

(** ** The draw controller

    [draw()] is asynchronous: it starts a load and returns; the load
    settles later, possibly after further draws have been started.  The
    table is a transition system over the events "a draw is started", "the
    load of draw [id] resolves" and "the load of draw [id] is rejected". *)

(** A rejection reason: an object of which [name], [status] and [body] are
    read. *)
Record jserror : Type := {
  e_name : jsval;
  e_status : jsval;
  e_body : jsval;
}.

(** What a load resolves to, as [onLoad] reads it. *)
Record raw_result : Type := {
  r_rows : jsval;
  r_total : option Z;    (* [None] when [typeof result.total] is not 'number' *)
}.

Inductive payload : Type :=
  | PError (err : option jserror) (status : jsval)
  | PRows (rows : list ref) (total : Z).

(** What the handlers do to the outside. *)
Inductive effect : Type :=
  | OnErrorHook (err : option jserror)     (* options.onError(err) *)
  | ConsoleError (err : option jserror)    (* console.error('TinyDataTable error:', err) *)
  | ConsoleBody (b : jsval)                (* console.error('Response body:', err.body) *)
  | Emit (event : string) (p : payload).   (* this._emit(event, payload) *)

(** How the promise chain of one draw ended. *)
Inductive outcome : Type :=
  | LoadResolved (res : option raw_result)   (* onLoad ran *)
  | Swallowed                                (* the catch handler returned *)
  | Rethrown (err : option jserror).         (* the catch handler threw err *)

Record draw_config : Type := {
  isAjax : bool;       (* this._isAjax *)
  onError : bool;      (* typeof options.onError === 'function' *)
}.

Record tstate : Type := {
  state : QueryState;            (* this.state *)
  drawSeq : nat;                 (* this._internals.drawSeq *)
  activeAbort : option nat;      (* the abort controller, named by its draw *)
  aborted : gset nat;            (* controllers on which abort() was called *)
  pending : gset nat;            (* draws whose load has not settled *)
  _lastPageRows : list ref;
  tbody : list ref;              (* the rows rendered in the body *)
  effects : list effect;         (* oldest first *)
  history : list (nat * outcome);
}.

(** [num === z] *)
Definition num_eq_Z (n : jsnum) (z : Z) : bool :=
  match n with
  | Fin q => Qeq_bool q (inject_Z z)
  | _ => false
  end.

Definition status_is (v : jsval) (z : Z) : bool :=
  match v with VNum n => num_eq_Z n z | _ => false end.

Definition is_number (v : jsval) : bool :=
  match v with VNum _ => true | _ => false end.

(** The start of [draw()]: the sequence counter is incremented; in Ajax
    mode the previous controller is aborted and replaced. *)
Definition draw_begin (cfg : draw_config) (s : tstate) : nat * tstate :=
  let drawId := S (drawSeq s) in
  (drawId,
   {| state := state s;
      drawSeq := drawId;
      activeAbort := if isAjax cfg then Some drawId else activeAbort s;
      aborted :=
        if isAjax cfg then
          match activeAbort s with
          | Some c => {[c]} ∪ aborted s
          | None => aborted s
          end
        else aborted s;
      pending := {[drawId]} ∪ pending s;
      _lastPageRows := _lastPageRows s;
      tbody := tbody s;
      effects := effects s;
      history := history s |}).

Definition result_rows (res : option raw_result) : list ref :=
  match res with
  | Some r => if is_array (r_rows r) then array_rows (r_rows r) else []
  | None => []
  end.

Definition result_total (res : option raw_result) : Z :=
  match res ≫= r_total with
  | Some n => n
  | None => Z.of_nat (length (result_rows res))
  end.

(** [onLoad(result)] of the draw [drawId]. *)
Definition onLoad (cfg : draw_config) (drawId : nat) (res : option raw_result)
    (s : tstate) : tstate :=
  if isAjax cfg && negb (drawId =? drawSeq s)%nat then s
  else
    let rows := result_rows res in
    let total := result_total res in
    {| state := set_totalRows total (state s);
       drawSeq := drawSeq s;
       activeAbort := activeAbort s;
       aborted := aborted s;
       pending := pending s;
       _lastPageRows := rows;
       tbody := rows;
       effects :=
         effects s
         ++ (if isAjax cfg then [Emit "xhr" (PRows rows total)] else [])
         ++ [Emit "draw" (PRows rows total)];
       history := history s |}.

(** [err && err.name === 'AbortError'] *)
Definition is_abort (err : option jserror) : bool :=
  match err with
  | Some e => match e_name e with VStr n => String.eqb n "AbortError" | _ => false end
  | None => false
  end.

(** [err && err.status] *)
Definition error_status (err : option jserror) : jsval :=
  match err with Some e => e_status e | None => VUndef end.

(** The event emitted for an error, by its status. *)
Definition error_event (status : jsval) : string :=
  if status_is status 401 then "error:unauthorized"
  else if status_is status 500 then "error:server"
  else if is_number status then "error:http"
  else "error".

(** The catch handler of [draw()]: what it does and how it ends. *)
Definition on_error (cfg : draw_config) (err : option jserror)
    : list effect * outcome :=
  if is_abort err then ([], Swallowed)
  else
    let status := error_status err in
    let reported :=
      if onError cfg then [OnErrorHook err]
      else if negb (status_is status 401) then
        ConsoleError err ::
        match err with
        | Some e => if truthy (e_body e) then [ConsoleBody (e_body e)] else []
        | None => []
        end
      else [] in
    (reported ++ [Emit (error_event status) (PError err status)], Rethrown err).

Definition settle (id : nat) (o : outcome) (effs : list effect) (s : tstate)
    : tstate :=
  {| state := state s;
     drawSeq := drawSeq s;
     activeAbort := activeAbort s;
     aborted := aborted s;
     pending := pending s ∖ {[id]};
     _lastPageRows := _lastPageRows s;
     tbody := tbody s;
     effects := effects s ++ effs;
     history := history s ++ [(id, o)] |}.

Inductive event : Type :=
  | Draw
  | LoadResolves (id : nat) (res : option raw_result)
  | LoadRejects (id : nat) (err : option jserror).

Inductive step (cfg : draw_config) : tstate → event → tstate → Prop :=
  | step_draw s :
      step cfg s Draw (draw_begin cfg s).2
  | step_resolves s id res :
      id ∈ pending s →
      step cfg s (LoadResolves id res)
           (settle id (LoadResolved res) [] (onLoad cfg id res s))
  | step_rejects s id err :
      id ∈ pending s →
      step cfg s (LoadRejects id err)
           (settle id (on_error cfg err).2 (on_error cfg err).1 s).

Inductive run (cfg : draw_config) : tstate → list event → tstate → Prop :=
  | run_nil s : run cfg s [] s
  | run_cons s ev s' evs s'' :
      step cfg s ev s' → run cfg s' evs s'' → run cfg s (ev :: evs) s''.

(** The transition system as a function, [None] when an event names a draw
    whose load is not pending. *)
Definition exec_event (cfg : draw_config) (s : tstate) (ev : event)
    : option tstate :=
  match ev with
  | Draw => Some (draw_begin cfg s).2
  | LoadResolves id res =>
      if decide (id ∈ pending s)
      then Some (settle id (LoadResolved res) [] (onLoad cfg id res s))
      else None
  | LoadRejects id err =>
      if decide (id ∈ pending s)
      then Some (settle id (on_error cfg err).2 (on_error cfg err).1 s)
      else None
  end.

Fixpoint exec (cfg : draw_config) (s : tstate) (evs : list event)
    : option tstate :=
  match evs with
  | [] => Some s
  | ev :: rest =>
      match exec_event cfg s ev with
      | Some s' => exec cfg s' rest
      | None => None
      end
  end.

(** The names of the events emitted by a list of effects. *)
Definition emitted_events (effs : list effect) : list string :=
  omap (λ e, match e with Emit ev _ => Some ev | _ => None end) effs.

(** The table when the constructor is about to call [draw()]. *)
Definition new_table (st : QueryState) : tstate :=
  {| state := st; drawSeq := 0; activeAbort := None; aborted := ∅;
     pending := ∅; _lastPageRows := []; tbody := []; effects := [];
     history := [] |}.

(** ** Expanding and collapsing child rows *)

(** [this.childRows], with the [lazyLoad] flag that [expandChildRows] and
    [_loadLazyChildren] read from it. *)
Record childRows_config : Type := {
  enabled : bool;
  dataKey : string;                   (* the empty string when not set *)
  lazyLoad : bool;
  rowId : option (obj → jsval);
}.

Record expand_config : Type := {
  childRows : childRows_config;
  ajax_mode : bool;                   (* this._isAjax *)
  ajax_url : string;                  (* options.ajax?.url, empty when not set *)
}.

Record tview : Type := {
  t_heap : heap;
  _rowDataByKey : gmap string ref;
  _expandedRowKeys : gset string;
  sent : list request;                (* outbound requests, oldest first *)
  emitted : list (string * string);   (* (event, rowKey), oldest first *)
}.

Inductive expand_outcome : Type :=
  | NotExpanded                 (* returned at the first guard *)
  | Threw                       (* row[dataKey] on an unknown row *)
  | Expanded                    (* the synchronous branch ran *)
  | AwaitsChildren (r : ref).   (* the lazy branch returned its promise *)

Definition with_expanded (f : gset string → gset string) (v : tview) : tview :=
  {| t_heap := t_heap v; _rowDataByKey := _rowDataByKey v;
     _expandedRowKeys := f (_expandedRowKeys v);
     sent := sent v; emitted := emitted v |}.

Definition emit (event rowKey : string) (v : tview) : tview :=
  {| t_heap := t_heap v; _rowDataByKey := _rowDataByKey v;
     _expandedRowKeys := _expandedRowKeys v;
     sent := sent v; emitted := emitted v ++ [(event, rowKey)] |}.

Definition send_child (q : request) (v : tview) : tview :=
  {| t_heap := t_heap v; _rowDataByKey := _rowDataByKey v;
     _expandedRowKeys := _expandedRowKeys v;
     sent := sent v ++ [q]; emitted := emitted v |}.


(** [this.childRows.dataKey || "children"] *)
Definition effective_dataKey (c : childRows_config) : string :=
  if String.eqb (dataKey c) "" then "children" else dataKey c.

(** [!row[dataKey] || row[dataKey].length === 0] *)
Definition slot_empty (x : jsval) : bool :=
  negb (truthy x) || match x with VArr [] => true | _ => false end.

(** [afterInsertChildRows]: the child rows are inserted under the parent
    (the DOM is not modelled) and [childShown] is emitted. *)
Definition afterInsertChildRows (rowKey : string) : State tview unit :=
  modify (emit "childShown" rowKey).

(** The parent identity sent with a child request, when
    [_loadLazyChildren] gets as far as sending one. *)
Definition lazy_request (cfg : expand_config) (v : tview) (rowKey : string)
    : option request :=
  if negb (lazyLoad (childRows cfg)) then None
  else
    match _rowDataByKey v !! rowKey with
    | None => None
    | Some p =>
        let parent := deref (t_heap v) p in
        let parentId :=
          match rowId (childRows cfg) with
          | Some f => f parent
          | None => prop parent "id"
          end in
        if negb (truthy parentId) then None
        else if negb (ajax_mode cfg) || String.eqb (ajax_url cfg) "" then None
        else Some (ChildRequest parentId)
    end.

(** [_loadLazyChildren(rowKey)]: [true] when a request went out; otherwise
    the promise is already resolved with the empty array. *)
Definition _loadLazyChildren (cfg : expand_config) (rowKey : string)
    : State tview bool :=
  v ← gets id;
  match lazy_request cfg v rowKey with
  | Some q => modify (send_child q);; (mret true : State tview bool)
  | None => (mret false : State tview bool)
  end.


(** The synchronous part of [expandChildRows(rowKey)]. *)
Definition expandChildRows (cfg : expand_config) (rowKey : string)
    : State tview expand_outcome :=
  if negb (enabled (childRows cfg)) || String.eqb rowKey "" then
    (mret NotExpanded : State tview expand_outcome)
  else
    let dKey := effective_dataKey (childRows cfg) in
    v ← gets id;
    if lazyLoad (childRows cfg) then
      match _rowDataByKey v !! rowKey with
      | None => (mret Threw : State tview expand_outcome)
      | Some r =>
          if slot_empty (prop (deref (t_heap v) r) dKey) then
            modify (with_expanded (λ e, {[rowKey]} ∪ e));;
            _loadLazyChildren cfg rowKey;;
            (mret (AwaitsChildren r) : State tview expand_outcome)
          else
            modify (with_expanded (λ e, {[rowKey]} ∪ e));;
            afterInsertChildRows rowKey;;
            (mret Expanded : State tview expand_outcome)
      end
    else
      modify (with_expanded (λ e, {[rowKey]} ∪ e));;
      afterInsertChildRows rowKey;;
      (mret Expanded : State tview expand_outcome).


(** [this.childRows] as the constructor builds it from [options.childRows].
    The object literal has no [lazyLoad] entry, so the flag the methods
    read is undefined whatever the options say. *)
Record childRows_options : Type := {
  opt_enabled : bool;
  opt_dataKey : string;
  opt_lazyLoad : bool;
  opt_rowId : option (obj → jsval);
}.

Definition constructor_childRows (o : childRows_options) : childRows_config :=
  {| enabled := opt_enabled o;
     dataKey := if String.eqb (opt_dataKey o) "" then "children" else opt_dataKey o;
     lazyLoad := false;
     rowId := opt_rowId o |}.

(** ** AjaxDataSource: the shape of a response

    What the request, the [ajax.fetch] hook or [ajax.transform] answers: an
    array of rows, or an object of which [data] and [total] are read.  The
    object may carry a [rows] property, which is the shape the comments of
    the source give for a hook's answer.  [data] and [rows], when present,
    are arrays of rows; [total], when a number, is an integer. *)

Inductive response : Type :=
  | RespArray (l : list ref)
  | RespObject (data : option (list ref)) (rows_prop : option (list ref))
               (total_prop : option Z).

(** The [then] callback [_handleFetchResponse] of [AjaxDataSource.load]:
    [rows = Array.isArray(json) ? json : (json.data || [])] and
    [total = typeof json.total === 'number' ? json.total : rows.length]. *)
Definition _handleFetchResponse (transform : option (response → response))
    (json : response) : raw_result :=
  let json := match transform with Some t => t json | None => json end in
  let rows :=
    match json with
    | RespArray l => l
    | RespObject data _ _ => default [] data
    end in
  let total :=
    match json with
    | RespObject _ _ (Some n) => n
    | _ => Z.of_nat (length rows)
    end in
  {| r_rows := VArr rows; r_total := Some total |}.

(** ** The row ledgers of the table: row keys, groups, selection, and what
    a render of the body leaves in them

    The DOM is kept to what the ledgers need: the body is the list of the
    rows rendered, each with its row key, its parent's key for a child row
    and its group key.  Row keys are not names of [Object.prototype]. *)

Module Body.

(** [this.childRows], [this.grouping] and [this.select], as far as they
    are read here; [tbl] holds [childRows.enabled] and [childRows.dataKey]. *)
Record config : Type := {
  tbl : table;
  rowId : option (obj → jsval);     (* childRows.rowId, when a function *)
  startExpanded : bool;             (* childRows.startExpanded, as a condition *)
  grouping_enabled : bool;          (* this.grouping && this.grouping.enabled *)
  grouping_keys : list string;      (* grouping.keys, [] when null *)
  header_show : bool;               (* grouping.header && grouping.header.show *)
  select_enabled : bool;
  select_groupMode : string;
}.

Inductive tr : Type :=
  | EmptyTr                                  (* the "no data" row *)
  | GroupHeaderTr (groupKey : string)
  | DataTr (rowKey : string) (row : ref)
           (parentKey : option string)       (* dataset.parentKey of a child row *)
           (groupKey : option string).       (* dataset.groupKey *)

(** A group, [{key, values, rows}]. *)
Record group : Type := {
  gkey : string;
  gvalues : gmap string jsval;
  grows : list ref;
}.

(** The payload of a [select] event. *)
Record select_event : Type := {
  mode : string;
  ev_rowKey : option string;
  checked : bool;
  affectedRowKeys : list string;
  selectedRowKeys : list string;
}.

(** The table, as far as the row ledgers go.  A [Set] is the list of its
    elements in insertion order. *)
Record view : Type := {
  v_heap : heap;
  _selectedRowKeys : list string;
  _expandedRowKeys : list string;
  _rowDataByKey : gmap string ref;
  _pageParentRowKeys : list string;
  _pageGroupRowKeyMap : option (gmap string (list string));
  _childRowsInitialized : bool;
  _headerSelectCheckbox : option (bool * bool);   (* checked, indeterminate *)
  tbody : list tr;
  emitted : list select_event;                    (* oldest first *)
}.

(** [Set.prototype.add], [delete] and [has]. *)
Definition set_add (k : string) (s : list string) : list string :=
  if bool_decide (k ∈ s) then s else s ++ [k].

Definition set_delete (k : string) (s : list string) : list string :=
  List.filter (λ x, negb (String.eqb x k)) s.

Definition set_has (k : string) (s : list string) : bool := bool_decide (k ∈ s).

Definition with_selected (f : list string → list string) (v : view) : view :=
  {| v_heap := v_heap v; _selectedRowKeys := f (_selectedRowKeys v);
     _expandedRowKeys := _expandedRowKeys v; _rowDataByKey := _rowDataByKey v;
     _pageParentRowKeys := _pageParentRowKeys v;
     _pageGroupRowKeyMap := _pageGroupRowKeyMap v;
     _childRowsInitialized := _childRowsInitialized v;
     _headerSelectCheckbox := _headerSelectCheckbox v;
     tbody := tbody v; emitted := emitted v |}.

Definition with_expanded (f : list string → list string) (v : view) : view :=
  {| v_heap := v_heap v; _selectedRowKeys := _selectedRowKeys v;
     _expandedRowKeys := f (_expandedRowKeys v); _rowDataByKey := _rowDataByKey v;
     _pageParentRowKeys := _pageParentRowKeys v;
     _pageGroupRowKeyMap := _pageGroupRowKeyMap v;
     _childRowsInitialized := _childRowsInitialized v;
     _headerSelectCheckbox := _headerSelectCheckbox v;
     tbody := tbody v; emitted := emitted v |}.

Definition with_rowData (f : gmap string ref → gmap string ref) (v : view) : view :=
  {| v_heap := v_heap v; _selectedRowKeys := _selectedRowKeys v;
     _expandedRowKeys := _expandedRowKeys v; _rowDataByKey := f (_rowDataByKey v);
     _pageParentRowKeys := _pageParentRowKeys v;
     _pageGroupRowKeyMap := _pageGroupRowKeyMap v;
     _childRowsInitialized := _childRowsInitialized v;
     _headerSelectCheckbox := _headerSelectCheckbox v;
     tbody := tbody v; emitted := emitted v |}.

Definition with_pageKeys (f : list string → list string) (v : view) : view :=
  {| v_heap := v_heap v; _selectedRowKeys := _selectedRowKeys v;
     _expandedRowKeys := _expandedRowKeys v; _rowDataByKey := _rowDataByKey v;
     _pageParentRowKeys := f (_pageParentRowKeys v);
     _pageGroupRowKeyMap := _pageGroupRowKeyMap v;
     _childRowsInitialized := _childRowsInitialized v;
     _headerSelectCheckbox := _headerSelectCheckbox v;
     tbody := tbody v; emitted := emitted v |}.

Definition with_groupMap (m : option (gmap string (list string))) (v : view)
    : view :=
  {| v_heap := v_heap v; _selectedRowKeys := _selectedRowKeys v;
     _expandedRowKeys := _expandedRowKeys v; _rowDataByKey := _rowDataByKey v;
     _pageParentRowKeys := _pageParentRowKeys v;
     _pageGroupRowKeyMap := m;
     _childRowsInitialized := _childRowsInitialized v;
     _headerSelectCheckbox := _headerSelectCheckbox v;
     tbody := tbody v; emitted := emitted v |}.

Definition with_initialized (b : bool) (v : view) : view :=
  {| v_heap := v_heap v; _selectedRowKeys := _selectedRowKeys v;
     _expandedRowKeys := _expandedRowKeys v; _rowDataByKey := _rowDataByKey v;
     _pageParentRowKeys := _pageParentRowKeys v;
     _pageGroupRowKeyMap := _pageGroupRowKeyMap v;
     _childRowsInitialized := b;
     _headerSelectCheckbox := _headerSelectCheckbox v;
     tbody := tbody v; emitted := emitted v |}.

Definition with_header (c : option (bool * bool)) (v : view) : view :=
  {| v_heap := v_heap v; _selectedRowKeys := _selectedRowKeys v;
     _expandedRowKeys := _expandedRowKeys v; _rowDataByKey := _rowDataByKey v;
     _pageParentRowKeys := _pageParentRowKeys v;
     _pageGroupRowKeyMap := _pageGroupRowKeyMap v;
     _childRowsInitialized := _childRowsInitialized v;
     _headerSelectCheckbox := c;
     tbody := tbody v; emitted := emitted v |}.

Definition with_tbody (b : list tr) (v : view) : view :=
  {| v_heap := v_heap v; _selectedRowKeys := _selectedRowKeys v;
     _expandedRowKeys := _expandedRowKeys v; _rowDataByKey := _rowDataByKey v;
     _pageParentRowKeys := _pageParentRowKeys v;
     _pageGroupRowKeyMap := _pageGroupRowKeyMap v;
     _childRowsInitialized := _childRowsInitialized v;
     _headerSelectCheckbox := _headerSelectCheckbox v;
     tbody := b; emitted := emitted v |}.

Definition emit (e : select_event) (v : view) : view :=
  {| v_heap := v_heap v; _selectedRowKeys := _selectedRowKeys v;
     _expandedRowKeys := _expandedRowKeys v; _rowDataByKey := _rowDataByKey v;
     _pageParentRowKeys := _pageParentRowKeys v;
     _pageGroupRowKeyMap := _pageGroupRowKeyMap v;
     _childRowsInitialized := _childRowsInitialized v;
     _headerSelectCheckbox := _headerSelectCheckbox v;
     tbody := tbody v; emitted := emitted v ++ [e] |}.

(** [_hasGrouping()] *)
Definition _hasGrouping (cfg : config) : bool :=
  grouping_enabled cfg && (0 <? length (grouping_keys cfg))%nat.

(** *** Selection *)

Definition getSelectedRowKeys (v : view) : list string := _selectedRowKeys v.

(** [getSelectedRows()]: the row of every selected key that the table
    knows, in the order of selection. *)
Definition getSelectedRows (v : view) : list ref :=
  omap (λ k, _rowDataByKey v !! k) (getSelectedRowKeys v).

(** [_updateHeaderSelectCheckboxState()] *)
Definition _updateHeaderSelectCheckboxState (v : view) : view :=
  match _headerSelectCheckbox v with
  | None => v
  | Some _ =>
      let total := length (_pageParentRowKeys v) in
      if (total =? 0)%nat then with_header (Some (false, false)) v
      else
        let selectedCount :=
          length (List.filter (λ k, set_has k (_selectedRowKeys v))
                              (_pageParentRowKeys v)) in
        if (selectedCount =? 0)%nat then with_header (Some (false, false)) v
        else if (selectedCount =? total)%nat then with_header (Some (true, false)) v
        else with_header (Some (false, true)) v
  end.

(** [_syncSelectionDomAndHeader()]; the row checkboxes are read off the
    selection ([row_checked]). *)
Definition _syncSelectionDomAndHeader (cfg : config) (v : view) : view :=
  if negb (select_enabled cfg) then v
  else _updateHeaderSelectCheckboxState v.

(** The state of the checkbox of a rendered row after a sync:
    [key && this._selectedRowKeys.has(key)]. *)
Definition row_checked (v : view) (rowKey : string) : bool :=
  negb (String.eqb rowKey "") && set_has rowKey (_selectedRowKeys v).

Definition clearSelection (cfg : config) (v : view) : view :=
  let v1 := with_selected (λ _, []) v in
  let v2 := _syncSelectionDomAndHeader cfg v1 in
  emit {| mode := "clear"; ev_rowKey := None; checked := false;
          affectedRowKeys := []; selectedRowKeys := getSelectedRowKeys v2 |} v2.

Definition selectRow (cfg : config) (rowKey : string) (v : view) : view :=
  if String.eqb rowKey "" then v
  else _syncSelectionDomAndHeader cfg (with_selected (set_add rowKey) v).

Definition unselectRow (cfg : config) (rowKey : string) (v : view) : view :=
  if String.eqb rowKey "" then v
  else _syncSelectionDomAndHeader cfg (with_selected (set_delete rowKey) v).

(** The loop over the keys that adds them to, or deletes them from, the
    selection. *)
Definition apply_keys (checked : bool) (ks : list string) (s : list string)
    : list string :=
  foldl (λ acc k, if checked then set_add k acc else set_delete k acc) s ks.

Definition selectAllOnPage (cfg : config) (v : view) : view :=
  _syncSelectionDomAndHeader cfg
    (with_selected (apply_keys true (_pageParentRowKeys v)) v).

Definition unselectAllOnPage (cfg : config) (v : view) : view :=
  _syncSelectionDomAndHeader cfg
    (with_selected (apply_keys false (_pageParentRowKeys v)) v).

(** [_handleRowCheckboxChange(rowKey, checked, tr)]; [groupKey] is
    [tr && tr.dataset.groupKey]. *)
Definition row_affected (cfg : config) (v : view) (rowKey : string)
    (groupKey : option string) : string * list string :=
  if _hasGrouping cfg && String.eqb (select_groupMode cfg) "group" then
    ("group",
     match groupKey, _pageGroupRowKeyMap v with
     | Some g, Some m =>
         if String.eqb g "" then [rowKey]
         else match m !! g with Some ks => ks | None => [rowKey] end
     | _, _ => [rowKey]
     end)
  else ("row", [rowKey]).

Definition _handleRowCheckboxChange (cfg : config) (rowKey : string)
    (isChecked : bool) (groupKey : option string) (v : view) : view :=
  let '(m, affectedKeys) := row_affected cfg v rowKey groupKey in
  let v1 := with_selected (apply_keys isChecked affectedKeys) v in
  let v2 := _syncSelectionDomAndHeader cfg v1 in
  emit {| mode := m; ev_rowKey := Some rowKey; checked := isChecked;
          affectedRowKeys := affectedKeys;
          selectedRowKeys := getSelectedRowKeys v2 |} v2.

Definition _handleHeaderSelectAll (cfg : config) (isChecked : bool) (v : view)
    : view :=
  let v1 := with_selected (apply_keys isChecked (_pageParentRowKeys v)) v in
  let v2 := _syncSelectionDomAndHeader cfg v1 in
  emit {| mode := "page"; ev_rowKey := None; checked := isChecked;
          affectedRowKeys := _pageParentRowKeys v2;
          selectedRowKeys := getSelectedRowKeys v2 |} v2.

Section WithBuiltins.
Context `{JsEnv}.
Variable stringify : list jsval → string.   (* JSON.stringify of an array *)

(** *** Row keys *)

(** [_getRowKey(row, rowIndex, fallbackPrefix)] *)
Definition _getRowKey (cfg : config) (row : obj) (rowIndex : nat)
    (fallbackPrefix : string) : string :=
  let prefix := if String.eqb fallbackPrefix "" then "row" else fallbackPrefix in
  let byRowId :=
    match rowId cfg with
    | Some f => let k := f row in if nullish k then None else Some (to_string k)
    | None => None
    end in
  match byRowId with
  | Some s => s
  | None =>
      if negb (nullish (prop row "id")) then to_string (prop row "id")
      else
        match prop row dt_index_key with
        | VNum n => numToString n
        | _ => prefix +:+ "-" +:+ pretty rowIndex
        end
  end.

(** [_hasChildRows(row)] *)
Definition _hasChildRows (cfg : config) (row : obj) : bool :=
  match _getChildrenForRow (tbl cfg) row with
  | Some (_ :: _) => true
  | _ => false
  end.

(** *** Groups *)

Definition key_parts (cfg : config) (row : obj) : list jsval :=
  map (λ k, prop row k) (grouping_keys cfg).

(** [grouping.keys.forEach((k, idx) => group.values[k] = keyParts[idx])] *)
Definition group_values (ks : list string) (keyParts : list jsval)
    : gmap string jsval :=
  foldl (λ m kv, <[kv.1 := kv.2]> m) ∅ (zip ks keyParts).

(** The callback of [rows.forEach] in [_buildGroups], on the groups built
    so far and the index of their keys; [None] is the TypeError that
    [group.rows] raises on a group that is not in the array. *)
Definition group_add_row (cfg : config) (h : heap)
    (acc : option (list group * gmap string nat)) (r : ref)
    : option (list group * gmap string nat) :=
  '(groups, groupIndexByKey) ← acc;
  let keyParts := key_parts cfg (deref h r) in
  let groupKey := stringify keyParts in
  match groupIndexByKey !! groupKey with
  | Some i =>
      g ← groups !! i;
      Some (<[i := {| gkey := gkey g; gvalues := gvalues g;
                      grows := grows g ++ [r] |}]> groups,
            groupIndexByKey)
  | None =>
      Some (groups ++ [ {| gkey := groupKey;
                           gvalues := group_values (grouping_keys cfg) keyParts;
                           grows := [r] |} ],
            <[groupKey := length groups]> groupIndexByKey)
  end.

Definition _buildGroups (cfg : config) (h : heap) (rows : list ref)
    : option (list group) :=
  fst <$> foldl (group_add_row cfg h) (Some ([], ∅)) rows.

(** *** Rendering the body *)

(** The rows of the children of an expanded parent; [dataset.groupKey] is
    set on parent rows only. *)
Definition child_trs (cfg : config) (h : heap) (rowKey : string)
    (children : list ref) : list tr :=
  imap (λ childIndex childRow,
          DataTr (_getRowKey cfg (deref h childRow) childIndex
                    ("child-of-" +:+ rowKey))
                 childRow (Some rowKey) None) children.

(** The body of the loop over the parent rows, shared by the flat and the
    grouped renderer: the row at position [index] of the page, in the group
    [groupKey] if any, on the view and the fragment built so far. *)
Definition render_parent (cfg : config) (autoExpand : bool)
    (groupKey : option string) (index : nat) (r : ref)
    (acc : view * list tr) : view * list tr :=
  let '(v, frag) := acc in
  let row := deref (v_heap v) r in
  let rowKey := _getRowKey cfg row index "parent" in
  let hasChildren := _hasChildRows cfg row in
  let v1 :=
    match groupKey with
    | Some g =>
        with_groupMap
          ((λ m, <[g := default [] (m !! g) ++ [rowKey]]> m)
             <$> _pageGroupRowKeyMap v) v
    | None => v
    end in
  let v2 := with_pageKeys (λ ks, ks ++ [rowKey]) v1 in
  let v3 := with_rowData (λ m, <[rowKey := r]> m) v2 in
  let v4 :=
    if hasChildren && autoExpand && negb (set_has rowKey (_expandedRowKeys v3))
    then with_expanded (set_add rowKey) v3 else v3 in
  let children :=
    if hasChildren then _getChildrenForRow (tbl cfg) row else None in
  let expanded := set_has rowKey (_expandedRowKeys v4) in
  (v4,
   frag ++ [DataTr rowKey r None groupKey]
        ++ match children with
           | Some cs => if expanded then child_trs cfg (v_heap v) rowKey cs
                        else []
           | None => []
           end).

(** [_renderFlatBodyFragment(rows, autoExpand)] *)
Definition _renderFlatBodyFragment (cfg : config) (rows : list ref)
    (autoExpand : bool) (v : view) : view * list tr :=
  foldl (λ acc ir, render_parent cfg autoExpand None ir.1 ir.2 acc)
        (v, []) (imap pair rows).

(** The loop over the rows of one group; the counter of the rows of the
    page runs across the groups. *)
Definition render_group (cfg : config) (autoExpand : bool)
    (acc : view * list tr * nat) (g : group) : view * list tr * nat :=
  let '(v, frag, pageRowCounter) := acc in
  let frag := if header_show cfg then frag ++ [GroupHeaderTr (gkey g)] else frag in
  foldl (λ acc r,
           let '(v, frag, counter) := acc in
           let '(v', frag') :=
             render_parent cfg autoExpand (Some (gkey g)) counter r (v, frag) in
           (v', frag', S counter))
        (v, frag, pageRowCounter) (grows g).

(** [_renderGroupedBodyFragment(rows, visibleColCount, autoExpand)];
    [None] when [_buildGroups] throws. *)
Definition _renderGroupedBodyFragment (cfg : config) (rows : list ref)
    (autoExpand : bool) (v : view) : option (view * list tr) :=
  groups ← _buildGroups cfg (v_heap v) rows;
  Some (foldl (render_group cfg autoExpand) (v, [], 0%nat) groups).1.

(** [_renderBody(rows)] *)
Definition _renderBody (cfg : config) (rows : list ref) (v : view)
    : option view :=
  let autoExpand :=
    childRows_enabled (tbl cfg) && startExpanded cfg
    && negb (_childRowsInitialized v) in
  rendered ←
    match rows with
    | [] => Some (v, [EmptyTr])
    | _ =>
        let v1 := with_pageKeys (λ _, []) v in
        if _hasGrouping cfg then
          _renderGroupedBodyFragment cfg rows autoExpand
            (with_groupMap (Some ∅) v1)
        else Some (_renderFlatBodyFragment cfg rows autoExpand v1)
    end;
  let v2 := with_tbody rendered.2 rendered.1 in
  Some (if autoExpand then with_initialized true v2 else v2).

(** The part of [onLoad] and of [_rerenderBodyOnly] that renders the rows
    of the page: [_renderBody(rows)], then the selection sync of
    [_postBodyRender]. *)
Definition render_page (cfg : config) (rows : list ref) (v : view)
    : option view :=
  _syncSelectionDomAndHeader cfg <$> _renderBody cfg rows v.

End WithBuiltins.

(** The table as the constructor leaves it; the header checkbox is
    created with the header when selection is enabled. *)
Definition new_view (cfg : config) (h : heap) : view :=
  {| v_heap := h; _selectedRowKeys := []; _expandedRowKeys := [];
     _rowDataByKey := ∅; _pageParentRowKeys := [];
     _pageGroupRowKeyMap := None; _childRowsInitialized := false;
     _headerSelectCheckbox :=
       if select_enabled cfg then Some (false, false) else None;
     tbody := []; emitted := [] |}.

End Body.


(** ** The pager *)

(** What the [getState] closure given to the pager answers. *)
Record pager_state : Type := {
  p_page : Z;
  p_pageSize : Z;
  p_totalRows : Z;
  p_totalPages : Z;
  p_start : Z;
  p_end : Z;
}.

Definition getState (st : QueryState) : pager_state :=
  {| p_page := page st;
     p_pageSize := pageSize st;
     p_totalRows := totalRows st;
     p_totalPages := Z.max 1 (ceil_div (totalRows st) (pageSize st));
     p_start := if totalRows st =? 0 then 0 else (page st - 1) * pageSize st + 1;
     p_end := if totalRows st =? 0 then 0
              else Z.min (page st * pageSize st) (totalRows st) |}.

Inductive page_item : Type :=
  | PageItem (number : Z)     (* {type: 'page', number} *)
  | Ellipsis.                 (* {type: 'ellipsis'} *)

(** The items that [_updatePageNumberList] builds. *)
Definition page_items (ps : pager_state) : list page_item :=
  let pg := p_page ps in
  let totalPages := p_totalPages ps in
  if totalPages <=? 7 then PageItem <$> seqZ 1 totalPages
  else
    let left := Z.max 2 (pg - 1) in
    let right := Z.min (totalPages - 1) (pg + 1) in
    [PageItem 1]
    ++ (if 2 <? left then [Ellipsis] else [])
    ++ (PageItem <$> seqZ left (right - left + 1))
    ++ (if right <? totalPages - 1 then [Ellipsis] else [])
    ++ [PageItem totalPages].

(** The four buttons of the pager: whether each is disabled, and the page
    it asks for. *)
Record pager_buttons : Type := {
  first_disabled : bool;
  prev_disabled : bool;
  next_disabled : bool;
  last_disabled : bool;
}.

Definition _updatePageNumberList (ps : pager_state)
    : pager_buttons * list page_item :=
  ({| first_disabled := p_page ps <=? 1;
      prev_disabled := p_page ps <=? 1;
      next_disabled := p_totalPages ps <=? p_page ps;
      last_disabled := p_totalPages ps <=? p_page ps |},
   page_items ps).

(** The page numbers among the items. *)
Definition item_number (i : page_item) : option Z :=
  match i with PageItem n => Some n | Ellipsis => None end.

(** ** An ASCII instance of the built-ins, to run the model on examples *)

Module AsciiEnv.

Definition lower_char (c : ascii) : ascii :=
  let n := nat_of_ascii c in
  if (65 <=? n)%nat && (n <=? 90)%nat then ascii_of_nat (n + 32) else c.

Fixpoint lower (s : string) : string :=
  match s with
  | EmptyString => EmptyString
  | String c rest => String (lower_char c) (lower rest)
  end.

Definition is_space (c : ascii) : bool :=
  let n := nat_of_ascii c in
  (n =? 32)%nat || ((9 <=? n)%nat && (n <=? 13)%nat).

Fixpoint trim_left (s : string) : string :=
  match s with
  | String c rest => if is_space c then trim_left rest else s
  | EmptyString => EmptyString
  end.

Fixpoint trim_right (s : string) : string :=
  match s with
  | EmptyString => EmptyString
  | String c rest =>
      match trim_right rest with
      | EmptyString => if is_space c then EmptyString else String c EmptyString
      | rest' => String c rest'
      end
  end.

Definition compare_strings (a b : string) : Z :=
  match String.compare a b with
  | Lt => -1
  | Eq => 0
  | Gt => 1
  end.

Fixpoint digits (acc : Z) (s : string) : option Z :=
  match s with
  | EmptyString => Some acc
  | String c rest =>
      let n := nat_of_ascii c in
      if (48 <=? n)%nat && (n <=? 57)%nat
      then digits (10 * acc + Z.of_nat (n - 48)) rest
      else None
  end.

(** Decimal integers only; the empty string is 0, as for [Number]. *)
Definition number (s : string) : jsnum :=
  match trim_right (trim_left s) with
  | EmptyString => num_of_Z 0
  | String "-" (String c rest) =>
      match digits 0 (String c rest) with
      | Some z => num_of_Z (- z)
      | None => NaN
      end
  | t => match digits 0 t with Some z => num_of_Z z | None => NaN end
  end.

Definition show (n : jsnum) : string :=
  match n with
  | Fin q =>
      match Qden q with
      | xH => pretty (Qnum q)
      | d => pretty (Qnum q) +:+ "/" +:+ pretty (Zpos d)
      end
  | PInf => "Infinity"
  | NInf => "-Infinity"
  | NaN => "NaN"
  end.

Definition env : JsEnv :=
  {| toLowerCase := lower;
     trim := λ s, trim_right (trim_left s);
     localeCompare := compare_strings;
     toNumber := number;
     dateParse := λ _, None;
     numToString := show |}.

End AsciiEnv.

(** ** Example data: the three rows of the specification's scenarios *)

Module Example.

Definition row (id : Z) (name : string) (age : Z) : obj :=
  {[ "id" := VNum (num_of_Z id); "name" := VStr name;
     "age" := VNum (num_of_Z age) ]}.

Definition people : heap :=
  {[ 0%nat := row 1 "Bob" 30; 1%nat := row 2 "Ann" 25; 2%nat := row 3 "Cid" 25 ]}.

Definition plain (k : string) : column :=
  {| key := k; isSyntheticKey := false; sortable := true; searchable := true;
     visible := true; render := None |}.

Definition cols : list column := [plain "id"; plain "name"; plain "age"].

Definition tbl : table :=
  {| columns := cols; filters_enabled := false; filters_items := [];
     childRows_enabled := false; childRows_dataKey := "children";
     childRows_columns := []; childRows_getColumns := None |}.

Definition st0 : QueryState :=
  {| page := 1; pageSize := 10; pagingEnabled := false; searchText := "";
     sortOrders := []; totalRows := 0; filters := ∅ |}.

Definition w0 : world :=
  {| w_heap := people; original := []; loaded := false; requests := [] |}.

(** The source after [new LocalDataSource(data)]. *)
Definition w1 : world := (setData (VArr [0; 1; 2]%nat) w0).2.

Definition by_age_name : list sortorder :=
  [ {| okey := "age"; odir := "asc" |}; {| okey := "name"; odir := "asc" |} ].

Definition by_age_desc : list sortorder := [ {| okey := "age"; odir := "DESC" |} ].

(** A fourth row without an age. *)
Definition people4 : heap :=
  <[ 3%nat := {[ "id" := VNum (num_of_Z 4); "name" := VStr "Dan" ]} ]> people.

Definition w4 : world :=
  (setData (VArr [3; 0; 1; 2]%nat)
     {| w_heap := people4; original := []; loaded := false; requests := [] |}).2.


Definition view0 : tview :=
  {| t_heap := {[ 0%nat := {[ "id" := VNum (num_of_Z 1) ]} ]};
     _rowDataByKey := {[ "1" := 0%nat ]};
     _expandedRowKeys := ∅; sent := []; emitted := [] |}.

End Example.

(** ** Further example data *)

Module Sample.

Definition by_age : list sortorder := [ {| okey := "age"; odir := "asc" |} ].

(** The three rows given again to the source, in the reverse order. *)
Definition w_reordered : world := (setData (VArr [2; 1; 0]%nat) Example.w1).2.

Definition paged (p size : Z) : QueryState :=
  {| page := p; pageSize := size; pagingEnabled := true; searchText := "";
     sortOrders := []; totalRows := 0; filters := ∅ |}.

(** A table with selection enabled, without grouping and without child
    rows. *)
Definition body_cfg : Body.config :=
  {| Body.tbl := Example.tbl; Body.rowId := None; Body.startExpanded := false;
     Body.grouping_enabled := false; Body.grouping_keys := [];
     Body.header_show := false; Body.select_enabled := true;
     Body.select_groupMode := "row" |}.

(** The same table with the rows grouped by age, selection by group. *)
Definition grouped_cfg : Body.config :=
  {| Body.tbl := Example.tbl; Body.rowId := None; Body.startExpanded := false;
     Body.grouping_enabled := true; Body.grouping_keys := ["age"];
     Body.header_show := true; Body.select_enabled := true;
     Body.select_groupMode := "group" |}.

(** A stand-in for [JSON.stringify] on the key parts. *)
Definition stringify (parts : list jsval) : string :=
  "[" +:+ String.concat "," (map (@to_string AsciiEnv.env) parts) +:+ "]".

Definition view0 : Body.view := Body.new_view body_cfg (w_heap Example.w1).

(** The view with the rows keyed "1" and "2" on the page and the first of
    them selected. *)
Definition view1 : Body.view :=
  Body.selectRow body_cfg "1"
    (Body.with_rowData (λ _, {[ "1" := 0%nat; "2" := 1%nat ]})
       (Body.with_pageKeys (λ _, ["1"; "2"]) view0)).

(** A parent row with two children and a row without, in a table whose
    child rows start expanded. *)
Definition family : heap :=
  {[ 0%nat := {[ "id" := VNum (num_of_Z 1); "name" := VStr "Bob";
                 "children" := VArr [1; 2]%nat ]};
     1%nat := {[ "id" := VNum (num_of_Z 11); "name" := VStr "Bea" ]};
     2%nat := {[ "id" := VNum (num_of_Z 12); "name" := VStr "Ben" ]};
     3%nat := {[ "id" := VNum (num_of_Z 2); "name" := VStr "Ann" ]} ]}.

Definition tree_tbl : table :=
  {| columns := Example.cols; filters_enabled := false; filters_items := [];
     childRows_enabled := true; childRows_dataKey := "children";
     childRows_columns := []; childRows_getColumns := None |}.

Definition tree_cfg : Body.config :=
  {| Body.tbl := tree_tbl; Body.rowId := None; Body.startExpanded := true;
     Body.grouping_enabled := false; Body.grouping_keys := [];
     Body.header_show := false; Body.select_enabled := true;
     Body.select_groupMode := "row" |}.

Definition tree_view : Body.view := Body.new_view tree_cfg family.

(** Four rows whose ages are strings, one of them not a number; the first
    and the last have the same age. *)
Definition mixed_ages : heap :=
  {[ 0%nat := {[ "name" := VStr "Ann"; "age" := VStr "9" ]};
     1%nat := {[ "name" := VStr "Bob"; "age" := VStr "1x" ]};
     2%nat := {[ "name" := VStr "Cid"; "age" := VStr "10" ]};
     3%nat := {[ "name" := VStr "Dan"; "age" := VStr "9" ]} ]}.

(** The source after [new LocalDataSource(data)] on these rows. *)
Definition w_mixed : world :=
  (setData (VArr [0; 1; 2; 3]%nat)
     {| w_heap := mixed_ages; original := []; loaded := false;
        requests := [] |}).2.

End Sample.

(** ** Notions used to state the properties *)

(** The tie-break of the comparator does not put [b] before [a]: the
    original-order index of [a] is not greater than that of [b]. *)
Definition index_le (h : heap) (a b : ref) : bool :=
  negb (num_gt0 (num_sub (dt_index (deref h a)) (dt_index (deref h b)))).

(** The original-order indices ascend along a list of rows. *)
Fixpoint index_ascending (h : heap) (l : list ref) : bool :=
  match l with
  | [] => true
  | a :: rest => forallb (index_le h a) rest && index_ascending h rest
  end.

(** A turn of the comparator's loop that orders neither row before the
    other: it goes on to the next spec, or returns NaN. *)
Definition undecided (o : option jsnum) : bool :=
  match o with
  | None => true
  | Some r => negb (num_gt0 r) && negb (num_lt0 r)
  end.

Section Ties.
Context `{JsEnv}.

(** Two sort keys compare equal under a spec. *)
Definition ties_at (d : Z) (ka kb : sortkey) : bool :=
  undecided (compare_key d ka kb) && undecided (compare_key d kb ka).

(** Two rows compare equal under every spec of the list. *)
Definition keys_tie (h : heap) (tbl : option table) (specs : list sortspec)
    (a b : ref) : bool :=
  forallb (λ s, ties_at (dir s) (sort_key tbl (deref h a) s)
                                (sort_key tbl (deref h b) s)) specs.

Definition is_null_key (k : sortkey) : bool :=
  match k with KNull => true | _ => false end.

(** The loop of the comparator goes on past every spec of the list, for
    the two rows in either order. *)
Definition goes_on (h : heap) (tbl : option table) (specs : list sortspec)
    (a b : ref) : bool :=
  forallb (λ s,
    let ka := sort_key tbl (deref h a) s in
    let kb := sort_key tbl (deref h b) s in
    bool_decide (compare_key (dir s) ka kb = None)
    && bool_decide (compare_key (dir s) kb ka = None)) specs.

End Ties.

(** What holds of an Ajax table between events: only draws that were
    started are pending or settled, a settled draw is no longer pending,
    and once the load of the latest draw has resolved the body and the
    total are those of its result. *)
Record draw_invariant (s : tstate) : Prop := {
  inv_pending : ∀ id, id ∈ pending s → (id ≤ drawSeq s)%nat;
  inv_history : ∀ id o, (id, o) ∈ history s →
                  (id ≤ drawSeq s)%nat ∧ id ∉ pending s;
  inv_latest : ∀ res, (drawSeq s, LoadResolved res) ∈ history s →
                 tbody s = result_rows res
                 ∧ _lastPageRows s = result_rows res
                 ∧ totalRows (state s) = result_total res;
}.

(** A comparator that is consistent on a list, in the sense ECMAScript
    gives the word for [Array.prototype.sort]: not being greater is total
    and transitive on the elements of the list. *)
Definition consistent_on {A} (cmp : A → A → jsnum) (l : list A) : Prop :=
  (∀ x y, x ∈ l → y ∈ l →
     num_gt0 (cmp x y) = true → num_gt0 (cmp y x) = false)
  ∧ (∀ x y z, x ∈ l → y ∈ l → z ∈ l →
       num_gt0 (cmp x y) = false → num_gt0 (cmp y z) = false →
       num_gt0 (cmp x z) = false).

(** A sort that conforms to ECMAScript: it rearranges its input, and on a
    comparator that is consistent on the input it returns the one stable
    sorted arrangement, which is the list [js_sort] returns.  On any other
    comparator the order is left to the engine. *)
Definition conforming_sort {A}
    (sort : (A → A → jsnum) → list A → list A) : Prop :=
  ∀ cmp l, sort cmp l ≡ₚ l
           ∧ (consistent_on cmp l → sort cmp l = js_sort cmp l).

(** The bound on the page number that [goToPage] and the pager enforce. *)
Definition page_in_range (st : QueryState) : Prop :=
  1 ≤ page st ∧ page st ≤ Z.max 1 (ceil_div (totalRows st) (pageSize st)).

(** [consistent_on] decided by running the comparator on every pair and
    every triple of the list. *)
Definition consistent_onb {A} (cmp : A → A → jsnum) (l : list A) : bool :=
  forallb (λ x, forallb (λ y,
    implb (num_gt0 (cmp x y)) (negb (num_gt0 (cmp y x)))) l) l
  && forallb (λ x, forallb (λ y, forallb (λ z,
       implb (negb (num_gt0 (cmp x y)) && negb (num_gt0 (cmp y z)))
             (negb (num_gt0 (cmp x z)))) l) l) l.

(** The group key of a row: the key parts of the row, stringified. *)
Definition group_key_of (stringify : list jsval → string) (cfg : Body.config)
    (h : heap) (r : ref) : string :=
  stringify (Body.key_parts cfg (deref h r)).

(** The distinct elements of a list, in the order of their first
    occurrence. *)
Definition first_seen (l : list string) : list string :=
  foldl (λ acc k, Body.set_add k acc) [] l.

(** What holds of the groups and of the index of their keys after the
    rows [seen] have been through the loop of [_buildGroups]. *)
Record groups_inv (stringify : list jsval → string) (cfg : Body.config)
    (h : heap) (seen : list ref) (gs : list Body.group)
    (idx : gmap string nat) : Prop := {
  gi_index : ∀ i g, gs !! i = Some g → idx !! Body.gkey g = Some i;
  gi_lookup : ∀ k i, idx !! k = Some i →
                ∃ g, gs !! i = Some g ∧ Body.gkey g = k;
  gi_rows : ∀ g, g ∈ gs →
              Body.grows g
              = List.filter (λ r, String.eqb (group_key_of stringify cfg h r)
                                             (Body.gkey g)) seen
              ∧ Body.grows g ≠ [];
  gi_keys : Body.gkey <$> gs = first_seen (group_key_of stringify cfg h <$> seen);
  gi_perm : concat (Body.grows <$> gs) ≡ₚ seen;
  gi_values : ∀ g, g ∈ gs →
                ∃ r, head (Body.grows g) = Some r
                     ∧ Body.gvalues g
                       = Body.group_values (Body.grouping_keys cfg)
                           (Body.key_parts cfg (deref h r));
}.

(** The key of the row at position [i] of the page, and the keys of the
    parent rows of a page, in the order of the rows. *)
Definition parent_key `{JsEnv} (cfg : Body.config) (h : heap) (i : nat)
    (r : ref) : string :=
  Body._getRowKey cfg (deref h r) i "parent".

Definition parent_keys `{JsEnv} (cfg : Body.config) (h : heap)
    (rows : list ref) : list string :=
  imap (parent_key cfg h) rows.

(** Whether a render shows the children of a row: the row has children,
    and either rows are expanded automatically or the key of the row was
    expanded before the render. *)
Definition shown_expanded (cfg : Body.config) (h : heap) (before : list string)
    (autoExpand : bool) (rowKey : string) (r : ref) : bool :=
  Body._hasChildRows cfg (deref h r) && (autoExpand || Body.set_has rowKey before).

(** What a render appends to the body for one parent row: the row, then
    its children if they are shown. *)
Definition parent_block `{JsEnv} (cfg : Body.config) (h : heap)
    (before : list string) (autoExpand : bool) (groupKey : option string)
    (i : nat) (r : ref) : list Body.tr :=
  let rowKey := parent_key cfg h i r in
  Body.DataTr rowKey r None groupKey
  :: (if shown_expanded cfg h before autoExpand rowKey r
      then Body.child_trs cfg h rowKey
             (default [] (_getChildrenForRow (Body.tbl cfg) (deref h r)))
      else []).

(** [m[k] = r] for a list of keys and rows, one after the other. *)
Definition store_rows (krs : list (string * ref)) (m : gmap string ref)
    : gmap string ref :=
  foldl (λ m kr, <[kr.1 := kr.2]> m) m krs.

(** The loop over the parent rows [rows], the first of them at position
    [n] of the page, in the group [groupKey] if any. *)
Definition render_rows `{JsEnv} (cfg : Body.config) (autoExpand : bool)
    (groupKey : option string) (n : nat) (rows : list ref)
    (acc : Body.view * list Body.tr) : Body.view * list Body.tr :=
  foldl (λ acc ir, Body.render_parent cfg autoExpand groupKey ir.1 ir.2 acc)
        acc (imap (λ i r, ((n + i)%nat, r)) rows).

(** [map[g].push(k)] for a list of keys, [map[g]] being created empty when
    it is missing. *)
Definition push_keys (g : string) (ks : list string)
    (m : gmap string (list string)) : gmap string (list string) :=
  foldl (λ m k, <[g := default [] (m !! g) ++ [k]]> m) m ks.

(** What the loop over the parent rows leaves: the ledgers of the view
    [v'] and the fragment [frag'] after the loop, from those before it. *)
Definition rows_rendered `{JsEnv} (cfg : Body.config) (autoExpand : bool)
    (groupKey : option string) (n : nat) (rows : list ref)
    (v : Body.view) (frag : list Body.tr)
    (v' : Body.view) (frag' : list Body.tr) : Prop :=
  let h := Body.v_heap v in
  let ks := imap (λ i r, parent_key cfg h (n + i) r) rows in
  Body.v_heap v' = h
  ∧ Body._selectedRowKeys v' = Body._selectedRowKeys v
  ∧ Body._headerSelectCheckbox v' = Body._headerSelectCheckbox v
  ∧ Body._childRowsInitialized v' = Body._childRowsInitialized v
  ∧ Body.emitted v' = Body.emitted v
  ∧ Body.tbody v' = Body.tbody v
  ∧ Body._pageParentRowKeys v' = Body._pageParentRowKeys v ++ ks
  ∧ Body._rowDataByKey v' = store_rows (zip ks rows) (Body._rowDataByKey v)
  ∧ Body._pageGroupRowKeyMap v'
    = match groupKey with
      | Some g => push_keys g ks <$> Body._pageGroupRowKeyMap v
      | None => Body._pageGroupRowKeyMap v
      end
  ∧ (autoExpand = false → Body._expandedRowKeys v' = Body._expandedRowKeys v)
  ∧ (∀ k, k ∈ Body._expandedRowKeys v'
          ↔ k ∈ Body._expandedRowKeys v
            ∨ (autoExpand = true
               ∧ ∃ i r, rows !! i = Some r
                        ∧ parent_key cfg h (n + i) r = k
                        ∧ Body._hasChildRows cfg (deref h r) = true))
  ∧ frag'
    = frag ++ concat (imap (λ i r, parent_block cfg h (Body._expandedRowKeys v)
                                     autoExpand groupKey (n + i) r) rows).

(** The key and the row of a rendered parent row. *)
Definition parent_of (t : Body.tr) : option (string * ref) :=
  match t with
  | Body.DataTr k r None _ => Some (k, r)
  | _ => None
  end.

(** For the groups of a page, the first of them starting at position [n]:
    the key of each group with the keys of its rows. *)
Fixpoint group_entries `{JsEnv} (cfg : Body.config) (h : heap) (n : nat)
    (gs : list Body.group) : list (string * list string) :=
  match gs with
  | [] => []
  | g :: gs' =>
      (Body.gkey g, imap (λ i r, parent_key cfg h (n + i) r) (Body.grows g))
      :: group_entries cfg h (n + length (Body.grows g)) gs'
  end.

(** What the loop over the groups leaves in the ledgers. *)
Definition groups_rendered `{JsEnv} (cfg : Body.config) (autoExpand : bool)
    (n : nat) (gs : list Body.group) (v v' : Body.view) : Prop :=
  let h := Body.v_heap v in
  let all := concat (Body.grows <$> gs) in
  let ks := imap (λ i r, parent_key cfg h (n + i) r) all in
  Body.v_heap v' = h
  ∧ Body._selectedRowKeys v' = Body._selectedRowKeys v
  ∧ Body._headerSelectCheckbox v' = Body._headerSelectCheckbox v
  ∧ Body._childRowsInitialized v' = Body._childRowsInitialized v
  ∧ Body.emitted v' = Body.emitted v
  ∧ Body._pageParentRowKeys v' = Body._pageParentRowKeys v ++ ks
  ∧ Body._rowDataByKey v' = store_rows (zip ks all) (Body._rowDataByKey v)
  ∧ Body._pageGroupRowKeyMap v'
    = (λ m, foldl (λ m e, push_keys e.1 e.2 m) m (group_entries cfg h n gs))
        <$> Body._pageGroupRowKeyMap v
  ∧ (autoExpand = false → Body._expandedRowKeys v' = Body._expandedRowKeys v)
  ∧ (∀ k, k ∈ Body._expandedRowKeys v → k ∈ Body._expandedRowKeys v').

(** The page keys that a render of the rows [rows] leaves. *)
Definition page_keys_of `{JsEnv} (stringify : list jsval → string)
    (cfg : Body.config) (h : heap) (rows : list ref) : list string :=
  if Body._hasGrouping cfg then
    parent_keys cfg h
      (concat (Body.grows <$> default [] (Body._buildGroups stringify cfg h rows)))
  else parent_keys cfg h rows.

(** [autoExpand] of [_renderBody]. *)
Definition auto_expand (cfg : Body.config) (v : Body.view) : bool :=
  childRows_enabled (Body.tbl cfg) && Body.startExpanded cfg
  && negb (Body._childRowsInitialized v).

(** The number of draws started by a list of events. *)
Definition is_draw (ev : event) : bool :=
  match ev with Draw => true | _ => false end.

Definition draws (evs : list event) : nat := length (List.filter is_draw evs).

(** The result of the load that resolved last, if any did. *)
Definition resolved_with (p : nat * outcome) : option (option raw_result) :=
  match p.2 with
  | LoadResolved res => Some res
  | _ => None
  end.

Definition last_resolved (h : list (nat * outcome)) : option (option raw_result) :=
  last (omap resolved_with h).

(** What holds of the bookkeeping of the draws between events. *)
Record draw_ledger (cfg : draw_config) (s : tstate) : Prop := {
  dl_pending : ∀ id, id ∈ pending s
                 ↔ (1 ≤ id ≤ drawSeq s)%nat ∧ id ∉ (history s).*1;
  dl_history : ∀ id, id ∈ (history s).*1 → (1 ≤ id ≤ drawSeq s)%nat;
  dl_once : NoDup (history s).*1;
  dl_aborted : ∀ c, c ∈ aborted s
                 ↔ isAjax cfg = true ∧ (1 ≤ c < drawSeq s)%nat;
  dl_active : activeAbort s
              = if isAjax cfg && negb (drawSeq s =? 0)%nat
                then Some (drawSeq s) else None;
}.

(** The rows and the total that a response stands for. *)
Definition response_rows (j : response) : list ref :=
  match j with
  | RespArray l => l
  | RespObject data _ _ => default [] data
  end.

Definition response_total (j : response) : Z :=
  match j with
  | RespObject _ _ (Some n) => n
  | _ => Z.of_nat (length (response_rows j))
  end.

(** * Properties *)

(** ** Numbers *)

Lemma num_gt0_of_Z (z : Z) : num_gt0 (num_of_Z z) = true ↔ 0 < z.
Proof.
  unfold num_gt0, num_of_Z, Qcompare; simpl.
  rewrite Z.mul_1_r. destruct z; simpl; split; intros; try lia; try done.
Qed.

Lemma num_lt0_of_Z (z : Z) : num_lt0 (num_of_Z z) = true ↔ z < 0.
Proof.
  unfold num_lt0, num_of_Z, Qcompare; simpl.
  rewrite Z.mul_1_r. destruct z; simpl; split; intros; try lia; try done.
Qed.

(** ** [Array.prototype.sort] *)

Section Sorting.
Context {A : Type} (cmp : A → A → jsnum).

Lemma sort_insert_perm (x : A) (l : list A) : sort_insert cmp x l ≡ₚ x :: l.
Proof.
  induction l as [|y l IH]; simpl; [done|].
  destruct (num_gt0 (cmp x y)); [|done].
  rewrite IH. apply Permutation_swap.
Qed.

Lemma js_sort_perm (l : list A) : js_sort cmp l ≡ₚ l.
Proof.
  induction l as [|x l IH]; simpl; [done|].
  rewrite sort_insert_perm. by rewrite IH.
Qed.

Lemma js_sort_length (l : list A) : length (js_sort cmp l) = length l.
Proof. by rewrite js_sort_perm. Qed.

(** Inserting into a list all of whose ordered pairs are in [R]: it is
    enough that the new element is in [R] with every element it does not
    pass, and every element it passes is in [R] with it. *)
Lemma sort_insert_pairs (R : A → A → Prop) (x : A) (l : list A) :
  StronglySorted R l →
  Forall (λ y, num_gt0 (cmp x y) = true → R y x) l →
  (Forall (R x) l ∨
   (Transitive R ∧ Forall (λ y, num_gt0 (cmp x y) = false → R x y) l)) →
  StronglySorted R (sort_insert cmp x l).
Proof.
  induction 1 as [|y l Hl IH Hy]; intros Hpass Hstay; simpl.
  - repeat constructor.
  - apply Forall_cons in Hpass as [Hpy Hpass].
    destruct (num_gt0 (cmp x y)) eqn:Hgt.
    + constructor.
      * apply IH; [done|].
        destruct Hstay as [Hall|[Htr Hst]].
        -- left. by apply Forall_cons in Hall as [_ ?].
        -- right. split; [done|]. by apply Forall_cons in Hst as [_ ?].
      * rewrite sort_insert_perm. constructor; [by apply Hpy | done].
    + constructor; [by constructor|].
      destruct Hstay as [Hall|[Htr Hst]]; [done|].
      apply Forall_cons in Hst as [Hxy _]. specialize (Hxy Hgt).
      constructor; [done|].
      eapply Forall_impl; [exact Hy|]. intros z Hz. by transitivity y.
Qed.

(** When the comparator puts every element satisfying [p] after every
    element that does not, so does the sort. *)
Lemma js_sort_partition (wf : A → Prop) (p : A → bool) (l : list A) :
  Forall wf l →
  (∀ x y, wf x → wf y → p x = true → p y = false → num_gt0 (cmp x y) = true) →
  (∀ x y, wf x → wf y → p x = false → p y = true → num_gt0 (cmp x y) = false) →
  StronglySorted (λ a b, p a = true → p b = true) (js_sort cmp l).
Proof.
  intros Hwf Hgt Hle.
  induction Hwf as [|x l Hx Hl IH]; simpl; [constructor|].
  assert (Forall wf (js_sort cmp l)) as Hl' by by rewrite js_sort_perm.
  apply sort_insert_pairs; [done| |].
  - apply Forall_forall. intros y Hy Hxy Hpy.
    destruct (p x) eqn:Hpx; [done|].
    assert (wf y) as Hwy by (eapply Forall_forall; [exact Hl'|done]).
    by rewrite (Hle x y Hx Hwy Hpx Hpy) in Hxy.
  - right. split; [intros a b c Hab Hbc Ha; auto|].
    apply Forall_forall. intros y Hy Hxy Hpx.
    destruct (p y) eqn:Hpy; [done|].
    assert (wf y) as Hwy by (eapply Forall_forall; [exact Hl'|done]).
    by rewrite (Hgt x y Hx Hwy Hpx Hpy) in Hxy.
Qed.

End Sorting.

Lemma StronglySorted_lookup {A} (R : A → A → Prop) (l : list A) i j a b :
  StronglySorted R l → (i < j)%nat → l !! i = Some a → l !! j = Some b → R a b.
Proof.
  intros Hl. revert i j. induction Hl as [|x l Hl IH Hx]; intros i j Hij Hi Hj.
  - done.
  - destruct j as [|j]; [lia|]. destruct i as [|i]; simpl in *.
    + simplify_eq. eapply Forall_forall; [exact Hx|]. by eapply list_elem_of_lookup_2.
    + eapply IH; [|done..]. lia.
Qed.

Lemma StronglySorted_fmap {A B} (f : A → B) (R : B → B → Prop) (l : list A) :
  StronglySorted (λ a b, R (f a) (f b)) l → StronglySorted R (f <$> l).
Proof.
  induction 1 as [|x l Hl IH Hx]; simpl; constructor; [done|].
  by apply Forall_fmap.
Qed.

Lemma filter_sublist {A} (f : A → bool) (l : list A) : List.filter f l `sublist_of` l.
Proof.
  induction l as [|x l IH]; simpl; [done|].
  destruct (f x); by constructor.
Qed.

Lemma StronglySorted_sublist {A} (R : A → A → Prop) (l1 l2 : list A) :
  l1 `sublist_of` l2 → StronglySorted R l2 → StronglySorted R l1.
Proof.
  induction 1 as [|x l1 l2 Hs IH|x l1 l2 Hs IH]; intros Hl2.
  - constructor.
  - apply StronglySorted_cons in Hl2 as [Hx Hl2].
    constructor; [by apply IH|].
    apply Forall_forall. intros y Hy.
    eapply Forall_forall; [exact Hx|]. by eapply elem_of_sublist.
  - apply StronglySorted_cons in Hl2 as [_ Hl2]. by apply IH.
Qed.

Lemma StronglySorted_impl {A} (R1 R2 : A → A → Prop) (l : list A) :
  (∀ a b, R1 a b → R2 a b) → StronglySorted R1 l → StronglySorted R2 l.
Proof.
  intros HR. induction 1 as [|x l Hl IH Hx]; constructor; [done|].
  eapply Forall_impl; [exact Hx|]. auto.
Qed.

(** Every ordered pair of a list is a sublist of it. *)
Lemma StronglySorted_positions {A} (R : A → A → Prop) (l : list A) :
  StronglySorted R l →
  StronglySorted (λ a b, R a b ∧ [a; b] `sublist_of` l) l.
Proof.
  induction 1 as [|x l Hl IH Hx]; constructor.
  - eapply StronglySorted_impl; [|exact IH].
    intros a b [? ?]. split; [done|]. by apply sublist_cons.
  - apply Forall_forall. intros y Hy. split.
    + eapply Forall_forall; [exact Hx|done].
    + apply sublist_skip. by apply singleton_sublist_l.
Qed.

Section SortingOfSortedInput.
Context {A : Type} (cmp : A → A → jsnum).

(** Sorting an input all of whose ordered pairs are in [S]: the ordered
    pairs of the output are in [R] as soon as [S] implies [R], and implies
    [R] of the swapped pair for the pairs the comparator swaps. *)
Lemma js_sort_pairs (S R : A → A → Prop) (l : list A) :
  StronglySorted S l →
  (∀ x y, S x y → R x y) →
  (∀ x y, S x y → num_gt0 (cmp x y) = true → R y x) →
  StronglySorted R (js_sort cmp l).
Proof.
  intros Hl Hstay Hpass.
  induction Hl as [|x l Hl IH Hx]; simpl; [constructor|].
  apply sort_insert_pairs; [done| |left].
  - apply Forall_forall. intros y Hy. rewrite js_sort_perm in Hy.
    apply Hpass. eapply Forall_forall; [exact Hx|done].
  - apply Forall_forall. intros y Hy. rewrite js_sort_perm in Hy.
    apply Hstay. eapply Forall_forall; [exact Hx|done].
Qed.

(** With a consistent comparator the output is sorted, whatever the
    order of the input. *)
Lemma js_sort_sorted (l : list A) :
  consistent_on cmp l →
  StronglySorted (λ x y, (x ∈ l ∧ y ∈ l) ∧ num_gt0 (cmp x y) = false)
                 (js_sort cmp l).
Proof.
  intros [Htotal Htrans].
  assert (∀ k, Forall (λ x, x ∈ l) k →
            StronglySorted (λ x y, (x ∈ l ∧ y ∈ l) ∧ num_gt0 (cmp x y) = false)
                           (js_sort cmp k)) as Hgen.
  { intros k Hk. induction Hk as [|x k Hx Hk IH]; simpl; [constructor|].
    assert (∀ y, y ∈ js_sort cmp k → y ∈ l) as Hk'.
    { intros y Hy. rewrite js_sort_perm in Hy.
      rewrite Forall_forall in Hk. by apply Hk. }
    apply sort_insert_pairs; [done| |right; split].
    - apply Forall_forall. intros y Hy Hgt.
      split; [split; auto|]. apply Htotal; auto.
    - intros a b c [[Ha Hb] Hab] [[_ Hc] Hbc]. split; [by split|].
      by apply (Htrans a b c).
    - apply Forall_forall. intros y Hy Hle. split; [split; auto|done]. }
  apply Hgen. by apply Forall_forall.
Qed.

End SortingOfSortedInput.

Section SortingADescendingRun.
Context {A : Type} (cmp : A → A → jsnum).

Lemma consistent_on_tail (x : A) (l : list A) :
  consistent_on cmp (x :: l) → consistent_on cmp l.
Proof.
  intros [Htotal Htrans]. split.
  - intros a b Ha Hb. apply Htotal; by right.
  - intros a b c Ha Hb Hc. apply Htrans; by right.
Qed.

(** An element greater than every element of a sorted list goes to its
    end. *)
Lemma sort_insert_greatest (x : A) (k : list A) :
  Forall (λ y, num_gt0 (cmp x y) = true) k →
  sort_insert cmp x k = k ++ [x].
Proof.
  induction 1 as [|y k Hy _ IH]; [done|].
  cbn [sort_insert]. rewrite Hy, IH. done.
Qed.

(** In a descending run every element is greater than all that follow,
    when the comparator is consistent on the run. *)
Lemma descending_run_pairs (l : list A) :
  consistent_on cmp l →
  descending_run cmp l = true →
  StronglySorted (λ x y, num_gt0 (cmp x y) = true) l.
Proof.
  induction l as [|x rest IH]; intros Hcons Hrun; [constructor|].
  pose proof (consistent_on_tail _ _ Hcons) as Hrest.
  destruct rest as [|y rest']; [by repeat constructor|].
  cbn [descending_run] in Hrun. apply andb_true_iff in Hrun as [Hxy Hrun].
  specialize (IH Hrest Hrun). constructor; [done|].
  constructor; [done|].
  apply StronglySorted_inv in IH as [_ Hy].
  destruct Hcons as [Htotal Htrans].
  apply Forall_forall. intros z Hz.
  destruct (num_gt0 (cmp x z)) eqn:Hxz; [done|exfalso].
  assert (num_gt0 (cmp y z) = true) as Hyz.
  { rewrite Forall_forall in Hy. by apply Hy. }
  assert (num_gt0 (cmp z y) = false) as Hzy.
  { apply Htotal; [set_solver|set_solver|done]. }
  assert (num_gt0 (cmp x y) = false) as Habs.
  { apply (Htrans x z y); [set_solver|set_solver|set_solver|done|done]. }
  congruence.
Qed.

Lemma js_sort_descending (l : list A) :
  StronglySorted (λ x y, num_gt0 (cmp x y) = true) l →
  js_sort cmp l = reverse l.
Proof.
  induction 1 as [|x l _ IH Hx]; [done|].
  change (js_sort cmp (x :: l)) with (sort_insert cmp x (js_sort cmp l)).
  rewrite IH, reverse_cons.
  apply sort_insert_greatest. apply Forall_forall. intros y Hy.
  rewrite elem_of_reverse in Hy. rewrite Forall_forall in Hx. by apply Hx.
Qed.

End SortingADescendingRun.

(** A comparator that turns in a circle on three elements of a list is
    not consistent on the list. *)
Lemma cycle_inconsistent {A} (cmp : A → A → jsnum) (l : list A) (x y z : A) :
  x ∈ l → y ∈ l → z ∈ l →
  num_gt0 (cmp x y) = true →
  num_gt0 (cmp y z) = true →
  num_gt0 (cmp z x) = true →
  ¬ consistent_on cmp l.
Proof.
  intros Hx Hy Hz Hxy Hyz Hzx [Htotal Htrans].
  assert (num_gt0 (cmp x y) = false); [|congruence].
  apply (Htrans x z y); auto.
Qed.

(** [run_sort] conforms: on a consistent comparator a descending run is
    sorted by reversing it, so that both branches return the list of
    [js_sort]. *)
Lemma run_sort_conforming {A} : conforming_sort (@run_sort A).
Proof.
  intros cmp l. unfold run_sort. split.
  - destruct (descending_run cmp l); [apply reverse_Permutation|].
    apply js_sort_perm.
  - intros Hcons. destruct (descending_run cmp l) eqn:Hrun; [|done].
    symmetry. apply js_sort_descending. by apply descending_run_pairs.
Qed.

(** ** The original-order index *)

Lemma num_sub_of_Z_le (a b : Z) :
  a ≤ b → num_gt0 (num_sub (num_of_Z a) (num_of_Z b)) = false.
Proof.
  intros Hab. unfold num_gt0, num_sub, num_of_Z.
  destruct (Qcompare_spec 0 (inject_Z a - inject_Z b)) as [?|Hlt|?]; try done.
  exfalso. rewrite Zle_Qle in Hab. lra.
Qed.

Lemma StronglySorted_of_lookup {A} (R : A → A → Prop) (l : list A) :
  (∀ i j a b, (i < j)%nat → l !! i = Some a → l !! j = Some b → R a b) →
  StronglySorted R l.
Proof.
  induction l as [|x l IH]; intros HR; constructor.
  - apply IH. intros i j a b Hij Hi Hj. apply (HR (S i) (S j)); [lia|done..].
  - apply Forall_forall. intros y Hy.
    apply list_elem_of_lookup in Hy as [j Hj].
    apply (HR 0%nat (S j)); [lia|done..].
Qed.

Lemma index_ascending_sorted (h : heap) (l : list ref) :
  index_ascending h l = true ↔
  StronglySorted (λ a b, index_le h a b = true) l.
Proof.
  induction l as [|a l IH]; simpl.
  - split; [constructor|done].
  - rewrite andb_true_iff, forallb_forall, IH, StronglySorted_cons, Forall_forall.
    setoid_rewrite <-list_elem_of_In. done.
Qed.

Lemma attach_one_other h idx r r' :
  r ≠ r' → deref (attach_one h idx r) r' = deref h r'.
Proof.
  intros Hne. unfold attach_one.
  destruct (deref h r !! dt_index_key); [done|].
  unfold deref. by rewrite lookup_insert_ne.
Qed.

Lemma attach_from_other idx l h r :
  r ∉ l → deref (attach_from idx l h) r = deref h r.
Proof.
  revert idx h. induction l as [|r0 l IH]; intros idx h Hr; simpl; [done|].
  apply not_elem_of_cons in Hr as [Hne Hr].
  rewrite IH by done. by apply attach_one_other.
Qed.

Lemma attach_one_fresh h idx r :
  deref h r !! dt_index_key = None →
  dt_index (deref (attach_one h idx r) r) = num_of_Z (Z.of_nat idx).
Proof.
  intros Hnone. unfold attach_one. rewrite Hnone.
  unfold deref at 1. rewrite lookup_insert_eq. simpl.
  unfold dt_index, prop. by rewrite lookup_insert_eq.
Qed.

Lemma attach_from_fresh idx l h i r :
  NoDup l →
  (∀ r', r' ∈ l → deref h r' !! dt_index_key = None) →
  l !! i = Some r →
  dt_index (deref (attach_from idx l h) r) = num_of_Z (Z.of_nat (idx + i)).
Proof.
  revert idx h i. induction l as [|r0 l IH]; intros idx h i Hnd Hfresh Hi; [done|].
  apply NoDup_cons in Hnd as [Hr0 Hnd]. simpl.
  destruct i as [|i]; simpl in Hi.
  - injection Hi as ->. rewrite attach_from_other by done.
    rewrite attach_one_fresh; [by rewrite Nat.add_0_r|].
    apply Hfresh. by left.
  - rewrite (IH (S idx) _ i); [f_equal; lia|done| |done].
    intros r' Hr'. rewrite attach_one_other.
    + apply Hfresh. by right.
    + intros ->. done.
Qed.

(** [setData] on rows it observes for the first time: each row gets its
    position as index, so the indices ascend along the backing array. *)
Lemma setData_fresh (l : list ref) (w : world) :
  NoDup l →
  (∀ r, r ∈ l → deref (w_heap w) r !! dt_index_key = None) →
  let w' := (setData (VArr l) w).2 in
  original w' = l
  ∧ (∀ i r, l !! i = Some r →
            dt_index (deref (w_heap w') r) = num_of_Z (Z.of_nat i))
  ∧ index_ascending (w_heap w') (original w') = true.
Proof.
  intros Hnd Hfresh. simpl.
  assert (∀ i r, l !! i = Some r →
            dt_index (deref (attach_from 0 l (w_heap w)) r)
            = num_of_Z (Z.of_nat i)) as Hidx.
  { intros i r Hi. by rewrite (attach_from_fresh 0 l _ i r). }
  split; [done|]. split; [done|].
  set (h' := attach_from 0 l (w_heap w)) in *.
  assert (StronglySorted (λ a b, index_le h' a b = true) l) as Hs.
  { apply StronglySorted_of_lookup. intros i j a b Hij Hi Hj.
    unfold index_le. rewrite (Hidx i a Hi), (Hidx j b Hj).
    rewrite num_sub_of_Z_le; [done|lia]. }
  by apply index_ascending_sorted.
Qed.

(** ** LocalDataSource *)

Section LocalProperties.
Context `{JsEnv}.

Lemma getFilteredRows_eq tbl st cols w :
  getFilteredRows tbl st cols w =
  (sort_stage (w_heap w) tbl st cols
     (search_stage (w_heap w) tbl st cols
        (filter_stage (w_heap w) tbl st (original w))), w).
Proof. done. Qed.

Lemma filter_stage_sublist h tbl st rs : filter_stage h tbl st rs `sublist_of` rs.
Proof.
  unfold filter_stage. destruct tbl as [t|]; [|done].
  destruct (_ && _); [apply filter_sublist|done].
Qed.

Lemma search_stage_sublist h tbl st cols rs :
  search_stage h tbl st cols rs `sublist_of` rs.
Proof.
  unfold search_stage. destruct (search_applies _ _); [apply filter_sublist|done].
Qed.

(** When two rows tie on every spec the loop of the comparator returns
    nothing positive. *)
Lemma compare_specs_tie h tbl (specs : list sortspec) a b r :
  keys_tie h tbl specs a b = true →
  compare_specs specs (map (sort_key tbl (deref h a)) specs)
                      (map (sort_key tbl (deref h b)) specs) = Some r →
  num_gt0 r = false.
Proof.
  induction specs as [|s specs IH]; simpl; [done|].
  rewrite andb_true_iff. intros [Hs Hrest].
  unfold ties_at in Hs. apply andb_true_iff in Hs as [Hab _].
  destruct (compare_key _ _ _) as [r'|] eqn:Hk.
  - intros [= ->]. simpl in Hab. apply andb_true_iff in Hab as [Hgt _].
    by apply negb_true_iff in Hgt.
  - by apply IH.
Qed.

Lemma keys_tie_sym h tbl specs a b :
  keys_tie h tbl specs a b = keys_tie h tbl specs b a.
Proof.
  unfold keys_tie. induction specs as [|s specs IH]; simpl; [done|].
  rewrite IH. f_equal. unfold ties_at. apply andb_comm.
Qed.

(** The ordered pairs of the sorted rows: rows that tie on every spec
    stand as they stood in the input, in ascending index order. *)
Lemma sort_stage_pairs h tbl st cols rs :
  StronglySorted (λ a b, index_le h a b = true) rs →
  StronglySorted
    (λ a b, keys_tie h tbl (sortSpecs st cols) a b = true →
            index_le h a b = true ∧ [a; b] `sublist_of` rs)
    (sort_stage h tbl st cols rs).
Proof.
  intros Hrs. apply StronglySorted_positions in Hrs.
  unfold sort_stage. destruct (sortSpecs st cols) as [|s0 specs0] eqn:Hspecs.
  { eapply StronglySorted_impl; [|exact Hrs]. by intros a b ? _. }
  remember (s0 :: specs0) as specs eqn:Hcons. clear Hcons Hspecs.
  set (mk := make_keyed h tbl specs).
  apply (StronglySorted_fmap krow).
  eapply (js_sort_pairs _
    (λ x y, (x = mk (krow x) ∧ y = mk (krow y))
            ∧ index_le h (krow x) (krow y) = true
            ∧ [krow x; krow y] `sublist_of` rs)).
  - apply StronglySorted_fmap.
    eapply StronglySorted_impl; [|exact Hrs]. by intros a b [? ?].
  - by intros x y (_ & ? & ?) _.
  - intros x y ([Hx Hy] & Hle & _) Hgt Htie. exfalso.
    rewrite keys_tie_sym in Htie.
    destruct x as [rx kx], y as [ry ky]. simpl in *.
    injection Hx as ->. injection Hy as ->.
    unfold comparator in Hgt. simpl in Hgt.
    destruct (compare_specs _ _ _) as [r|] eqn:Hc.
    + apply (compare_specs_tie _ _ _ _ _ _ Htie) in Hc. congruence.
    + unfold index_le in Hle. apply negb_true_iff in Hle. congruence.
Qed.

Lemma sort_stage_length h tbl st cols rs :
  length (sort_stage h tbl st cols rs) = length rs.
Proof.
  unfold sort_stage. destruct (sortSpecs st cols); [done|].
  by rewrite length_map, js_sort_length, length_map.
Qed.

(** Every conforming engine returns the rows of [getFilteredRows] when the
    comparator is consistent on the rows to sort. *)
Lemma getFilteredRows_with_conforming sort tbl st cols w :
  let h := w_heap w in
  let specs := sortSpecs st cols in
  let rs := search_stage h tbl st cols (filter_stage h tbl st (original w)) in
  conforming_sort sort →
  consistent_on (comparator h specs) (make_keyed h tbl specs <$> rs) →
  getFilteredRows_with sort tbl st cols w = getFilteredRows tbl st cols w.
Proof.
  intros h specs rs Hsort Hcons. rewrite getFilteredRows_eq.
  unfold getFilteredRows_with, mbind, state_bind, gets, mret, state_ret.
  cbn [fst snd]. fold h rs. f_equal.
  unfold sort_stage_with, sort_stage. fold specs.
  destruct specs as [|s0 specs0] eqn:Hspecs; [done|].
  rewrite <-Hspecs in *. f_equal.
  by apply (proj2 (Hsort _ _)).
Qed.

(** Where the comparator is consistent on the rows to sort, the Local sort
    is stable and multi-key on every conforming engine: in its output, two
    rows whose sort keys compare equal under every active sort spec stand in
    ascending order of their original-order index, and in the relative order
    they have in the backing array.  The backing array is one whose indices
    ascend along it, which is what [setData] leaves when it observes its
    rows for the first time ([setData_fresh]). *)
Lemma local_sort_stable sort tbl st cols w i j a b :
  let h := w_heap w in
  let specs := sortSpecs st cols in
  let rs := search_stage h tbl st cols (filter_stage h tbl st (original w)) in
  conforming_sort sort →
  consistent_on (comparator h specs) (make_keyed h tbl specs <$> rs) →
  index_ascending h (original w) = true →
  (i < j)%nat →
  (getFilteredRows_with sort tbl st cols w).1 !! i = Some a →
  (getFilteredRows_with sort tbl st cols w).1 !! j = Some b →
  keys_tie h tbl specs a b = true →
  index_le h a b = true ∧ [a; b] `sublist_of` original w.
Proof.
  intros h specs rs Hsort Hcons.
  rewrite (getFilteredRows_with_conforming sort tbl st cols w Hsort Hcons).
  rewrite getFilteredRows_eq. simpl. intros Hasc Hij Hi Hj Htie.
  fold h rs in Hi, Hj.
  assert (rs `sublist_of` original w) as Hsub.
  { etrans; [apply search_stage_sublist|apply filter_stage_sublist]. }
  apply index_ascending_sorted in Hasc.
  pose proof (sort_stage_pairs h tbl st cols rs
                (StronglySorted_sublist _ _ _ Hsub Hasc)) as Hout.
  destruct (StronglySorted_lookup _ _ _ _ _ _ Hout Hij Hi Hj Htie) as [Hle Hab].
  split; [done|]. by etrans.
Qed.

(** C3. The total returned by [load] is the number of rows left by the
    filters and the search, before the slice, and does not depend on the
    page number or the page size. *)
Theorem load_total tbl st cols w :
  total (load tbl st cols w).1
  = Z.of_nat (length (search_stage (w_heap w) tbl st cols
                        (filter_stage (w_heap w) tbl st (original w))))
  ∧ ∀ p n, total (load tbl (set_pageSize n (set_page p st)) cols w).1
           = total (load tbl st cols w).1.
Proof.
  split.
  - unfold load. simpl. by rewrite sort_stage_length.
  - intros p n. reflexivity.
Qed.

(** C9. Two calls of [load] in succession with the same query state
    return the same rows in the same order and the same total; the calls
    leave the source as it was. *)
Theorem load_idempotent tbl st cols w :
  let '(r1, w1) := load tbl st cols w in
  let '(r2, w2) := load tbl st cols w1 in
  r1 = r2 ∧ w1 = w ∧ w2 = w.
Proof. unfold load. simpl. done. Qed.

Lemma search_applies_false st cols :
  searchText st = "" ∨ trim (searchText st) = ""
  ∨ Forall (λ c, searchable c = false) cols →
  search_applies st (List.filter searchable cols) = false.
Proof.
  unfold search_applies. intros [->|[->|Hcols]]; simpl.
  - done.
  - by rewrite andb_false_r.
  - assert (List.filter searchable cols = []) as ->; [|by rewrite andb_false_r].
    induction Hcols as [|c l Hc Hl IH]; simpl; [done|]. by rewrite Hc.
Qed.

(** C10. The search step is skipped when the search text is empty or
    blank, and when no column is searchable: the rows are the filtered,
    sorted rows, all of them, and [load] answers as it does for the empty
    search text. *)
Theorem search_skipped tbl st cols w :
  searchText st = "" ∨ trim (searchText st) = ""
  ∨ Forall (λ c, searchable c = false) cols →
  (getFilteredRows tbl st cols w).1
  = sort_stage (w_heap w) tbl st cols
      (filter_stage (w_heap w) tbl st (original w))
  ∧ (load tbl st cols w).1 = (load tbl (set_searchText "" st) cols w).1.
Proof.
  intros Hskip. apply search_applies_false in Hskip.
  assert (∀ rs, search_stage (w_heap w) tbl st cols rs = rs) as Hst.
  { intros rs. unfold search_stage. by rewrite Hskip. }
  split.
  - rewrite getFilteredRows_eq. simpl. by rewrite Hst.
  - unfold load. simpl. rewrite Hst. reflexivity.
Qed.

Lemma compare_key_null_l d k :
  is_null_key k = false → compare_key d KNull k = Some (num_of_Z 1).
Proof. by destruct k. Qed.

Lemma compare_key_null_r d k :
  is_null_key k = false → compare_key d k KNull = Some (num_of_Z (-1)).
Proof. by destruct k. Qed.

Lemma compare_specs_app h tbl (before rest : list sortspec) a b :
  goes_on h tbl before a b = true →
  compare_specs (before ++ rest)
    (map (sort_key tbl (deref h a)) (before ++ rest))
    (map (sort_key tbl (deref h b)) (before ++ rest))
  = compare_specs rest (map (sort_key tbl (deref h a)) rest)
                       (map (sort_key tbl (deref h b)) rest)
  ∧ compare_specs (before ++ rest)
      (map (sort_key tbl (deref h b)) (before ++ rest))
      (map (sort_key tbl (deref h a)) (before ++ rest))
    = compare_specs rest (map (sort_key tbl (deref h b)) rest)
                         (map (sort_key tbl (deref h a)) rest).
Proof.
  induction before as [|s before IH]; simpl; [done|].
  rewrite !andb_true_iff, !bool_decide_eq_true.
  intros [[-> ->] Hrest]. by apply IH.
Qed.

(** C6. In the Local multi-key sort, for every active sort spec, a row
    whose sort value for that spec is null or missing compares after a row
    whose value is not, whatever the direction of the spec: the comparison
    on that spec returns 1, and -1 for the swapped pair, without applying
    the direction multiplier; this is what the comparator returns when its
    loop arrives at that spec; and for the first spec it orders the whole
    output: no row with a null value stands before a row with a value. *)
Theorem nulls_sort_last tbl st cols w before s after a b :
  let h := w_heap w in
  let specs := sortSpecs st cols in
  let mk := make_keyed h tbl specs in
  let ka := sort_key tbl (deref h a) s in
  let kb := sort_key tbl (deref h b) s in
  specs = before ++ s :: after →
  is_null_key ka = true →
  is_null_key kb = false →
  (compare_key (dir s) ka kb = Some (num_of_Z 1)
   ∧ compare_key (dir s) kb ka = Some (num_of_Z (-1)))
  ∧ (goes_on h tbl before a b = true →
     comparator h specs (mk a) (mk b) = num_of_Z 1
     ∧ comparator h specs (mk b) (mk a) = num_of_Z (-1))
  ∧ (before = [] →
     ∀ i j, (getFilteredRows tbl st cols w).1 !! i = Some a →
            (getFilteredRows tbl st cols w).1 !! j = Some b →
            (j < i)%nat).
Proof.
  intros h specs mk ka kb Hspecs Ha Hb. subst specs mk ka kb.
  assert (∀ x y, is_null_key (sort_key tbl (deref h x) s) = true →
                 is_null_key (sort_key tbl (deref h y) s) = false →
                 goes_on h tbl before x y = true →
                 comparator h (before ++ s :: after)
                   (make_keyed h tbl (before ++ s :: after) x)
                   (make_keyed h tbl (before ++ s :: after) y) = num_of_Z 1
                 ∧ comparator h (before ++ s :: after)
                     (make_keyed h tbl (before ++ s :: after) y)
                     (make_keyed h tbl (before ++ s :: after) x)
                   = num_of_Z (-1)) as Hcmp.
  { intros x y Hx Hy Hxy. unfold comparator. simpl.
    destruct (compare_specs_app h tbl before (s :: after) x y Hxy) as [-> ->].
    simpl. destruct (sort_key tbl (deref h x) s); try done.
    by rewrite (compare_key_null_l _ _ Hy), (compare_key_null_r _ _ Hy). }
  rewrite Hspecs. split; [|split].
  - destruct (sort_key tbl (deref h a) s); try done.
    by rewrite (compare_key_null_l _ _ Hb), (compare_key_null_r _ _ Hb).
  - intros Hon. by apply Hcmp.
  - intros -> i j Hi Hj. simpl in Hspecs, Hcmp.
    rewrite getFilteredRows_eq in Hi, Hj. simpl in Hi, Hj. fold h in Hi, Hj.
    set (rs := search_stage h tbl st cols (filter_stage h tbl st (original w))) in *.
    unfold sort_stage in Hi, Hj. rewrite Hspecs in Hi, Hj.
    set (p := λ r, is_null_key (sort_key tbl (deref h r) s)).
    assert (StronglySorted (λ x y, p x = true → p y = true)
              (krow <$> js_sort (comparator h (s :: after))
                          (make_keyed h tbl (s :: after) <$> rs))) as Hsorted.
    { apply (StronglySorted_fmap krow).
      apply (js_sort_partition _
               (λ x, x = make_keyed h tbl (s :: after) (krow x))
               (λ x, p (krow x))).
      - apply Forall_fmap, Forall_forall. by intros r _.
      - intros x y -> -> Hx Hy. simpl in *.
        destruct (Hcmp (krow x) (krow y)) as [-> _]; done.
      - intros x y -> -> Hx Hy. simpl in *.
        destruct (Hcmp (krow y) (krow x)) as [_ ->]; done. }
    destruct (decide (j < i)%nat) as [|Hji]; [done|]. exfalso.
    destruct (decide (i = j)) as [->|Hne].
    + rewrite Hi in Hj. injection Hj as ->. congruence.
    + assert (i < j)%nat as Hij by lia.
      pose proof (StronglySorted_lookup _ _ _ _ _ _ Hsorted Hij Hi Hj Ha).
      unfold p in *. congruence.
Qed.

Lemma compare_specs_goes_on h tbl (specs : list sortspec) a b :
  goes_on h tbl specs a b = true →
  compare_specs specs (map (sort_key tbl (deref h a)) specs)
                      (map (sort_key tbl (deref h b)) specs) = None.
Proof.
  intros Hon.
  destruct (compare_specs_app h tbl specs [] a b Hon) as [Hab _].
  by rewrite app_nil_r in Hab.
Qed.

(** Rows observed before, in whatever order they stand in the backing
    array now: when at least one sort spec is active and the comparator is
    consistent on the rows, two rows on which the comparator goes past
    every spec come out in ascending order of the index they were given
    when first observed. *)
Lemma local_sort_by_first_index tbl st cols w i j a b :
  let h := w_heap w in
  let specs := sortSpecs st cols in
  let rs := search_stage h tbl st cols (filter_stage h tbl st (original w)) in
  specs ≠ [] →
  consistent_on (comparator h specs) (make_keyed h tbl specs <$> rs) →
  (i < j)%nat →
  (getFilteredRows tbl st cols w).1 !! i = Some a →
  (getFilteredRows tbl st cols w).1 !! j = Some b →
  goes_on h tbl specs a b = true →
  index_le h a b = true.
Proof.
  intros h specs rs Hne Hcons Hij Hi Hj Hon.
  rewrite getFilteredRows_eq in Hi, Hj. simpl in Hi, Hj.
  fold h rs in Hi, Hj. unfold sort_stage in Hi, Hj. fold specs in Hi, Hj.
  destruct specs as [|s0 specs0] eqn:Hspecs; [done|].
  rewrite <-Hspecs in *. clear Hspecs Hne.
  pose proof (js_sort_sorted _ _ Hcons) as Hsorted.
  rewrite list_lookup_fmap in Hi, Hj.
  destruct (js_sort _ _ !! i) as [x|] eqn:Hx; [|done].
  destruct (js_sort _ _ !! j) as [y|] eqn:Hy; [|done].
  simpl in Hi, Hj. injection Hi as <-. injection Hj as <-.
  destruct (StronglySorted_lookup _ _ _ _ _ _ Hsorted Hij Hx Hy) as [[Hxl Hyl] Hle].
  apply list_elem_of_fmap in Hxl as [rx [-> _]].
  apply list_elem_of_fmap in Hyl as [ry [-> _]].
  simpl in *. unfold comparator in Hle. simpl in Hle.
  rewrite (compare_specs_goes_on _ _ _ _ _ Hon) in Hle.
  unfold index_le. by rewrite Hle.
Qed.

End LocalProperties.

(** C1. The Local sort does not keep rows of equal sort keys in the order
    of their original-order index when a sorted column holds numbers and
    other strings.  On the rows aged "9", "1x", "10" and "9", observed in
    this order and sorted by age, the first and the last row have equal
    sort keys.  The comparator puts 9 after "1x" and "1x" after 10 as
    strings, and 10 after 9 as numbers: it turns in a circle, is not
    consistent, and the order of the result is left to the engine.  On an
    engine that conforms and reverses a descending run the rows come out
    in the order 3, 2, 1, 0, the two rows of equal age in descending order
    of their index: the stability that the specification states, and
    that the code means to give, fails.  The insertion sort returns them
    in the order 1, 0, 3, 2. *)
Theorem local_sort_mixed_column :
  let st := set_sortOrders Sample.by_age Example.st0 in
  let tbl := Some Example.tbl in
  let w := Sample.w_mixed in
  let h := w_heap w in
  let specs := @sortSpecs AsciiEnv.env st Example.cols in
  let mk := @make_keyed AsciiEnv.env h tbl specs in
  let cmp := @comparator AsciiEnv.env h specs in
  let out :=
    (@getFilteredRows_with AsciiEnv.env run_sort tbl st Example.cols w).1 in
  original w = [0; 1; 2; 3]%nat
  ∧ (∀ i r, original w !! i = Some r →
            dt_index (deref h r) = num_of_Z (Z.of_nat i))
  ∧ @keys_tie AsciiEnv.env h tbl specs 0%nat 3%nat = true
  ∧ (num_gt0 (cmp (mk 0%nat) (mk 1%nat)) = true
     ∧ num_gt0 (cmp (mk 1%nat) (mk 2%nat)) = true
     ∧ num_gt0 (cmp (mk 2%nat) (mk 0%nat)) = true)
  ∧ ¬ consistent_on cmp (mk <$> original w)
  ∧ conforming_sort (@run_sort keyed)
  ∧ out = [3; 2; 1; 0]%nat
  ∧ index_le h 3%nat 0%nat = false
  ∧ ¬ (∀ i j a b, (i < j)%nat →
         out !! i = Some a → out !! j = Some b →
         @keys_tie AsciiEnv.env h tbl specs a b = true →
         index_le h a b = true)
  ∧ (@getFilteredRows AsciiEnv.env tbl st Example.cols w).1
    = [1; 0; 3; 2]%nat.
Proof.
  intros st tbl w h specs mk cmp out.
  assert (original w = [0; 1; 2; 3]%nat) as Horig by reflexivity.
  assert (num_gt0 (cmp (mk 0%nat) (mk 1%nat)) = true) as H01
    by (vm_compute; reflexivity).
  assert (num_gt0 (cmp (mk 1%nat) (mk 2%nat)) = true) as H12
    by (vm_compute; reflexivity).
  assert (num_gt0 (cmp (mk 2%nat) (mk 0%nat)) = true) as H20
    by (vm_compute; reflexivity).
  assert (out = [3; 2; 1; 0]%nat) as Hout by (vm_compute; reflexivity).
  assert (@keys_tie AsciiEnv.env h tbl specs 3%nat 0%nat = true) as Htie
    by (vm_compute; reflexivity).
  assert (index_le h 3%nat 0%nat = false) as Hidx by (vm_compute; reflexivity).
  split; [exact Horig|]. split.
  { intros i r Hi. rewrite Horig in Hi.
    destruct i as [|[|[|[|i]]]]; cbn in Hi; [| | | |discriminate];
      injection Hi as <-; vm_compute; reflexivity. }
  split; [vm_compute; reflexivity|].
  split; [split; [exact H01|split; [exact H12|exact H20]]|]. split.
  { assert (∀ r, r ∈ [0; 1; 2; 3]%nat → mk r ∈ mk <$> original w) as Hin.
    { intros r Hr. rewrite Horig. apply list_elem_of_fmap.
      exists r. split; [reflexivity|exact Hr]. }
    apply (cycle_inconsistent cmp _ (mk 0%nat) (mk 1%nat) (mk 2%nat));
      [apply Hin; repeat constructor..|exact H01|exact H12|exact H20]. }
  split; [apply run_sort_conforming|].
  split; [exact Hout|]. split; [exact Hidx|]. split.
  - intros Hstable.
    assert (index_le h 3%nat 0%nat = true); [|congruence].
    apply (Hstable 0%nat 3%nat); [lia|rewrite Hout; reflexivity..|exact Htie].
  - vm_compute. reflexivity.
Qed.

(** ** The scenarios of the specification, run on the model *)

Example scenario_sort_by_age_then_name :
  (@load AsciiEnv.env (Some Example.tbl)
     (set_sortOrders Example.by_age_name Example.st0) Example.cols Example.w1).1
  = {| rows := [1; 2; 0]%nat; total := 3 |}.
Proof. vm_compute. reflexivity. Qed.

Example scenario_search_an :
  (@load AsciiEnv.env (Some Example.tbl)
     (set_searchText "an" Example.st0) Example.cols Example.w1).1
  = {| rows := [1%nat]; total := 1 |}.
Proof. vm_compute. reflexivity. Qed.

Example scenario_page_beyond_last :
  (@load AsciiEnv.env (Some Example.tbl)
     {| page := 7; pageSize := 2; pagingEnabled := true; searchText := "";
        sortOrders := []; totalRows := 0; filters := ∅ |}
     Example.cols Example.w1).1
  = {| rows := []; total := 3 |}.
Proof. vm_compute. reflexivity. Qed.

Example scenario_nulls_last_both_directions :
  (@load AsciiEnv.env (Some Example.tbl)
     (set_sortOrders Example.by_age_desc Example.st0) Example.cols Example.w4).1
  = {| rows := [0; 1; 2; 3]%nat; total := 4 |}
  ∧ (@load AsciiEnv.env (Some Example.tbl)
       (set_sortOrders [ {| okey := "age"; odir := "asc" |} ] Example.st0)
       Example.cols Example.w4).1
    = {| rows := [1; 2; 0; 3]%nat; total := 4 |}.
Proof. vm_compute. split; reflexivity. Qed.

Lemma search_skipped_witness :
  let st := set_searchText "   " Example.st0 in
  @trim AsciiEnv.env (searchText st) = ""
  ∧ (@getFilteredRows AsciiEnv.env (Some Example.tbl) st Example.cols Example.w1).1
    = @sort_stage AsciiEnv.env (w_heap Example.w1) (Some Example.tbl) st Example.cols
        (@filter_stage AsciiEnv.env (w_heap Example.w1) (Some Example.tbl) st
           (original Example.w1))
  ∧ (@load AsciiEnv.env (Some Example.tbl) st Example.cols Example.w1).1
    = (@load AsciiEnv.env (Some Example.tbl) (set_searchText "" st)
         Example.cols Example.w1).1.
Proof.
  intros st.
  assert (@trim AsciiEnv.env (searchText st) = "") as H1 by reflexivity.
  split; [exact H1|].
  apply (@search_skipped AsciiEnv.env (Some Example.tbl) st Example.cols Example.w1).
  right. left. exact H1.
Defined.

Lemma nulls_sort_last_witness :
  let st := set_sortOrders Example.by_age_desc Example.st0 in
  let s := {| col := Example.plain "age"; dir := -1 |} in
  let h := w_heap Example.w4 in
  let specs := @sortSpecs AsciiEnv.env st Example.cols in
  let mk := @make_keyed AsciiEnv.env h (Some Example.tbl) specs in
  let out := (@getFilteredRows AsciiEnv.env (Some Example.tbl) st Example.cols
                Example.w4).1 in
  specs = [] ++ s :: []
  ∧ is_null_key (@sort_key AsciiEnv.env (Some Example.tbl) (deref h 3%nat) s) = true
  ∧ is_null_key (@sort_key AsciiEnv.env (Some Example.tbl) (deref h 0%nat) s) = false
  ∧ @comparator AsciiEnv.env h specs (mk 3%nat) (mk 0%nat) = num_of_Z 1
  ∧ @comparator AsciiEnv.env h specs (mk 0%nat) (mk 3%nat) = num_of_Z (-1)
  ∧ (∀ i j, out !! i = Some 3%nat → out !! j = Some 0%nat → (j < i)%nat).
Proof.
  intros st s h specs mk out.
  assert (specs = [] ++ s :: []) as H1 by (vm_compute; reflexivity).
  assert (is_null_key (@sort_key AsciiEnv.env (Some Example.tbl)
            (deref h 3%nat) s) = true) as H2 by (vm_compute; reflexivity).
  assert (is_null_key (@sort_key AsciiEnv.env (Some Example.tbl)
            (deref h 0%nat) s) = false) as H3 by (vm_compute; reflexivity).
  repeat (split; [assumption|]).
  destruct (@nulls_sort_last AsciiEnv.env (Some Example.tbl) st Example.cols
              Example.w4 [] s [] 3%nat 0%nat H1 H2 H3) as (_ & Hcmp & Hout).
  destruct (Hcmp eq_refl) as [Hab Hba].
  split; [exact Hab|]. split; [exact Hba|]. exact (Hout eq_refl).
Defined.

(** ** The page number *)

Section PagingProperties.
Context `{JsEnv}.

Lemma page_in_range_one (st : QueryState) : page st = 1 → page_in_range st.
Proof. unfold page_in_range. intros ->. lia. Qed.

(** C7 (as amended). After a mutation of the query state by [goToPage],
    [search], [sortBy], a filter change or a page-size change, the page
    number is at least 1 and at most [max(1, ceil(total / pageSize))],
    where [total] is the total of the last load and the page size is
    positive. *)
Theorem page_in_range_after_mutation paging_enabled cols m st st' :
  mutate paging_enabled cols m st = Some st' →
  0 < pageSize st' →
  page_in_range st'.
Proof.
  intros Hm _. destruct m as [p|text|k append|k checked|k v|n]; simpl in Hm.
  - unfold goToPage in Hm. destruct paging_enabled; simpl in Hm; [|done].
    destruct (_ =? _) eqn:Heq; [done|]. injection Hm as <-.
    unfold page_in_range. simpl. lia.
  - injection Hm as <-. by apply page_in_range_one.
  - unfold sortBy in Hm.
    destruct (List.find _ cols) as [c|]; [|done].
    destruct (sortable c); simpl in Hm; [|done].
    injection Hm as <-. by apply page_in_range_one.
  - injection Hm as <-. by apply page_in_range_one.
  - injection Hm as <-. by apply page_in_range_one.
  - unfold pageSizeChange in Hm. destruct (_ =? _); [done|].
    injection Hm as <-. by apply page_in_range_one.
Qed.

End PagingProperties.

(** The bound without the [max]: a search on a table whose last load
    returned no row leaves the page at 1, above [ceil(0 / pageSize) = 0]. *)
Lemma page_bound_counterexample :
  let st := Example.st0 in
  totalRows st = 0 ∧ pageSize st = 10 ∧
  ∃ st', @mutate AsciiEnv.env true Example.cols (Search "zzz") st = Some st'
         ∧ ¬ (1 ≤ page st' ∧ page st' ≤ ceil_div (totalRows st') (pageSize st')).
Proof.
  simpl. split; [done|]. split; [done|].
  eexists. split; [reflexivity|]. vm_compute. intros [_ Hle]. by apply Hle.
Qed.

Lemma page_in_range_after_mutation_witness :
  let st := set_totalRows 35 Example.st0 in
  let st' := set_page 4 st in
  @mutate AsciiEnv.env true Example.cols (GoToPage 9) st = Some st'
  ∧ 0 < pageSize st'
  ∧ page_in_range st'.
Proof.
  intros st st'.
  assert (@mutate AsciiEnv.env true Example.cols (GoToPage 9) st = Some st')
    as H1 by reflexivity.
  assert (0 < pageSize st') as H2 by (simpl; lia).
  split; [exact H1|]. split; [exact H2|].
  exact (@page_in_range_after_mutation AsciiEnv.env true Example.cols
           (GoToPage 9) st st' H1 H2).
Defined.

(** ** The catch handler of [draw()] *)

(** C8. When the load of a draw fails, an [AbortError] is swallowed: the
    handler does nothing and the promise of [draw()] is fulfilled.  Every
    other error is reported and thrown again: the [onError] hook is called
    when there is one, exactly one error event is emitted, which is
    [error:unauthorized] for the status 401 and [error:server] for the
    status 500 and neither of them for any other error, and the promise of
    [draw()] is rejected with the same error.  The handler starts no draw:
    the failed draw is not retried. *)
Theorem draw_error_handling cfg err id s :
  let effs := (on_error cfg err).1 in
  let s' := settle id (on_error cfg err).2 effs s in
  (if is_abort err then
     effs = [] ∧ (on_error cfg err).2 = Swallowed
   else
     (on_error cfg err).2 = Rethrown err
     ∧ (onError cfg = true → OnErrorHook err ∈ effs)
     ∧ ∃ ev, emitted_events effs = [ev]
         ∧ Emit ev (PError err (error_status err)) ∈ effs
         ∧ (ev = "error:unauthorized" ↔ status_is (error_status err) 401 = true)
         ∧ (ev = "error:server" ↔
              status_is (error_status err) 401 = false
              ∧ status_is (error_status err) 500 = true))
  ∧ drawSeq s' = drawSeq s ∧ pending s' = pending s ∖ {[id]}
  ∧ tbody s' = tbody s ∧ state s' = state s
  ∧ history s' = history s ++ [(id, (on_error cfg err).2)].
Proof.
  simpl. split; [|done]. unfold on_error.
  destruct (is_abort err); simpl; [done|].
  split; [done|]. split.
  - intros ->. set_solver.
  - exists (error_event (error_status err)). split; [|split].
    + unfold emitted_events. rewrite omap_app. simpl.
      destruct (onError cfg); [done|].
      destruct (negb _); [|done]. simpl.
      destruct err as [e|]; [|done]. by destruct (truthy _).
    + set_solver.
    + unfold error_event.
      destruct (status_is (error_status err) 401);
        destruct (status_is (error_status err) 500);
        destruct (is_number (error_status err)); split; split; try done;
        intros [? ?]; done.
Qed.

(** ** Stale draws *)

Lemma exec_run cfg evs s s' : exec cfg s evs = Some s' → run cfg s evs s'.
Proof.
  revert s. induction evs as [|ev evs IH]; intros s Hex; simpl in Hex.
  - injection Hex as ->. constructor.
  - destruct (exec_event cfg s ev) as [s1|] eqn:Hev; [|done].
    apply run_cons with s1; [|by apply IH].
    destruct ev as [|id res|id err]; simpl in Hev.
    + injection Hev as <-. constructor.
    + destruct (decide (id ∈ pending s)); [|done]. injection Hev as <-.
      by constructor.
    + destruct (decide (id ∈ pending s)); [|done]. injection Hev as <-.
      by constructor.
Qed.

Lemma draw_invariant_new st : draw_invariant (new_table st).
Proof. split; simpl; set_solver. Qed.

Lemma onLoad_stale cfg id res s :
  isAjax cfg = true → id ≠ drawSeq s → onLoad cfg id res s = s.
Proof.
  intros Hajax Hne. unfold onLoad. rewrite Hajax. simpl.
  by apply Nat.eqb_neq in Hne as ->.
Qed.

Lemma onLoad_current cfg res s :
  let s' := onLoad cfg (drawSeq s) res s in
  tbody s' = result_rows res ∧ _lastPageRows s' = result_rows res
  ∧ totalRows (state s') = result_total res
  ∧ drawSeq s' = drawSeq s ∧ pending s' = pending s ∧ history s' = history s.
Proof.
  simpl. unfold onLoad. rewrite Nat.eqb_refl, andb_false_r. done.
Qed.

Lemma step_invariant cfg s ev s' :
  isAjax cfg = true → draw_invariant s → step cfg s ev s' → draw_invariant s'.
Proof.
  intros Hajax [Hp Hh Hl] Hstep.
  destruct Hstep as [s|s id res Hid|s id err Hid].
  - split; simpl.
    + intros id [->%elem_of_singleton|Hid]%elem_of_union; [lia|].
      apply Hp in Hid. lia.
    + intros id o Hin. destruct (Hh _ _ Hin) as [Hle Hnp]. split; [lia|].
      intros [->%elem_of_singleton|Hid]%elem_of_union; [lia|done].
    + intros res Hin. apply Hh in Hin as [Hle _]. lia.
  - destruct (decide (id = drawSeq s)) as [->|Hne].
    + destruct (onLoad_current cfg res s) as (Hb & Hr & Ht & Hseq & Hpend & Hhist).
      split; simpl; rewrite ?Hseq, ?Hpend, ?Hhist.
      * intros id [Hin _]%elem_of_difference. by apply Hp.
      * intros id o [Hin|Hin]%elem_of_app.
        -- destruct (Hh _ _ Hin) as [Hle Hnp]. split; [done|]. set_solver.
        -- apply list_elem_of_singleton in Hin as [= -> ->].
           split; [done|]. set_solver.
      * intros res' [Hin|Hin]%elem_of_app.
        -- apply Hh in Hin as [_ Hnp]. done.
        -- apply list_elem_of_singleton in Hin as [= <-]. done.
    + rewrite onLoad_stale by done.
      split; simpl.
      * intros id' [Hin _]%elem_of_difference. by apply Hp.
      * intros id' o [Hin|Hin]%elem_of_app.
        -- destruct (Hh _ _ Hin) as [Hle Hnp]. split; [done|]. set_solver.
        -- apply list_elem_of_singleton in Hin as [= -> ->].
           split; [by apply Hp|]. set_solver.
      * intros res' [Hin|Hin]%elem_of_app; [by apply Hl|].
        apply list_elem_of_singleton in Hin as [= ? ?]. congruence.
  - split; simpl.
    + intros id' [Hin _]%elem_of_difference. by apply Hp.
    + intros id' o [Hin|Hin]%elem_of_app.
      * destruct (Hh _ _ Hin) as [Hle Hnp]. split; [done|]. set_solver.
      * apply list_elem_of_singleton in Hin as [= -> ->].
        split; [by apply Hp|]. set_solver.
    + intros res' [Hin|Hin]%elem_of_app; [by apply Hl|].
      apply list_elem_of_singleton in Hin as [= ? Hout].
      unfold on_error in Hout. by destruct (is_abort err).
Qed.

Lemma run_invariant cfg s evs s' :
  isAjax cfg = true → draw_invariant s → run cfg s evs s' → draw_invariant s'.
Proof.
  intros Hajax Hs Hrun. induction Hrun as [s|s ev s1 evs s2 Hstep Hrun IH]; [done|].
  apply IH. by eapply step_invariant.
Qed.

(** C2. On an Ajax table, whatever draws were started and however their
    loads settled: when the load of a draw resolves after a newer draw has
    been started, its result is discarded, nothing is rendered, stored or
    emitted; and once the load of the most recently started draw has
    resolved, the body and [state.totalRows] are those of its result. *)
Theorem stale_draw_discarded cfg st evs s :
  isAjax cfg = true →
  run cfg (new_table st) evs s →
  (∀ id res s', step cfg s (LoadResolves id res) s' →
     id ≠ drawSeq s →
     (id < drawSeq s)%nat
     ∧ tbody s' = tbody s ∧ state s' = state s
     ∧ _lastPageRows s' = _lastPageRows s ∧ effects s' = effects s)
  ∧ (∀ res, (drawSeq s, LoadResolved res) ∈ history s →
       tbody s = result_rows res
       ∧ totalRows (state s) = result_total res).
Proof.
  intros Hajax Hrun.
  pose proof (run_invariant _ _ _ _ Hajax (draw_invariant_new st) Hrun) as [Hp Hh Hl].
  split.
  - intros id res s' Hstep Hne. inversion Hstep as [|s0 id0 res0 Hid|]; subst.
    rewrite onLoad_stale by done. simpl.
    split; [apply Hp in Hid; lia|]. by rewrite app_nil_r.
  - intros res Hin. by destruct (Hl res Hin) as (? & _ & ?).
Qed.

(** The scenario of the specification: two draws are started, the second
    resolves and is rendered, then the first resolves. *)
Lemma stale_draw_discarded_witness :
  let cfg := {| isAjax := true; onError := false |} in
  let r1 := Some {| r_rows := VArr [0%nat]; r_total := Some 1 |} in
  let r2 := Some {| r_rows := VArr [1; 2]%nat; r_total := Some 2 |} in
  let evs := [Draw; Draw; LoadResolves 2 r2] in
  ∃ s, run cfg (new_table Example.st0) evs s
       ∧ (2%nat, LoadResolved r2) ∈ history s
       ∧ tbody s = [1; 2]%nat ∧ totalRows (state s) = 2
       ∧ ∃ s', step cfg s (LoadResolves 1 r1) s'
               ∧ tbody s' = [1; 2]%nat ∧ totalRows (state s') = 2.
Proof.
  intros cfg r1 r2 evs.
  destruct (exec cfg (new_table Example.st0) evs) as [s|] eqn:Hex; [|by vm_compute in Hex].
  assert (run cfg (new_table Example.st0) evs s) as Hrun by by apply exec_run.
  assert (drawSeq s = 2%nat ∧ (2%nat, LoadResolved r2) ∈ history s
          ∧ 1%nat ∈ pending s) as (Hseq & Hhist & Hpend).
  { vm_compute in Hex. injection Hex as <-. simpl.
    split; [done|]. split; [set_solver|]. by vm_compute. }
  destruct (stale_draw_discarded cfg Example.st0 evs s eq_refl Hrun) as [Hstale Hlatest].
  rewrite Hseq in Hlatest. destruct (Hlatest r2 Hhist) as [Hbody Htotal].
  exists s. split; [done|]. split; [done|]. split; [done|]. split; [done|].
  eexists. split; [by apply step_resolves|].
  edestruct Hstale as (_ & Hb & Hs & _); [by apply step_resolves|lia|].
  rewrite Hb, Hs. done.
Defined.

(** ** AjaxLoadOnceDataSource *)

Section LoadOnceProperties.
Context `{JsEnv}.

Lemma load_reads_only tbl st cols w : (load tbl st cols w).2 = w.
Proof. done. Qed.

Lemma loadOnce_loaded tbl st cols w :
  loaded w = true →
  loadOnce tbl st cols w = (Resolved (load tbl st cols w).1, w).
Proof. intros Hl. unfold loadOnce, mbind, state_bind, gets. by rewrite Hl. Qed.

Lemma loadOnce_not_loaded tbl st cols w :
  loaded w = false →
  loadOnce tbl st cols w = (Awaiting, send PageRequest w).
Proof. intros Hl. unfold loadOnce, mbind, state_bind, gets. by rewrite Hl. Qed.

Lemma loads_loaded tbl cols sts w :
  loaded w = true →
  loads tbl cols sts w = (map (λ st, Resolved (load tbl st cols w).1) sts, w).
Proof.
  intros Hl. induction sts as [|st sts IH]; [done|].
  cbn [loads]. unfold mbind, state_bind.
  rewrite (loadOnce_loaded _ _ _ _ Hl), IH. done.
Qed.

(** When nothing happens between a [load] and the arrival of its
    response.  On a source that has not loaded, [load] sends exactly one
    request and waits.  When the response arrives the value handed to
    [setData] becomes the Local backing store, the source is marked loaded
    and the promise resolves to the Local [load] on it.  Every [load]
    called after that sends no request and is the Local [load], leaving the
    source as it is.  After a [refresh()] made then, the next [load] sends
    a request again. *)
Lemma loadOnce_fetches_once ajax tbl cols st f sts w :
  let w0 := with_loaded false w in
  let w1 := (loadOnce_then ajax tbl st cols f (send PageRequest w0)).2 in
  let w2 := (refresh w1).2 in
  loadOnce tbl st cols w0 = (Awaiting, send PageRequest w0)
  ∧ requests (send PageRequest w0) = requests w ++ [PageRequest]
  ∧ loaded w1 = true
  ∧ original w1 = array_rows (fetched_rows ajax f)
  ∧ requests w1 = requests w ++ [PageRequest]
  ∧ loadOnce_then ajax tbl st cols f (send PageRequest w0) = load tbl st cols w1
  ∧ loads tbl cols sts w1
    = (map (λ st', Resolved (load tbl st' cols w1).1) sts, w1)
  ∧ loaded w2 = false
  ∧ loadOnce tbl st cols w2 = (Awaiting, send PageRequest w2)
  ∧ requests (send PageRequest w2) = requests w ++ [PageRequest; PageRequest].
Proof.
  simpl. repeat split.
  - by apply loads_loaded.
  - by rewrite <-app_assoc.
Qed.

End LoadOnceProperties.

(** C4. The load-once source does not fetch once.  A [load] called
    while the first request is in flight finds the source not loaded and
    sends a second request, where the specification and the comments of
    the code have one request for the first call and none for the calls
    that follow.  A [refresh()] made while the request is in flight is
    undone when the response arrives, the callback marking the source
    loaded whatever has happened since: the next [load] sends nothing,
    where they have it fetch again.  And the answer of
    the [ajax.fetch] hook goes to [setData] as it is: when it is an object
    and not an array, nothing is stored, whereas the same answer to the
    default request stores the rows of its [data]. *)
Theorem loadOnce_in_flight :
  let tbl := Some Example.tbl in
  let call := @loadOnce AsciiEnv.env tbl Example.st0 Example.cols in
  let arrive ajax f :=
    @loadOnce_then AsciiEnv.env ajax tbl Example.st0 Example.cols f in
  let by_url := {| fetchFn := false; transform := None |} in
  let by_hook := {| fetchFn := true; transform := None |} in
  let w0 := new_loadOnce Example.people in
  let first := call w0 in
  let second := call first.2 in
  let refreshed := (refresh first.2).2 in
  let answered := (arrive by_url (JArray [0; 1; 2]%nat) refreshed).2 in
  let third := call answered in
  (first.1 = Awaiting ∧ requests first.2 = [PageRequest])
  ∧ (second.1 = Awaiting ∧ requests second.2 = [PageRequest; PageRequest])
  ∧ (loaded refreshed = false ∧ loaded answered = true
     ∧ third.1 = Resolved {| rows := [0; 1; 2]%nat; total := 3 |}
     ∧ requests third.2 = [PageRequest])
  ∧ (original (arrive by_hook (JObject (VArr [0; 1; 2]%nat)) first.2).2 = []
     ∧ original (arrive by_url (JObject (VArr [0; 1; 2]%nat)) first.2).2
       = [0; 1; 2]%nat).
Proof. vm_compute. repeat split; reflexivity. Qed.

(** ** Lazy child rows *)






Lemma constructor_drops_lazyLoad (o : childRows_options) (ajax : bool) (u : string)
    (rowKey : string) (v : tview) :
  sent (expandChildRows
          {| childRows := constructor_childRows o; ajax_mode := ajax; ajax_url := u |}
          rowKey v).2 = sent v.
Proof.
  unfold expandChildRows. simpl. destruct (_ || _); done.
Qed.


(** * Further properties of the code *)

(** ** Paging of the Local source *)

Lemma js_slice_page {A} (l : list A) (p ps : Z) :
  1 ≤ p → 0 ≤ ps →
  js_slice l ((p - 1) * ps) ((p - 1) * ps + ps)
  = take (Z.to_nat ps) (drop (Z.to_nat ((p - 1) * ps)) l).
Proof.
  intros Hp Hps. unfold js_slice.
  set (len := Z.of_nat (length l)). set (start := (p - 1) * ps).
  assert (0 ≤ start) as Hstart by (subst start; nia).
  destruct (Z.ltb_spec start 0) as [?|_]; [lia|].
  destruct (Z.ltb_spec (start + ps) 0) as [?|_]; [lia|].
  destruct (decide (len ≤ start)) as [Hge|Hlt].
  - rewrite (Z.min_r start) by lia.
    rewrite !drop_ge, !take_nil; [done|subst len; lia..].
  - rewrite (Z.min_l start) by lia.
    destruct (decide (start + ps ≤ len)) as [Hin|Hout].
    + rewrite Z.min_l by lia. do 2 f_equal. lia.
    + rewrite Z.min_r by lia.
      rewrite !take_ge; [done|rewrite length_drop; subst len; lia..].
Qed.

Lemma concat_chunks {A} (l : list A) (k n : nat) :
  (0 < k)%nat → (length l ≤ n * k)%nat →
  concat ((λ i, take k (drop (i * k) l)) <$> seq 0 n) = l.
Proof.
  intros Hk. revert l. induction n as [|n IH]; intros l Hlen.
  - destruct l; [done|simpl in Hlen; lia].
  - rewrite <-cons_seq, <-fmap_S_seq, fmap_cons, <-list_fmap_compose. simpl.
    rewrite drop_0.
    rewrite (list_fmap_ext _ (λ i, take k (drop (i * k) (drop k l)))).
    + rewrite IH; [apply take_drop|]. rewrite length_drop. lia.
    + intros i x _. simpl. by rewrite drop_drop.
Qed.

Lemma ceil_div_covers (a b : Z) : 0 < b → a ≤ ceil_div a b * b.
Proof.
  intros Hb. unfold ceil_div.
  pose proof (Z.mul_div_le (- a) b Hb). nia.
Qed.

Section LocalPaging.
Context `{JsEnv}.

Lemma load_rows_paged tbl st cols w :
  pagingEnabled st = true →
  rows (load tbl st cols w).1
  = js_slice (getFilteredRows tbl st cols w).1
      ((page st - 1) * pageSize st) ((page st - 1) * pageSize st + pageSize st).
Proof. intros Hp. unfold load. simpl. by rewrite Hp. Qed.

(** X1. The pages of a Local table tile the query result: with a positive
    page size, the rows of pages 1, 2, ... up to the last page, one after
    the other, are the filtered, searched and sorted rows, each once and in
    order.  The last page is the one [goToPage] clamps to. *)
Theorem load_pages_cover tbl st cols w :
  pagingEnabled st = true →
  0 < pageSize st →
  let all := (getFilteredRows tbl st cols w).1 in
  let lastPage := Z.max 1 (ceil_div (Z.of_nat (length all)) (pageSize st)) in
  concat ((λ p, rows (load tbl (set_page p st) cols w).1) <$> seqZ 1 lastPage)
  = all.
Proof.
  intros Hpaging Hps all lastPage.
  unfold seqZ. rewrite <-list_fmap_compose.
  rewrite (list_fmap_ext _
    (λ i, take (Z.to_nat (pageSize st)) (drop (i * Z.to_nat (pageSize st)) all))).
  - apply concat_chunks; [lia|].
    pose proof (ceil_div_covers (Z.of_nat (length all)) (pageSize st) Hps).
    subst lastPage. nia.
  - intros i p _. unfold compose. rewrite load_rows_paged by done.
    change (getFilteredRows tbl (set_page (Z.of_nat p + 1) st) cols w).1 with all.
    cbn [page pageSize set_page]. rewrite js_slice_page by lia.
    do 2 f_equal. nia.
Qed.

(** X2. The rows on page [p] of a Local table: a full page while [p] pages
    fit in the result, the remainder on the last page, nothing beyond it;
    the total counts the whole result whatever the page. *)
Theorem load_page_length tbl st cols w :
  pagingEnabled st = true →
  0 < pageSize st →
  1 ≤ page st →
  let n := Z.of_nat (length (getFilteredRows tbl st cols w).1) in
  let r := (load tbl st cols w).1 in
  Z.of_nat (length (rows r))
  = Z.max 0 (Z.min (pageSize st) (n - (page st - 1) * pageSize st))
  ∧ total r = n
  ∧ (n ≤ (page st - 1) * pageSize st → rows r = []).
Proof.
  intros Hpaging Hps Hp n r.
  assert (Z.of_nat (length (rows r))
          = Z.max 0 (Z.min (pageSize st) (n - (page st - 1) * pageSize st))) as Hlen.
  { subst r. rewrite load_rows_paged by done.
    rewrite js_slice_page by lia.
    rewrite length_take, length_drop. fold n.
    assert (0 ≤ (page st - 1) * pageSize st) by nia. lia. }
  split; [done|]. split; [done|].
  intros Hbeyond. apply length_zero_iff_nil. lia.
Qed.

End LocalPaging.

Lemma load_pages_cover_witness :
  let st := set_pageSize 2 (set_page 1
              {| page := 1; pageSize := 10; pagingEnabled := true;
                 searchText := ""; sortOrders := Example.by_age_name;
                 totalRows := 0; filters := ∅ |}) in
  let all := (@getFilteredRows AsciiEnv.env (Some Example.tbl) st
                Example.cols Example.w1).1 in
  pagingEnabled st = true
  ∧ 0 < pageSize st
  ∧ concat ((λ p, rows (@load AsciiEnv.env (Some Example.tbl) (set_page p st)
                          Example.cols Example.w1).1)
            <$> seqZ 1 (Z.max 1 (ceil_div (Z.of_nat (length all)) (pageSize st))))
    = all.
Proof.
  intros st all.
  assert (pagingEnabled st = true) as H1 by reflexivity.
  assert (0 < pageSize st) as H2 by (simpl; lia).
  split; [exact H1|]. split; [exact H2|].
  exact (@load_pages_cover AsciiEnv.env (Some Example.tbl) st Example.cols
           Example.w1 H1 H2).
Defined.

Lemma load_page_length_witness :
  let st := {| page := 2; pageSize := 2; pagingEnabled := true;
               searchText := ""; sortOrders := []; totalRows := 0;
               filters := ∅ |} in
  let n := Z.of_nat (length (@getFilteredRows AsciiEnv.env (Some Example.tbl) st
                               Example.cols Example.w1).1) in
  let r := (@load AsciiEnv.env (Some Example.tbl) st Example.cols Example.w1).1 in
  pagingEnabled st = true
  ∧ 0 < pageSize st
  ∧ 1 ≤ page st
  ∧ Z.of_nat (length (rows r))
    = Z.max 0 (Z.min (pageSize st) (n - (page st - 1) * pageSize st))
  ∧ total r = n
  ∧ (n ≤ (page st - 1) * pageSize st → rows r = []).
Proof.
  intros st n r.
  assert (pagingEnabled st = true) as H1 by reflexivity.
  assert (0 < pageSize st) as H2 by (simpl; lia).
  assert (1 ≤ page st) as H3 by (simpl; lia).
  split; [exact H1|]. split; [exact H2|]. split; [exact H3|].
  exact (@load_page_length AsciiEnv.env (Some Example.tbl) st Example.cols
           Example.w1 H1 H2 H3).
Defined.

(** ** What the Local query returns *)

Lemma forallb_Permutation {A} (f : A → bool) (l k : list A) :
  l ≡ₚ k → forallb f l = forallb f k.
Proof.
  induction 1 as [|x l k _ IH|x y l|l k m _ IH1 _ IH2]; simpl.
  - done.
  - by rewrite IH.
  - by destruct (f x), (f y).
  - by rewrite IH1.
Qed.

Lemma existsb_Permutation {A} (f : A → bool) (l k : list A) :
  l ≡ₚ k → existsb f l = existsb f k.
Proof.
  induction 1 as [|x l k _ IH|x y l|l k m _ IH1 _ IH2]; simpl.
  - done.
  - by rewrite IH.
  - by destruct (f x), (f y).
  - by rewrite IH1.
Qed.

Lemma consistent_onb_sound {A} (cmp : A → A → jsnum) (l : list A) :
  consistent_onb cmp l = true → consistent_on cmp l.
Proof.
  unfold consistent_onb. rewrite andb_true_iff. intros [H1 H2]. split.
  - intros x y Hx Hy Hgt.
    rewrite forallb_forall in H1. apply list_elem_of_In in Hx, Hy.
    specialize (H1 x Hx). rewrite forallb_forall in H1. specialize (H1 y Hy).
    rewrite Hgt in H1. simpl in H1. by apply negb_true_iff.
  - intros x y z Hx Hy Hz Hxy Hyz.
    rewrite forallb_forall in H2. apply list_elem_of_In in Hx, Hy, Hz.
    specialize (H2 x Hx). rewrite forallb_forall in H2. specialize (H2 y Hy).
    rewrite forallb_forall in H2. specialize (H2 z Hz).
    rewrite Hxy, Hyz in H2. simpl in H2. by apply negb_true_iff.
Qed.

Section LocalResult.
Context `{JsEnv}.

Lemma sort_stage_perm h tbl st cols rs : sort_stage h tbl st cols rs ≡ₚ rs.
Proof.
  unfold sort_stage. destruct (sortSpecs st cols) as [|s specs]; [done|].
  trans (map krow (map (make_keyed h tbl (s :: specs)) rs)).
  - apply Permutation_map, js_sort_perm.
  - rewrite map_map. simpl. by rewrite map_id.
Qed.

(** X3. The Local query neither invents nor repeats rows: what
    [getFilteredRows] returns is a rearrangement of a part of the backing
    array, each row at most as often as it stands there; with no active
    filter and no search it is a rearrangement of the whole array.  The
    source itself is left as it was. *)
Theorem getFilteredRows_rearranges tbl st cols w :
  let out := (getFilteredRows tbl st cols w).1 in
  out ⊆+ original w
  ∧ (NoDup (original w) → NoDup out)
  ∧ (hasActiveFilters st = false →
     search_applies st (List.filter searchable cols) = false →
     out ≡ₚ original w)
  ∧ (getFilteredRows tbl st cols w).2 = w.
Proof.
  rewrite getFilteredRows_eq. simpl.
  set (h := w_heap w).
  assert (search_stage h tbl st cols (filter_stage h tbl st (original w))
          `sublist_of` original w) as Hsl.
  { etrans; [apply search_stage_sublist|apply filter_stage_sublist]. }
  split; [|split; [|split; [|done]]].
  - rewrite sort_stage_perm. by apply sublist_submseteq.
  - intros Hnd. rewrite sort_stage_perm. exact (sublist_NoDup _ _ Hnd Hsl).
  - intros Hf Hs. rewrite sort_stage_perm.
    unfold search_stage. rewrite Hs.
    unfold filter_stage. destruct tbl as [t|]; [|done]. by rewrite Hf.
Qed.

(** X4. With at least one active sort spec and a comparator that is
    consistent on the rows to sort, the output of the Local query is in
    the order of the comparator: no row stands before a row that the
    comparator puts in front of it. *)
Theorem local_sort_sorted tbl st cols w i j a b :
  let h := w_heap w in
  let specs := sortSpecs st cols in
  let mk := make_keyed h tbl specs in
  let rs := search_stage h tbl st cols (filter_stage h tbl st (original w)) in
  specs ≠ [] →
  consistent_onb (comparator h specs) (mk <$> rs) = true →
  (i < j)%nat →
  (getFilteredRows tbl st cols w).1 !! i = Some a →
  (getFilteredRows tbl st cols w).1 !! j = Some b →
  num_gt0 (comparator h specs (mk a) (mk b)) = false.
Proof.
  intros h specs mk rs Hne Hcons Hij Hi Hj.
  apply consistent_onb_sound in Hcons.
  rewrite getFilteredRows_eq in Hi, Hj. simpl in Hi, Hj.
  fold h rs in Hi, Hj. unfold sort_stage in Hi, Hj. fold specs in Hi, Hj.
  subst mk.
  destruct specs as [|s0 specs0] eqn:Hspecs; [done|].
  rewrite <-Hspecs in *. clear Hspecs Hne.
  pose proof (js_sort_sorted _ _ Hcons) as Hsorted.
  rewrite list_lookup_fmap in Hi, Hj.
  destruct (js_sort _ _ !! i) as [x|] eqn:Hx; [|done].
  destruct (js_sort _ _ !! j) as [y|] eqn:Hy; [|done].
  simpl in Hi, Hj. injection Hi as <-. injection Hj as <-.
  destruct (StronglySorted_lookup _ _ _ _ _ _ Hsorted Hij Hx Hy) as [[Hxl Hyl] Hle].
  apply list_elem_of_fmap in Hxl as [rx [-> _]].
  apply list_elem_of_fmap in Hyl as [ry [-> _]].
  done.
Qed.

End LocalResult.

Lemma local_sort_sorted_witness :
  let st := set_sortOrders Example.by_age_name Example.st0 in
  let w := Sample.w_reordered in
  let h := w_heap w in
  let tbl := Some Example.tbl in
  let specs := @sortSpecs AsciiEnv.env st Example.cols in
  let mk := @make_keyed AsciiEnv.env h tbl specs in
  let rs := @search_stage AsciiEnv.env h tbl st Example.cols
              (@filter_stage AsciiEnv.env h tbl st (original w)) in
  let out := (@getFilteredRows AsciiEnv.env tbl st Example.cols w).1 in
  specs ≠ []
  ∧ consistent_onb (@comparator AsciiEnv.env h specs) (mk <$> rs) = true
  ∧ out !! 0%nat = Some 1%nat
  ∧ out !! 2%nat = Some 0%nat
  ∧ num_gt0 (@comparator AsciiEnv.env h specs (mk 1%nat) (mk 0%nat)) = false.
Proof.
  intros st w h tbl specs mk rs out.
  assert (specs ≠ []) as H1 by (vm_compute; discriminate).
  assert (consistent_onb (@comparator AsciiEnv.env h specs) (mk <$> rs) = true)
    as H2 by (vm_compute; reflexivity).
  assert (out !! 0%nat = Some 1%nat) as H3 by (vm_compute; reflexivity).
  assert (out !! 2%nat = Some 0%nat) as H4 by (vm_compute; reflexivity).
  repeat (split; [assumption|]).
  apply (@local_sort_sorted AsciiEnv.env tbl st Example.cols w 0%nat 2%nat
           1%nat 0%nat H1 H2); [lia|exact H3|exact H4].
Defined.

Lemma local_sort_by_first_index_witness :
  let st := set_sortOrders Sample.by_age Example.st0 in
  let w := Sample.w_reordered in
  let h := w_heap w in
  let tbl := Some Example.tbl in
  let specs := @sortSpecs AsciiEnv.env st Example.cols in
  let rs := @search_stage AsciiEnv.env h tbl st Example.cols
              (@filter_stage AsciiEnv.env h tbl st (original w)) in
  let out := (@getFilteredRows AsciiEnv.env tbl st Example.cols w).1 in
  original w = [2; 1; 0]%nat
  ∧ specs ≠ []
  ∧ consistent_on (@comparator AsciiEnv.env h specs)
      (@make_keyed AsciiEnv.env h tbl specs <$> rs)
  ∧ out !! 0%nat = Some 1%nat
  ∧ out !! 1%nat = Some 2%nat
  ∧ @goes_on AsciiEnv.env h tbl specs 1%nat 2%nat = true
  ∧ index_le h 1%nat 2%nat = true.
Proof.
  intros st w h tbl specs rs out.
  assert (original w = [2; 1; 0]%nat) as H0 by reflexivity.
  assert (specs ≠ []) as H1 by (vm_compute; discriminate).
  assert (consistent_on (@comparator AsciiEnv.env h specs)
            (@make_keyed AsciiEnv.env h tbl specs <$> rs)) as H2.
  { apply consistent_onb_sound. vm_compute. reflexivity. }
  assert (out !! 0%nat = Some 1%nat) as H3 by (vm_compute; reflexivity).
  assert (out !! 1%nat = Some 2%nat) as H4 by (vm_compute; reflexivity).
  assert (@goes_on AsciiEnv.env h tbl specs 1%nat 2%nat = true)
    as H5 by (vm_compute; reflexivity).
  repeat (split; [assumption|]).
  apply (@local_sort_by_first_index AsciiEnv.env tbl st Example.cols w
           0%nat 1%nat 1%nat 2%nat H1 H2); [lia|exact H3|exact H4|exact H5].
Defined.

Lemma local_sort_stable_witness :
  let st := set_sortOrders Example.by_age_desc Example.st0 in
  let w := Example.w1 in
  let h := w_heap w in
  let tbl := Some Example.tbl in
  let specs := @sortSpecs AsciiEnv.env st Example.cols in
  let rs := @search_stage AsciiEnv.env h tbl st Example.cols
              (@filter_stage AsciiEnv.env h tbl st (original w)) in
  let out :=
    (@getFilteredRows_with AsciiEnv.env run_sort tbl st Example.cols w).1 in
  consistent_on (@comparator AsciiEnv.env h specs)
    (@make_keyed AsciiEnv.env h tbl specs <$> rs)
  ∧ index_ascending h (original w) = true
  ∧ out !! 1%nat = Some 1%nat ∧ out !! 2%nat = Some 2%nat
  ∧ @keys_tie AsciiEnv.env h tbl specs 1%nat 2%nat = true
  ∧ index_le h 1%nat 2%nat = true
  ∧ [1%nat; 2%nat] `sublist_of` original w.
Proof.
  intros st w h tbl specs rs out.
  assert (consistent_on (@comparator AsciiEnv.env h specs)
            (@make_keyed AsciiEnv.env h tbl specs <$> rs)) as H0.
  { apply consistent_onb_sound. vm_compute. reflexivity. }
  assert (index_ascending h (original w) = true)
    as H1 by (vm_compute; reflexivity).
  assert (out !! 1%nat = Some 1%nat) as H2 by (vm_compute; reflexivity).
  assert (out !! 2%nat = Some 2%nat) as H3 by (vm_compute; reflexivity).
  assert (@keys_tie AsciiEnv.env h tbl specs 1%nat 2%nat = true)
    as H4 by (vm_compute; reflexivity).
  split; [exact H0|]. split; [exact H1|]. split; [exact H2|].
  split; [exact H3|]. split; [exact H4|].
  apply (@local_sort_stable AsciiEnv.env run_sort tbl st Example.cols
           w 1%nat 2%nat 1%nat 2%nat run_sort_conforming H0 H1);
    [lia|exact H2|exact H3|exact H4].
Defined.

Lemma setData_fresh_witness :
  let l := [0; 1; 2]%nat in
  let w' := (setData (VArr l) Example.w0).2 in
  NoDup l
  ∧ (∀ r, r ∈ l → deref (w_heap Example.w0) r !! dt_index_key = None)
  ∧ original w' = l
  ∧ (∀ i r, l !! i = Some r →
            dt_index (deref (w_heap w') r) = num_of_Z (Z.of_nat i))
  ∧ index_ascending (w_heap w') (original w') = true.
Proof.
  intros l w'.
  assert (NoDup l) as H1.
  { apply (bool_decide_unpack (NoDup l)). vm_compute. exact I. }
  assert (∀ r, r ∈ l → deref (w_heap Example.w0) r !! dt_index_key = None) as H2.
  { intros r Hr. subst l.
    repeat (apply elem_of_cons in Hr as [->|Hr]; [vm_compute; reflexivity|]).
    by apply elem_of_nil in Hr. }
  split; [exact H1|]. split; [exact H2|].
  exact (setData_fresh l Example.w0 H1 H2).
Defined.

(** ** The original-order index is given once *)

Lemma attach_one_props h idx r r' k :
  k ≠ dt_index_key →
  deref (attach_one h idx r) r' !! k = deref h r' !! k.
Proof.
  intros Hk. unfold attach_one.
  destruct (deref h r !! dt_index_key) eqn:E; [done|].
  destruct (decide (r = r')) as [->|Hne].
  - unfold deref at 1. rewrite lookup_insert_eq. simpl.
    by rewrite lookup_insert_ne.
  - unfold deref. by rewrite lookup_insert_ne.
Qed.

Lemma attach_one_indexed h idx r r' :
  is_Some (deref h r' !! dt_index_key) →
  deref (attach_one h idx r) r' = deref h r'.
Proof.
  intros [v Hv]. destruct (decide (r = r')) as [->|Hne].
  - unfold attach_one. by rewrite Hv.
  - by apply attach_one_other.
Qed.

Lemma attach_one_has h idx r :
  is_Some (deref (attach_one h idx r) r !! dt_index_key).
Proof.
  unfold attach_one. destruct (deref h r !! dt_index_key) eqn:E.
  - by rewrite E.
  - unfold deref at 1. rewrite lookup_insert_eq. simpl.
    by rewrite lookup_insert_eq.
Qed.

Lemma attach_from_props idx l h r k :
  k ≠ dt_index_key →
  deref (attach_from idx l h) r !! k = deref h r !! k.
Proof.
  intros Hk. revert idx h. induction l as [|r0 l IH]; intros idx h; simpl; [done|].
  rewrite IH. by apply attach_one_props.
Qed.

Lemma attach_from_indexed idx l h r :
  is_Some (deref h r !! dt_index_key) →
  deref (attach_from idx l h) r = deref h r.
Proof.
  revert idx h. induction l as [|r0 l IH]; intros idx h Hr; simpl; [done|].
  rewrite IH; rewrite attach_one_indexed; done.
Qed.

Lemma attach_from_has idx l h r :
  r ∈ l → is_Some (deref (attach_from idx l h) r !! dt_index_key).
Proof.
  revert idx h. induction l as [|r0 l IH]; intros idx h Hr; simpl.
  - by apply elem_of_nil in Hr.
  - destruct (decide (r = r0)) as [->|Hne].
    + rewrite attach_from_indexed; apply attach_one_has.
    + apply IH. apply elem_of_cons in Hr as [?|?]; done.
Qed.

Lemma attach_from_noop idx l h :
  (∀ r, r ∈ l → is_Some (deref h r !! dt_index_key)) →
  attach_from idx l h = h.
Proof.
  revert idx. induction l as [|r0 l IH]; intros idx Hl; simpl; [done|].
  assert (attach_one h idx r0 = h) as ->.
  { unfold attach_one. destruct (Hl r0) as [v ->]; [by left|done]. }
  apply IH. intros r Hr. apply Hl. by right.
Qed.

(** X5. [setData] gives the original-order index once and touches
    nothing else: a row that already owns [__dt_index] is left exactly as
    it is, whatever its new position in the array; no other property of
    any row is changed; every row of the array owns an index afterwards;
    rows outside the array are left as they are. *)
Theorem setData_keeps_rows (data : jsval) (w : world) (r : ref) :
  let h := w_heap w in
  let w' := (setData data w).2 in
  (∀ k, k ≠ dt_index_key → deref (w_heap w') r !! k = deref h r !! k)
  ∧ (is_Some (deref h r !! dt_index_key) → deref (w_heap w') r = deref h r)
  ∧ (r ∈ array_rows data → is_Some (deref (w_heap w') r !! dt_index_key))
  ∧ (r ∉ array_rows data → deref (w_heap w') r = deref h r)
  ∧ original w' = array_rows data.
Proof.
  simpl. split; [|split; [|split; [|split]]].
  - intros k Hk. by apply attach_from_props.
  - apply attach_from_indexed.
  - apply attach_from_has.
  - apply attach_from_other.
  - done.
Qed.

(** X6. Giving the same array to [setData] a second time changes
    nothing: the source after two calls is the source after one. *)
Theorem setData_twice (data : jsval) (w : world) :
  setData data (setData data w).2 = setData data w.
Proof.
  unfold setData, _attachOriginalIndex, mbind, state_bind, modify. simpl.
  f_equal. unfold with_heap, with_original. simpl. f_equal.
  apply attach_from_noop. intros r Hr. by apply attach_from_has.
Qed.

(** ** Clearing a column filter *)

Section FilterClearing.
Context `{JsEnv}.

Lemma load_eq tbl st cols w :
  (load tbl st cols w).1
  = {| rows :=
         if pagingEnabled st then
           js_slice (getFilteredRows tbl st cols w).1
             ((page st - 1) * pageSize st)
             ((page st - 1) * pageSize st + pageSize st)
         else (getFilteredRows tbl st cols w).1;
       total := Z.of_nat (length (getFilteredRows tbl st cols w).1) |}.
Proof. done. Qed.

Lemma getFilteredRows_ext tbl st st' cols w :
  searchText st = searchText st' →
  sortOrders st = sortOrders st' →
  filter_stage (w_heap w) tbl st (original w)
  = filter_stage (w_heap w) tbl st' (original w) →
  (getFilteredRows tbl st cols w).1 = (getFilteredRows tbl st' cols w).1.
Proof.
  intros Hs Ho Hf. rewrite !getFilteredRows_eq. cbn [fst].
  rewrite Hf. unfold sort_stage, sortSpecs, search_stage, search_applies.
  by rewrite Hs, Ho.
Qed.

Lemma filter_stage_insert_inactive h tbl st k v rs :
  filter_value_active v = false →
  (∀ t row, tbl = Some t → filter_passes (filters_items t) row (k, v) = true) →
  filter_stage h tbl (set_filters (<[k := v]> (filters st)) st) rs
  = filter_stage h tbl (set_filters (delete k (filters st)) st) rs.
Proof.
  intros Hv Hpass. unfold filter_stage. destruct tbl as [t|]; [|done].
  assert (map_to_list (<[k := v]> (filters st))
          ≡ₚ (k, v) :: map_to_list (delete k (filters st))) as Hperm.
  { rewrite <-insert_delete_eq. apply map_to_list_insert, lookup_delete_eq. }
  unfold hasActiveFilters. cbn [filters set_filters].
  rewrite (existsb_Permutation _ _ _ Hperm). cbn [existsb snd].
  rewrite Hv. cbn [orb].
  destruct (existsb _ _ && _); [|done].
  apply List.filter_ext. intros r. unfold row_passes_filters.
  cbn [filters set_filters].
  rewrite (forallb_Permutation _ _ _ Hperm). cbn [forallb].
  by rewrite (Hpass t _ eq_refl).
Qed.

(** X7. Clearing a filter is the same as never having set it.  After
    the handler of a select filter has stored its empty choice, the Local
    source answers as it does for the state without an entry for that
    filter; so it does after a switch filter has been turned off, when the
    filter is declared with the type "bool". *)
Theorem filter_cleared_is_unset tbl st cols w k :
  let unset := set_page 1 (set_filters (delete k (filters st)) st) in
  (load tbl (filter_select k "" st) cols w).1 = (load tbl unset cols w).1
  ∧ ((∀ t, tbl = Some t →
        ∃ d, List.find (λ f, String.eqb (fkey f) k) (filters_items t) = Some d
             ∧ ftype d = "bool") →
     (load tbl (filter_switch k false st) cols w).1 = (load tbl unset cols w).1).
Proof.
  intros unset.
  assert (∀ v, filter_value_active v = false →
            (∀ t row, tbl = Some t →
               filter_passes (filters_items t) row (k, v) = true) →
            (load tbl (set_page 1 (set_filters (<[k := v]> (filters st)) st))
               cols w).1 = (load tbl unset cols w).1) as Hgen.
  { intros v Hv Hpass. rewrite !load_eq.
    rewrite (getFilteredRows_ext tbl
               (set_page 1 (set_filters (<[k := v]> (filters st)) st)) unset);
      [done..|].
    apply (filter_stage_insert_inactive _ _ st); done. }
  split.
  - apply (Hgen VNull); [done|]. intros t row _. simpl.
    by destruct (match find _ _ with Some d => _ | None => false end).
  - intros Hdef. apply (Hgen (VBool false)); [done|].
    intros t row Ht. destruct (Hdef t Ht) as (d & Hd & Hty).
    simpl. rewrite Hd, Hty. done.
Qed.

End FilterClearing.

(** ** The sort cycle of [sortBy] *)

Lemma order_index_spec k orders i :
  order_index k orders = Some i →
  ∃ o, orders !! i = Some o ∧ okey o = k.
Proof.
  revert i. induction orders as [|o orders IH]; intros i; simpl; [done|].
  destruct (String.eqb_spec (okey o) k) as [Hk|Hk].
  - intros [= <-]. by exists o.
  - destruct (order_index k orders) as [j|]; [|done].
    intros [= <-]. by apply IH.
Qed.

Lemma order_index_app_new k orders d :
  order_index k orders = None →
  order_index k (orders ++ [ {| okey := k; odir := d |} ])
  = Some (length orders).
Proof.
  induction orders as [|o orders IH]; simpl.
  - by rewrite String.eqb_refl.
  - destruct (String.eqb (okey o) k); [done|].
    destruct (order_index k orders); [done|]. intros _. by rewrite IH.
Qed.

Section SortCycle.
Context `{JsEnv}.

(** X8. Clicking a sortable column that is not sorted, three times:
    the column is sorted ascending, then descending, then not at all.  A
    plain click leaves no other column in the sort list; with the append
    modifier the entries of the other columns stay in front, as they
    were, and the list is back to what it was after the third click.
    Each click goes back to page 1. *)
Theorem sortBy_cycle cols k c append st :
  toLowerCase "asc" = "asc" →
  toLowerCase "desc" = "desc" →
  List.find (λ c, String.eqb (key c) k) cols = Some c →
  sortable c = true →
  order_index k (sortOrders st) = None →
  let others := if append : bool then sortOrders st else [] in
  ∃ st1 st2 st3,
    sortBy cols k append st = Some st1
    ∧ sortOrders st1 = others ++ [ {| okey := k; odir := "asc" |} ]
    ∧ sortBy cols k append st1 = Some st2
    ∧ sortOrders st2 = others ++ [ {| okey := k; odir := "desc" |} ]
    ∧ sortBy cols k append st2 = Some st3
    ∧ sortOrders st3 = others
    ∧ page st1 = 1 ∧ page st2 = 1 ∧ page st3 = 1.
Proof.
  intros Hasc Hdesc Hfind Hsortable Hnone others.
  assert (order_index k others = None) as Hothers
    by (subst others; by destruct append).
  assert (∀ d, order_index k (others ++ [ {| okey := k; odir := d |} ])
               = Some (length others)) as Hidx
    by (intros d; by apply order_index_app_new).
  assert (∀ d, (others ++ [ {| okey := k; odir := d |} ]) !! length others
               = Some {| okey := k; odir := d |}) as Hlook
    by (intros d; by rewrite lookup_app_r, Nat.sub_diag by lia).
  set (st1 := set_page 1
         (set_sortOrders (others ++ [ {| okey := k; odir := "asc" |} ]) st)).
  set (st2 := set_page 1
         (set_sortOrders (others ++ [ {| okey := k; odir := "desc" |} ]) st1)).
  set (st3 := set_page 1 (set_sortOrders others st2)).
  exists st1, st2, st3.
  assert (sortBy cols k append st = Some st1) as H1.
  { unfold sortBy. rewrite Hfind, Hsortable. cbn [negb].
    rewrite Hnone. subst st1 others. by destruct append. }
  assert (sortBy cols k append st1 = Some st2) as H2.
  { unfold sortBy. rewrite Hfind, Hsortable.
    cbn [negb sortOrders st1 set_page set_sortOrders].
    rewrite Hidx. cbn [mbind option_bind]. rewrite Hlook.
    cbn [odir String.eqb Ascii.eqb Bool.eqb]. rewrite Hasc.
    cbn [String.eqb Ascii.eqb Bool.eqb].
    subst st2. destruct append; cbn [negb]; [|by subst others].
    rewrite insert_app_r_alt, Nat.sub_diag by lia. done. }
  assert (sortBy cols k append st2 = Some st3) as H3.
  { unfold sortBy. rewrite Hfind, Hsortable.
    cbn [negb sortOrders st2 set_page set_sortOrders].
    rewrite Hidx. cbn [mbind option_bind]. rewrite Hlook.
    cbn [odir String.eqb Ascii.eqb Bool.eqb]. rewrite Hdesc.
    cbn [String.eqb Ascii.eqb Bool.eqb].
    subst st3. destruct append; cbn [negb]; [|by subst others].
    rewrite take_app_length.
    rewrite drop_ge by (rewrite length_app; simpl; lia).
    by rewrite app_nil_r. }
  done.
Qed.

Lemma next_orders_others (k nextDir : string) (append : bool)
    (orders : list sortorder) :
  let other := λ o, negb (String.eqb (okey o) k) in
  let entry := {| okey := k; odir := nextDir |} in
  let nextOrders :=
    if negb append then
      if String.eqb nextDir "" then [] else [entry]
    else
      match order_index k orders with
      | None => if String.eqb nextDir "" then orders else orders ++ [entry]
      | Some i =>
          if String.eqb nextDir "" then take i orders ++ drop (S i) orders
          else <[i := entry]> orders
      end in
  (append = true → List.filter other nextOrders = List.filter other orders)
  ∧ (append = false →
     List.filter other nextOrders = [] ∧ (length nextOrders ≤ 1)%nat).
Proof.
  intros other entry nextOrders.
  assert (other entry = false) as He
    by (subst other entry; simpl; by rewrite String.eqb_refl).
  subst nextOrders. split; intros ->; cbn [negb].
  - destruct (order_index k orders) as [i|] eqn:Hi.
    + destruct (order_index_spec _ _ _ Hi) as (o & Ho & Hk).
      assert (other o = false) as Hoo
        by (subst other; simpl; by rewrite Hk, String.eqb_refl).
      assert (List.filter other orders
              = List.filter other (take i orders)
                ++ List.filter other (drop (S i) orders)) as ->.
      { rewrite <-(take_drop_middle _ _ _ Ho) at 1.
        rewrite List.filter_app. cbn [List.filter]. by rewrite Hoo. }
      destruct (String.eqb nextDir "").
      * by rewrite List.filter_app.
      * rewrite insert_take_drop by (by eapply lookup_lt_Some).
        rewrite List.filter_app. cbn [List.filter]. by rewrite He.
    + destruct (String.eqb nextDir ""); [done|].
      rewrite List.filter_app. cbn [List.filter]. rewrite He.
      by rewrite app_nil_r.
  - destruct (String.eqb nextDir ""); cbn [List.filter length];
      [split; [done|lia]|].
    rewrite He. split; [done|lia].
Qed.

(** X9. A click with the append modifier never disturbs the other
    columns of the sort list: their entries are the same, in the same
    order of priority, before and after, whatever the clicked column's
    place in the cycle.  A plain click leaves at most the clicked column
    in the list.  Search text, filters and page size are not changed. *)
Theorem sortBy_keeps_others cols k append st st' :
  sortBy cols k append st = Some st' →
  let other := λ o, negb (String.eqb (okey o) k) in
  (append = true →
   List.filter other (sortOrders st') = List.filter other (sortOrders st))
  ∧ (append = false →
     List.filter other (sortOrders st') = []
     ∧ (length (sortOrders st') ≤ 1)%nat)
  ∧ page st' = 1
  ∧ searchText st' = searchText st
  ∧ filters st' = filters st
  ∧ pageSize st' = pageSize st.
Proof.
  intros Hs other. unfold sortBy in Hs.
  destruct (find _ cols) as [c|]; [|done].
  destruct (sortable c); [|done]. cbn [negb] in Hs.
  injection Hs as <-.
  cbn [sortOrders page searchText filters pageSize set_page set_sortOrders].
  match goal with
  | |- context [ {| okey := k; odir := ?d |} ] =>
      destruct (next_orders_others k d append (sortOrders st)) as [Ha Hb]
  end.
  split; [exact Ha|]. split; [exact Hb|done].
Qed.

End SortCycle.

Lemma sortBy_cycle_witness :
  let st := set_sortOrders [ {| okey := "name"; odir := "asc" |} ] Example.st0 in
  let others := sortOrders st in
  @toLowerCase AsciiEnv.env "asc" = "asc"
  ∧ @toLowerCase AsciiEnv.env "desc" = "desc"
  ∧ List.find (λ c, String.eqb (key c) "age") Example.cols
    = Some (Example.plain "age")
  ∧ sortable (Example.plain "age") = true
  ∧ order_index "age" (sortOrders st) = None
  ∧ ∃ st1 st2 st3,
      @sortBy AsciiEnv.env Example.cols "age" true st = Some st1
      ∧ sortOrders st1 = others ++ [ {| okey := "age"; odir := "asc" |} ]
      ∧ @sortBy AsciiEnv.env Example.cols "age" true st1 = Some st2
      ∧ sortOrders st2 = others ++ [ {| okey := "age"; odir := "desc" |} ]
      ∧ @sortBy AsciiEnv.env Example.cols "age" true st2 = Some st3
      ∧ sortOrders st3 = others
      ∧ page st1 = 1 ∧ page st2 = 1 ∧ page st3 = 1.
Proof.
  intros st others.
  assert (@toLowerCase AsciiEnv.env "asc" = "asc") as H1 by reflexivity.
  assert (@toLowerCase AsciiEnv.env "desc" = "desc") as H2 by reflexivity.
  assert (List.find (λ c, String.eqb (key c) "age") Example.cols
          = Some (Example.plain "age")) as H3 by reflexivity.
  assert (sortable (Example.plain "age") = true) as H4 by reflexivity.
  assert (order_index "age" (sortOrders st) = None) as H5 by reflexivity.
  repeat (split; [assumption|]).
  exact (@sortBy_cycle AsciiEnv.env Example.cols "age" (Example.plain "age")
           true st H1 H2 H3 H4 H5).
Defined.

Lemma sortBy_keeps_others_witness :
  let st := set_page 3 (set_sortOrders Example.by_age_name Example.st0) in
  let st' := set_page 1 (set_sortOrders
               [ {| okey := "age"; odir := "desc" |};
                 {| okey := "name"; odir := "asc" |} ] st) in
  let other := λ o, negb (String.eqb (okey o) "age") in
  @sortBy AsciiEnv.env Example.cols "age" true st = Some st'
  ∧ (true = true →
     List.filter other (sortOrders st') = List.filter other (sortOrders st))
  ∧ (true = false →
     List.filter other (sortOrders st') = []
     ∧ (length (sortOrders st') ≤ 1)%nat)
  ∧ page st' = 1
  ∧ searchText st' = searchText st
  ∧ filters st' = filters st
  ∧ pageSize st' = pageSize st.
Proof.
  intros st st' other.
  assert (@sortBy AsciiEnv.env Example.cols "age" true st = Some st')
    as H1 by reflexivity.
  split; [exact H1|].
  exact (@sortBy_keeps_others AsciiEnv.env Example.cols "age" true st st' H1).
Defined.

(** ** Moving between pages *)

Lemma ceil_div_tight (a b : Z) : 0 < b → (ceil_div a b - 1) * b < a.
Proof.
  intros Hb. unfold ceil_div.
  pose proof (Z.mul_succ_div_gt (- a) b Hb). nia.
Qed.

Section PageMoves.
Context `{JsEnv}.

Lemma load_rows_length tbl st cols w :
  pagingEnabled st = true →
  0 < pageSize st →
  1 ≤ page st →
  Z.of_nat (length (rows (load tbl st cols w).1))
  = Z.max 0 (Z.min (pageSize st)
               (Z.of_nat (length (getFilteredRows tbl st cols w).1)
                - (page st - 1) * pageSize st)).
Proof.
  intros Hpaging Hps Hp. rewrite load_rows_paged by done.
  rewrite js_slice_page by lia. rewrite length_take, length_drop.
  assert (0 ≤ (page st - 1) * pageSize st) by nia. lia.
Qed.

(** X10. [goToPage(p)] lands on [p] when [p] is one of the pages 1 to
    the last page, and on the nearest of them otherwise; nothing but the
    page number changes; asking for the same page again changes nothing;
    and nothing happens at all when paging is disabled. *)
Theorem goToPage_lands (p : Z) (st : QueryState) :
  0 < pageSize st →
  let lastPage := Z.max 1 (ceil_div (totalRows st) (pageSize st)) in
  let st' := default st (goToPage true p st) in
  st' = set_page (Z.min (Z.max 1 p) lastPage) st
  ∧ (1 ≤ p ≤ lastPage → page st' = p)
  ∧ (p < 1 → page st' = 1)
  ∧ (lastPage < p → page st' = lastPage)
  ∧ goToPage true p st' = None
  ∧ goToPage false p st = None.
Proof.
  intros Hps lastPage st'.
  assert (st' = set_page (Z.min (Z.max 1 p) lastPage) st) as Hst'.
  { subst st'. unfold goToPage. cbn [negb]. fold lastPage.
    destruct (Z.eqb_spec (Z.min (Z.max 1 p) lastPage) (page st)) as [->|Hne];
      [|done].
    by destruct st. }
  split; [done|]. rewrite Hst'. cbn [page set_page].
  split; [lia|]. split; [lia|]. split; [lia|]. split; [|done].
  unfold goToPage. cbn [negb totalRows pageSize page set_page]. fold lastPage.
  by rewrite Z.eqb_refl.
Qed.

(** X11. A Local table whose [totalRows] is the total of the current
    query never lands on an empty page: whatever page number is asked
    of [goToPage], the page then loaded holds at least one row, as soon
    as the query has one. *)
Theorem goToPage_shows_rows tbl st cols w (p : Z) :
  pagingEnabled st = true →
  0 < pageSize st →
  totalRows st = total (load tbl st cols w).1 →
  0 < totalRows st →
  rows (load tbl (default st (goToPage true p st)) cols w).1 ≠ [].
Proof.
  intros Hpaging Hps Htotal Hpos.
  set (st' := default st (goToPage true p st)).
  set (n := Z.of_nat (length (getFilteredRows tbl st cols w).1)).
  assert (totalRows st = n) as Hn by (rewrite Htotal; done).
  assert (∃ q, st' = set_page q st ∧ 1 ≤ q
               ∧ q ≤ Z.max 1 (ceil_div n (pageSize st))) as (q & Hq & H1 & H2).
  { subst st'. unfold goToPage. cbn [negb]. rewrite Hn.
    destruct (Z.eqb_spec (Z.min (Z.max 1 p)
                            (Z.max 1 (ceil_div n (pageSize st)))) (page st))
      as [Heq|Hne]; cbn [default from_option id].
    - exists (page st). split; [by destruct st|lia].
    - eexists. split; [done|lia]. }
  rewrite Hq. clearbody st'. subst st'.
  pose proof (load_rows_length tbl (set_page q st) cols w Hpaging Hps H1) as Hlen.
  change (getFilteredRows tbl (set_page q st) cols w).1
    with (getFilteredRows tbl st cols w).1 in Hlen.
  cbn [page pageSize set_page] in Hlen.
  fold n in Hlen.
  pose proof (ceil_div_tight n (pageSize st) Hps) as Htight.
  intros Hnil. rewrite Hnil in Hlen. simpl in Hlen.
  assert ((q - 1) * pageSize st < n); [|lia].
  destruct (decide (q = 1)) as [->|?]; [lia|]. nia.
Qed.

End PageMoves.

Lemma goToPage_lands_witness :
  let st := set_totalRows 35 (Sample.paged 2 10) in
  let lastPage := Z.max 1 (ceil_div (totalRows st) (pageSize st)) in
  let st' := default st (goToPage true 9 st) in
  0 < pageSize st
  ∧ st' = set_page (Z.min (Z.max 1 9) lastPage) st
  ∧ (1 ≤ 9 ≤ lastPage → page st' = 9)
  ∧ (9 < 1 → page st' = 1)
  ∧ (lastPage < 9 → page st' = lastPage)
  ∧ goToPage true 9 st' = None
  ∧ goToPage false 9 st = None.
Proof.
  intros st lastPage st'.
  assert (0 < pageSize st) as H1 by (simpl; lia).
  split; [exact H1|].
  exact (goToPage_lands 9 st H1).
Defined.

Lemma goToPage_shows_rows_witness :
  let st := set_totalRows 3 (Sample.paged 1 2) in
  pagingEnabled st = true
  ∧ 0 < pageSize st
  ∧ totalRows st
    = total (@load AsciiEnv.env (Some Example.tbl) st Example.cols Example.w1).1
  ∧ 0 < totalRows st
  ∧ rows (@load AsciiEnv.env (Some Example.tbl)
            (default st (goToPage true 7 st)) Example.cols Example.w1).1 ≠ [].
Proof.
  intros st.
  assert (pagingEnabled st = true) as H1 by reflexivity.
  assert (0 < pageSize st) as H2 by (simpl; lia).
  assert (totalRows st
          = total (@load AsciiEnv.env (Some Example.tbl) st Example.cols
                     Example.w1).1) as H3 by (vm_compute; reflexivity).
  assert (0 < totalRows st) as H4 by (simpl; lia).
  repeat (split; [assumption|]).
  exact (@goToPage_shows_rows AsciiEnv.env (Some Example.tbl) st Example.cols
           Example.w1 7 H1 H2 H3 H4).
Defined.

(** ** The selection ledger *)

Lemma elem_of_set_add (x k : string) (s : list string) :
  x ∈ Body.set_add k s ↔ x = k ∨ x ∈ s.
Proof.
  unfold Body.set_add. case_bool_decide as Hk.
  - split; [by right|]. intros [->|?]; done.
  - rewrite elem_of_app, list_elem_of_singleton. tauto.
Qed.

Lemma elem_of_set_delete (x k : string) (s : list string) :
  x ∈ Body.set_delete k s ↔ x ≠ k ∧ x ∈ s.
Proof.
  unfold Body.set_delete. rewrite list_elem_of_In, List.filter_In, <-list_elem_of_In.
  rewrite negb_true_iff. destruct (String.eqb_spec x k); split; intros [? ?]; done.
Qed.

Lemma elem_of_apply_keys (b : bool) (ks s : list string) (x : string) :
  x ∈ Body.apply_keys b ks s
  ↔ (if b then (x ∈ ks) ∨ (x ∈ s) else (x ∉ ks) ∧ (x ∈ s)).
Proof.
  unfold Body.apply_keys. revert s.
  induction ks as [|k ks IH]; intros s; simpl.
  - destruct b; [|rewrite elem_of_nil; tauto].
    rewrite elem_of_nil. tauto.
  - rewrite IH. destruct b.
    + rewrite elem_of_set_add, elem_of_cons. tauto.
    + rewrite elem_of_set_delete, not_elem_of_cons. tauto.
Qed.

Lemma NoDup_set_add (k : string) (s : list string) :
  NoDup s → NoDup (Body.set_add k s).
Proof.
  intros Hs. unfold Body.set_add. case_bool_decide as Hk; [done|].
  apply NoDup_app. split; [done|]. split; [|apply NoDup_singleton].
  intros x Hx Hx'. apply list_elem_of_singleton in Hx'. by subst x.
Qed.

Lemma NoDup_set_delete (k : string) (s : list string) :
  NoDup s → NoDup (Body.set_delete k s).
Proof.
  intros Hs. unfold Body.set_delete.
  eapply sublist_NoDup; [exact Hs|apply filter_sublist].
Qed.

Lemma header_after_sync (cfg : Body.config) (v : Body.view) :
  Body.select_enabled cfg = true →
  is_Some (Body._headerSelectCheckbox v) →
  let page := Body._pageParentRowKeys v in
  let sel := Body._selectedRowKeys v in
  let all := forallb (λ k, Body.set_has k sel) page in
  let some := existsb (λ k, Body.set_has k sel) page in
  Body._headerSelectCheckbox (Body._syncSelectionDomAndHeader cfg v)
  = Some (some && all, some && negb all).
Proof.
  intros Hen [c Hc] page sel all some.
  unfold Body._syncSelectionDomAndHeader, Body._updateHeaderSelectCheckboxState.
  rewrite Hen, Hc. cbn [negb]. fold page sel.
  set (f := λ k, Body.set_has k sel) in *.
  assert (length (List.filter f page) = 0%nat ↔ some = false) as H0.
  { subst some. induction page as [|k page IH]; simpl; [done|].
    destruct (f k); simpl; [done|]. apply IH. }
  assert (length (List.filter f page) = length page ↔ all = true) as H1.
  { subst all. clear H0. induction page as [|k page IH]; simpl; [done|].
    destruct (f k); simpl.
    - rewrite <-IH. lia.
    - pose proof (sublist_length _ _ (filter_sublist f page)). split; [lia|done]. }
  destruct page as [|k0 page'] eqn:Hpage; [done|]. rewrite <-Hpage in *.
  assert ((length page =? 0)%nat = false) as -> by (rewrite Hpage; done).
  destruct (Nat.eqb_spec (length (List.filter f page)) 0) as [Hz|Hz].
  - apply H0 in Hz. by rewrite Hz.
  - assert (some = true) as ->.
    { destruct some; [done|]. exfalso. by apply Hz, H0. }
    destruct (Nat.eqb_spec (length (List.filter f page)) (length page)) as [Ha|Ha].
    + apply H1 in Ha. by rewrite Ha.
    + assert (all = false) as ->; [|done].
      destruct all; [|done]. exfalso. by apply Ha, H1.
Qed.

Lemma uniform_header (f : string → bool) (page : list string) (b : bool) :
  (∀ k, k ∈ page → f k = b) →
  (existsb f page && forallb f page, existsb f page && negb (forallb f page))
  = (match page with [] => false | _ => b end, false).
Proof.
  intros Hall. destruct page as [|k page]; [done|].
  destruct b.
  - assert (forallb f (k :: page) = true) as ->.
    { apply forallb_forall. intros x Hx. apply Hall. by apply list_elem_of_In. }
    simpl. rewrite (Hall k) by (by left). done.
  - assert (existsb f (k :: page) = false) as ->; [|done].
    apply not_true_is_false. intros Hex.
    apply existsb_exists in Hex as (x & Hx & Hfx).
    rewrite (Hall x) in Hfx by (by apply list_elem_of_In). done.
Qed.

(** X12. The header checkbox acts on the rows of the page and on no
    other: after it has been ticked every key of the page is selected, after
    it has been cleared none is, and the keys selected on other pages are
    selected as before.  When selection is enabled the checkbox then shows
    checked exactly when it was ticked on a page that has rows, never the
    mixed state; and one [select] event of mode "page" reports the keys of
    the page and the selection. *)
Theorem select_all_scope (cfg : Body.config) (b : bool) (v : Body.view) :
  let v' := Body._handleHeaderSelectAll cfg b v in
  let page := Body._pageParentRowKeys v in
  (∀ k, k ∈ Body._selectedRowKeys v'
        ↔ (if b then (k ∈ page) ∨ (k ∈ Body._selectedRowKeys v)
           else (k ∉ page) ∧ (k ∈ Body._selectedRowKeys v)))
  ∧ (∀ k, k ∉ page →
          (k ∈ Body._selectedRowKeys v' ↔ k ∈ Body._selectedRowKeys v))
  ∧ (Body.select_enabled cfg = true →
     is_Some (Body._headerSelectCheckbox v) →
     Body._headerSelectCheckbox v'
     = Some (match page with [] => false | _ => b end, false))
  ∧ Body._rowDataByKey v' = Body._rowDataByKey v
  ∧ Body._pageParentRowKeys v' = page
  ∧ Body.emitted v'
    = Body.emitted v
      ++ [ {| Body.mode := "page"; Body.ev_rowKey := None; Body.checked := b;
              Body.affectedRowKeys := page;
              Body.selectedRowKeys := Body._selectedRowKeys v' |} ].
Proof.
  intros v' page.
  set (v1 := Body.with_selected (Body.apply_keys b page) v).
  assert (∀ u, Body._selectedRowKeys (Body._syncSelectionDomAndHeader cfg u)
               = Body._selectedRowKeys u
             ∧ Body._rowDataByKey (Body._syncSelectionDomAndHeader cfg u)
               = Body._rowDataByKey u
             ∧ Body._pageParentRowKeys (Body._syncSelectionDomAndHeader cfg u)
               = Body._pageParentRowKeys u
             ∧ Body.emitted (Body._syncSelectionDomAndHeader cfg u)
               = Body.emitted u) as Hsync.
  { intros u. unfold Body._syncSelectionDomAndHeader,
      Body._updateHeaderSelectCheckboxState.
    destruct (negb _); [done|]. destruct (Body._headerSelectCheckbox u); [|done].
    repeat (match goal with |- context [if ?c then _ else _] => destruct c end);
      done. }
  assert (v' = Body.emit
                 {| Body.mode := "page"; Body.ev_rowKey := None;
                    Body.checked := b;
                    Body.affectedRowKeys :=
                      Body._pageParentRowKeys
                        (Body._syncSelectionDomAndHeader cfg v1);
                    Body.selectedRowKeys :=
                      Body._selectedRowKeys
                        (Body._syncSelectionDomAndHeader cfg v1) |}
                 (Body._syncSelectionDomAndHeader cfg v1)) as Hv' by done.
  destruct (Hsync v1) as (Hs & Hd & Hp & He).
  assert (Body._selectedRowKeys v' = Body.apply_keys b page (Body._selectedRowKeys v))
    as Hsel by (rewrite Hv'; cbn [Body._selectedRowKeys Body.emit]; by rewrite Hs).
  assert (∀ k, k ∈ Body._selectedRowKeys v'
               ↔ (if b then (k ∈ page) ∨ (k ∈ Body._selectedRowKeys v)
                  else (k ∉ page) ∧ (k ∈ Body._selectedRowKeys v))) as Hmem.
  { intros k. rewrite Hsel. apply elem_of_apply_keys. }
  split; [done|]. split; [|split; [|split; [|split]]].
  - intros k Hk. rewrite Hmem. destruct b; tauto.
  - intros Hen Hcb. rewrite Hv'. cbn [Body._headerSelectCheckbox Body.emit].
    rewrite (header_after_sync cfg v1 Hen Hcb).
    change (Body._pageParentRowKeys v1) with page.
    change (Body._selectedRowKeys v1)
      with (Body.apply_keys b page (Body._selectedRowKeys v)).
    set (sel' := Body.apply_keys b page (Body._selectedRowKeys v)).
    assert (∀ k, k ∈ page → Body.set_has k sel' = b) as Hall.
    { intros k Hk. unfold Body.set_has.
      destruct b; [apply bool_decide_eq_true|apply bool_decide_eq_false];
        subst sel'; rewrite elem_of_apply_keys; tauto. }
    by rewrite (uniform_header _ page b Hall).
  - rewrite Hv'. cbn [Body._rowDataByKey Body.emit]. by rewrite Hd.
  - rewrite Hv'. cbn [Body._pageParentRowKeys Body.emit]. by rewrite Hp.
  - rewrite Hsel. rewrite Hv'. cbn [Body.emitted Body.emit].
    by rewrite He, Hp, Hs.
Qed.

Lemma forallb_false_exists {A} (f : A → bool) (l : list A) :
  forallb f l = false → ∃ x, x ∈ l ∧ f x = false.
Proof.
  induction l as [|x l IH]; simpl; [done|].
  destruct (f x) eqn:Hx; simpl.
  - intros (y & Hy & Hfy)%IH. exists y. split; [by right|done].
  - intros _. exists x. split; [by left|done].
Qed.

(** X13. The header checkbox tells the state of the page: after a sync
    it is checked exactly when the page has rows and the key of every one of
    them is selected, and in the mixed state exactly when some key of the
    page is selected and some is not. *)
Theorem header_reflects_selection (cfg : Body.config) (v : Body.view)
    (c i : bool) :
  Body.select_enabled cfg = true →
  Body._headerSelectCheckbox (Body._syncSelectionDomAndHeader cfg v)
  = Some (c, i) →
  let page := Body._pageParentRowKeys v in
  let sel := Body._selectedRowKeys v in
  (c = true ↔ page ≠ [] ∧ ∀ k, k ∈ page → k ∈ sel)
  ∧ (i = true ↔ (∃ k, k ∈ page ∧ k ∈ sel) ∧ (∃ k, k ∈ page ∧ k ∉ sel)).
Proof.
  intros Hen Hh page sel.
  assert (is_Some (Body._headerSelectCheckbox v)) as Hcb.
  { unfold Body._syncSelectionDomAndHeader,
      Body._updateHeaderSelectCheckboxState in Hh.
    rewrite Hen in Hh. cbn [negb] in Hh.
    destruct (Body._headerSelectCheckbox v) eqn:E; [done|].
    rewrite E in Hh. done. }
  rewrite (header_after_sync cfg v Hen Hcb) in Hh. fold page sel in Hh.
  injection Hh as <- <-.
  set (f := λ k, Body.set_has k sel).
  assert (forallb f page = true ↔ ∀ k, k ∈ page → k ∈ sel) as Hall.
  { rewrite forallb_forall. setoid_rewrite <-list_elem_of_In.
    subst f. unfold Body.set_has. by setoid_rewrite bool_decide_eq_true. }
  assert (existsb f page = true ↔ ∃ k, k ∈ page ∧ k ∈ sel) as Hex.
  { rewrite existsb_exists. setoid_rewrite <-list_elem_of_In.
    subst f. unfold Body.set_has. by setoid_rewrite bool_decide_eq_true. }
  split.
  - rewrite andb_true_iff, Hall, Hex. split.
    + intros [(k & Hk & _) Ha]. split; [|done]. intros ->. by apply elem_of_nil in Hk.
    + intros [Hne Ha]. split; [|done].
      destruct page as [|k page']; [done|]. exists k. split; [by left|].
      apply Ha. by left.
  - rewrite andb_true_iff, negb_true_iff, Hex. split.
    + intros [Hsome Hna]. split; [done|].
      apply forallb_false_exists in Hna as (k & Hk & Hfk).
      exists k. split; [done|]. subst f. unfold Body.set_has in Hfk.
      by apply bool_decide_eq_false in Hfk.
    + intros [Hsome (k & Hk & Hnk)]. split; [done|].
      apply not_true_iff_false. rewrite Hall. intros Ha. by apply Hnk, Ha.
Qed.

(** X14. Selecting a row through the API and unselecting it again
    leaves the selection as it was, in the same order; in between the key
    is selected and is the last of [getSelectedRowKeys]; the empty key is
    ignored by both calls.  Nothing checks that the key is that of a known
    row: an unknown key is selected all the same. *)
Theorem select_unselect_round_trip (cfg : Body.config) (k : string)
    (v : Body.view) :
  k ≠ "" →
  k ∉ Body._selectedRowKeys v →
  let v1 := Body.selectRow cfg k v in
  let v2 := Body.unselectRow cfg k v1 in
  Body.getSelectedRowKeys v1 = Body.getSelectedRowKeys v ++ [k]
  ∧ Body.getSelectedRowKeys (Body.selectRow cfg k v1) = Body.getSelectedRowKeys v1
  ∧ Body.getSelectedRowKeys v2 = Body.getSelectedRowKeys v
  ∧ Body.selectRow cfg "" v = v
  ∧ Body.unselectRow cfg "" v = v.
Proof.
  intros Hk Hnot v1 v2.
  assert (∀ u, Body._selectedRowKeys (Body._syncSelectionDomAndHeader cfg u)
               = Body._selectedRowKeys u) as Hsync.
  { intros u. unfold Body._syncSelectionDomAndHeader,
      Body._updateHeaderSelectCheckboxState.
    destruct (negb _); [done|]. destruct (Body._headerSelectCheckbox u); [|done].
    repeat (match goal with |- context [if ?c then _ else _] => destruct c end);
      done. }
  assert ((k =? "")%string = false) as Hk' by (by apply String.eqb_neq).
  assert (Body.getSelectedRowKeys v1 = Body.getSelectedRowKeys v ++ [k]) as H1.
  { subst v1. unfold Body.selectRow, Body.getSelectedRowKeys.
    rewrite Hk', Hsync. cbn [Body._selectedRowKeys Body.with_selected].
    unfold Body.set_add. by rewrite bool_decide_eq_false_2. }
  split; [done|]. split; [|split; [|done]].
  - unfold Body.selectRow at 1, Body.getSelectedRowKeys at 1.
    rewrite Hk', Hsync. cbn [Body._selectedRowKeys Body.with_selected].
    unfold Body.getSelectedRowKeys in H1. rewrite H1.
    unfold Body.set_add. rewrite bool_decide_eq_true_2; [done|].
    apply elem_of_app. right. by left.
  - subst v2. unfold Body.unselectRow, Body.getSelectedRowKeys.
    rewrite Hk', Hsync. cbn [Body._selectedRowKeys Body.with_selected].
    unfold Body.getSelectedRowKeys in H1. rewrite H1.
    unfold Body.set_delete. rewrite List.filter_app. simpl.
    rewrite String.eqb_refl. simpl. rewrite app_nil_r.
    apply forallb_filter_id. apply forallb_forall. intros x Hx.
    apply negb_true_iff, String.eqb_neq. intros ->.
    by apply Hnot, list_elem_of_In.
Qed.

(** X15. [getSelectedRows] answers with the rows of the selected keys
    that have been rendered at some time, in the order of selection, and
    passes over the other keys: its rows are, one by one and in this
    order, the rows recorded for the selected keys that have a row; so it
    never has more rows than there are selected keys, and has the row of
    every key, position by position, when every selected key has one.
    Selecting a key that is not selected puts the key at the end of the
    selected keys, and its row at the end of the selected rows when the key
    has one: selecting a key that no rendered row had adds a key and no
    row. *)
Theorem selected_rows_known (cfg : Body.config) (v : Body.view) :
  let keys := Body.getSelectedRowKeys v in
  let recorded k r := Body._rowDataByKey v !! k = Some r in
  let known := filter (λ k, is_Some (Body._rowDataByKey v !! k)) keys in
  Forall2 recorded known (Body.getSelectedRows v)
  ∧ (length (Body.getSelectedRows v) ≤ length keys)%nat
  ∧ ((∀ k, k ∈ keys → is_Some (Body._rowDataByKey v !! k)) →
     Forall2 recorded keys (Body.getSelectedRows v))
  ∧ (∀ k, k ≠ "" → k ∉ keys →
          Body.getSelectedRowKeys (Body.selectRow cfg k v) = keys ++ [k]
          ∧ Body.getSelectedRows (Body.selectRow cfg k v)
            = Body.getSelectedRows v
              ++ match Body._rowDataByKey v !! k with
                 | Some r => [r]
                 | None => []
                 end).
Proof.
  intros keys recorded known.
  assert (Forall2 recorded known (Body.getSelectedRows v)) as Hknown.
  { subst known recorded. unfold Body.getSelectedRows. fold keys.
    clearbody keys.
    induction keys as [|k l IH]; [constructor|].
    rewrite filter_cons. cbn [omap list_omap].
    change (list_omap _ _ ?f l) with (omap f l).
    destruct (Body._rowDataByKey v !! k) as [r|] eqn:Hk.
    - rewrite decide_True by done. by constructor.
    - rewrite decide_False by (by intros [? ?]). exact IH. }
  split; [exact Hknown|]. split; [|split].
  - rewrite <-(Forall2_length _ _ _ Hknown). apply length_filter.
  - intros Hall. replace keys with known; [exact Hknown|].
    subst known. clear Hknown. induction keys as [|k l IH]; [done|].
    rewrite filter_cons, decide_True by (apply Hall; by left).
    f_equal. apply IH. intros k' Hk'. apply Hall. by right.
  - intros k Hne Hk. unfold Body.selectRow.
    rewrite (proj2 (String.eqb_neq k "") Hne).
    assert (∀ u, Body._selectedRowKeys (Body._syncSelectionDomAndHeader cfg u)
                 = Body._selectedRowKeys u
                 ∧ Body._rowDataByKey (Body._syncSelectionDomAndHeader cfg u)
                   = Body._rowDataByKey u) as Hsync.
    { intros u. unfold Body._syncSelectionDomAndHeader,
        Body._updateHeaderSelectCheckboxState.
      destruct (negb _); [done|]. destruct (Body._headerSelectCheckbox u); [|done].
      repeat (match goal with |- context [if ?c then _ else _] => destruct c end);
        done. }
    unfold Body.getSelectedRows, Body.getSelectedRowKeys.
    rewrite (proj1 (Hsync _)), (proj2 (Hsync _)).
    cbn [Body._selectedRowKeys Body._rowDataByKey Body.with_selected].
    unfold Body.set_add. rewrite bool_decide_eq_false_2 by exact Hk.
    split; [done|]. rewrite omap_app. by f_equal.
Qed.

Lemma header_reflects_selection_witness :
  let page := Body._pageParentRowKeys Sample.view1 in
  let sel := Body._selectedRowKeys Sample.view1 in
  Body.select_enabled Sample.body_cfg = true
  ∧ Body._headerSelectCheckbox
      (Body._syncSelectionDomAndHeader Sample.body_cfg Sample.view1)
    = Some (false, true)
  ∧ (false = true ↔ page ≠ [] ∧ ∀ k, k ∈ page → k ∈ sel)
  ∧ (true = true ↔ (∃ k, k ∈ page ∧ k ∈ sel) ∧ (∃ k, k ∈ page ∧ k ∉ sel)).
Proof.
  intros page sel.
  assert (Body.select_enabled Sample.body_cfg = true) as H1 by reflexivity.
  assert (Body._headerSelectCheckbox
            (Body._syncSelectionDomAndHeader Sample.body_cfg Sample.view1)
          = Some (false, true)) as H2 by (vm_compute; reflexivity).
  split; [exact H1|]. split; [exact H2|].
  exact (header_reflects_selection Sample.body_cfg Sample.view1 false true H1 H2).
Defined.

Lemma select_unselect_round_trip_witness :
  let v := Sample.view1 in
  let v1 := Body.selectRow Sample.body_cfg "2" v in
  let v2 := Body.unselectRow Sample.body_cfg "2" v1 in
  "2" ≠ ""
  ∧ ("2" ∉ Body._selectedRowKeys v)
  ∧ Body.getSelectedRowKeys v1 = Body.getSelectedRowKeys v ++ ["2"]
  ∧ Body.getSelectedRowKeys (Body.selectRow Sample.body_cfg "2" v1)
    = Body.getSelectedRowKeys v1
  ∧ Body.getSelectedRowKeys v2 = Body.getSelectedRowKeys v
  ∧ Body.selectRow Sample.body_cfg "" v = v
  ∧ Body.unselectRow Sample.body_cfg "" v = v.
Proof.
  intros v v1 v2.
  assert ("2" ≠ "") as H1 by discriminate.
  assert ("2" ∉ Body._selectedRowKeys v) as H2.
  { apply (bool_decide_unpack (_ ∉ _)). vm_compute. exact I. }
  split; [exact H1|]. split; [exact H2|].
  exact (select_unselect_round_trip Sample.body_cfg "2" v H1 H2).
Defined.

(** ** Grouping *)

Lemma foldl_set_add_elem (l acc : list string) (x : string) :
  x ∈ foldl (λ acc k, Body.set_add k acc) acc l ↔ x ∈ acc ∨ x ∈ l.
Proof.
  revert acc. induction l as [|k l IH]; intros acc; simpl.
  - rewrite elem_of_nil. tauto.
  - rewrite IH, elem_of_set_add, elem_of_cons. tauto.
Qed.

Lemma elem_of_first_seen (l : list string) (x : string) :
  x ∈ first_seen l ↔ x ∈ l.
Proof.
  unfold first_seen. rewrite foldl_set_add_elem, elem_of_nil. tauto.
Qed.

Lemma first_seen_snoc (l : list string) (k : string) :
  first_seen (l ++ [k]) = Body.set_add k (first_seen l).
Proof. unfold first_seen. by rewrite foldl_app. Qed.

Lemma NoDup_first_seen (l : list string) : NoDup (first_seen l).
Proof.
  induction l as [|k l IH] using rev_ind; [constructor|].
  rewrite first_seen_snoc. by apply NoDup_set_add.
Qed.

Lemma perm_snoc_middle {A} (a b c : list A) (x : A) :
  a ++ (b ++ [x]) ++ c ≡ₚ (a ++ b ++ c) ++ [x].
Proof.
  rewrite <-!app_assoc. do 2 apply Permutation_app_head.
  apply Permutation_app_comm.
Qed.

Section Grouping.
Variable stringify : list jsval → string.
Variable cfg : Body.config.
Variable h : heap.

Lemma groups_inv_nil : groups_inv stringify cfg h [] [] ∅.
Proof.
  split; try done.
  - intros g Hg. by apply elem_of_nil in Hg.
  - intros g Hg. by apply elem_of_nil in Hg.
Qed.

Lemma filter_snoc_key (k k' : string) (seen : list ref) (r : ref) :
  group_key_of stringify cfg h r = k →
  List.filter (λ r, String.eqb (group_key_of stringify cfg h r) k') (seen ++ [r])
  = List.filter (λ r, String.eqb (group_key_of stringify cfg h r) k') seen
    ++ (if String.eqb k k' then [r] else []).
Proof. intros <-. rewrite List.filter_app. simpl. by destruct (String.eqb _ k'). Qed.

Lemma group_add_row_inv seen gs idx r :
  groups_inv stringify cfg h seen gs idx →
  ∃ gs' idx',
    Body.group_add_row stringify cfg h (Some (gs, idx)) r = Some (gs', idx')
    ∧ groups_inv stringify cfg h (seen ++ [r]) gs' idx'.
Proof.
  intros [Hindex Hlookup Hrows Hkeys Hperm Hvalues].
  unfold Body.group_add_row. cbn [mbind option_bind].
  fold (group_key_of stringify cfg h r).
  set (k := group_key_of stringify cfg h r).
  assert (∀ g, g ∈ gs → Body.gkey g ∈ Body.gkey <$> gs) as Hin.
  { intros g Hg. apply list_elem_of_fmap. by exists g. }
  destruct (idx !! k) as [i|] eqn:Hi.
  - destruct (Hlookup k i Hi) as (g & Hg & Hgk).
    rewrite Hg. cbn [mbind option_bind].
    set (g' := {| Body.gkey := Body.gkey g; Body.gvalues := Body.gvalues g;
                  Body.grows := Body.grows g ++ [r] |}).
    exists (<[i := g']> gs), idx. split; [done|].
    assert (i < length gs)%nat as Hlt by (by eapply lookup_lt_Some).
    assert (∀ j g2, <[i := g']> gs !! j = Some g2 →
              (j = i ∧ g2 = g') ∨ (j ≠ i ∧ gs !! j = Some g2)) as Hcases.
    { intros j g2 Hj. apply list_lookup_insert_Some in Hj. naive_solver. }
    split.
    + intros j g2 Hj. destruct (Hcases j g2 Hj) as [[-> ->]|[? Hj']].
      * simpl. by rewrite Hgk.
      * by apply Hindex.
    + intros k2 j Hj. destruct (Hlookup k2 j Hj) as (g2 & Hg2 & Hk2).
      destruct (decide (j = i)) as [->|Hne].
      * exists g'. rewrite list_lookup_insert_eq by done. split; [done|].
        simpl. congruence.
      * exists g2. by rewrite list_lookup_insert_ne.
    + intros g2 Hg2. apply list_elem_of_lookup in Hg2 as [j Hj].
      destruct (Hcases j g2 Hj) as [[-> ->]|[Hne Hj']].
      * simpl. rewrite (filter_snoc_key k) by done.
        destruct (Hrows g) as [-> _]; [by eapply list_elem_of_lookup_2|].
        rewrite <-Hgk, String.eqb_refl.
        split; [done|]. by destruct (List.filter _ seen).
      * destruct (Hrows g2) as [Hr Hn]; [by eapply list_elem_of_lookup_2|].
        split; [|done]. rewrite (filter_snoc_key k) by done.
        destruct (String.eqb_spec k (Body.gkey g2)) as [Heq|_];
          [|by rewrite app_nil_r].
        exfalso. apply Hne. pose proof (Hindex j g2 Hj') as Hj2.
        rewrite <-Heq, Hi in Hj2. by injection Hj2.
    + rewrite list_fmap_insert. simpl. rewrite list_insert_id
        by (rewrite list_lookup_fmap, Hg; done).
      rewrite fmap_app.
      change (group_key_of stringify cfg h <$> [r]) with [k].
      rewrite first_seen_snoc.
      rewrite <-Hkeys. unfold Body.set_add. rewrite bool_decide_eq_true_2; [done|].
      rewrite <-Hgk. apply Hin. by eapply list_elem_of_lookup_2.
    + assert (concat (Body.grows <$> gs)
              = concat (Body.grows <$> take i gs)
                ++ Body.grows g ++ concat (Body.grows <$> drop (S i) gs))
        as Hsplit.
      { rewrite <-(take_drop_middle gs i g Hg) at 1.
        by rewrite fmap_app, fmap_cons, concat_app, concat_cons. }
      rewrite <-Hperm, Hsplit, insert_take_drop by done.
      rewrite fmap_app, fmap_cons, concat_app, concat_cons.
      apply perm_snoc_middle.
    + intros g2 Hg2. apply list_elem_of_lookup in Hg2 as [j Hj].
      destruct (Hcases j g2 Hj) as [[-> ->]|[Hne Hj']].
      * destruct (Hvalues g) as (r0 & Hr0 & Hv); [by eapply list_elem_of_lookup_2|].
        exists r0. simpl. split; [|done].
        destruct (Body.grows g); [done|]. done.
      * apply Hvalues. by eapply list_elem_of_lookup_2.
  - set (g' := {| Body.gkey := k;
                  Body.gvalues := Body.group_values (Body.grouping_keys cfg)
                                    (Body.key_parts cfg (deref h r));
                  Body.grows := [r] |}).
    exists (gs ++ [g']), (<[k := length gs]> idx). split; [done|].
    assert (∀ g, g ∈ gs → Body.gkey g ≠ k) as Hfresh.
    { intros g Hg Hk. apply list_elem_of_lookup in Hg as [j Hj].
      pose proof (Hindex j g Hj) as Hj2. rewrite Hk, Hi in Hj2. done. }
    assert (k ∉ group_key_of stringify cfg h <$> seen) as Hunseen.
    { rewrite <-elem_of_first_seen, <-Hkeys. intros Hk.
      apply list_elem_of_fmap in Hk as (g & Hgk & Hg). by apply (Hfresh g). }
    assert (List.filter (λ r, String.eqb (group_key_of stringify cfg h r) k) seen
            = []) as Hnone.
    { clear -Hunseen. induction seen as [|r0 seen' IH]; simpl; [done|].
      rewrite fmap_cons, not_elem_of_cons in Hunseen.
      destruct Hunseen as [Hne Hrest].
      destruct (String.eqb_spec (group_key_of stringify cfg h r0) k); [done|].
      by apply IH. }
    split.
    + intros j g2 Hj. apply lookup_app_Some in Hj as [Hj|[Hge Hj]].
      * rewrite lookup_insert_ne; [by apply Hindex|].
        intros Heq. apply (Hfresh g2); [by eapply list_elem_of_lookup_2|done].
      * apply list_lookup_singleton_Some in Hj as [Hj <-]. simpl.
        rewrite lookup_insert_eq. f_equal. lia.
    + intros k2 j Hj. apply lookup_insert_Some in Hj as [[<- <-]|[Hne Hj]].
      * exists g'. split; [|done]. by rewrite lookup_app_r, Nat.sub_diag.
      * destruct (Hlookup k2 j Hj) as (g2 & Hg2 & Hk2). exists g2.
        split; [|done]. by apply lookup_app_l_Some.
    + intros g2 Hg2. apply elem_of_app in Hg2 as [Hg2|Hg2].
      * destruct (Hrows g2 Hg2) as [Hr Hn]. split; [|done].
        rewrite (filter_snoc_key k) by done.
        destruct (String.eqb_spec k (Body.gkey g2)) as [Heq|_];
          [|by rewrite app_nil_r].
        exfalso. by apply (Hfresh g2).
      * apply list_elem_of_singleton in Hg2 as ->. simpl. split; [|done].
        rewrite (filter_snoc_key k) by done.
        by rewrite Hnone, String.eqb_refl.
    + rewrite !fmap_app.
      change (group_key_of stringify cfg h <$> [r]) with [k].
      rewrite first_seen_snoc, <-Hkeys.
      unfold Body.set_add. rewrite bool_decide_eq_false_2; [done|].
      intros Hk. apply list_elem_of_fmap in Hk as (g & Hgk & Hg).
      by apply (Hfresh g).
    + rewrite fmap_app, concat_app. simpl. by rewrite Hperm.
    + intros g2 Hg2. apply elem_of_app in Hg2 as [Hg2|Hg2]; [by apply Hvalues|].
      apply list_elem_of_singleton in Hg2 as ->. by exists r.
Qed.

Lemma buildGroups_inv_from seen gs idx rows :
  groups_inv stringify cfg h seen gs idx →
  ∃ gs' idx',
    foldl (Body.group_add_row stringify cfg h) (Some (gs, idx)) rows
    = Some (gs', idx')
    ∧ groups_inv stringify cfg h (seen ++ rows) gs' idx'.
Proof.
  revert seen gs idx. induction rows as [|r rows IH]; intros seen gs idx Hinv.
  - exists gs, idx. by rewrite app_nil_r.
  - destruct (group_add_row_inv seen gs idx r Hinv) as (gs1 & idx1 & Hstep & Hinv1).
    destruct (IH _ _ _ Hinv1) as (gs' & idx' & Hfold & Hinv').
    exists gs', idx'. cbn [foldl]. rewrite Hstep. split; [done|].
    by rewrite <-app_assoc in Hinv'.
Qed.

Lemma buildGroups_inv rows :
  ∃ gs idx,
    Body._buildGroups stringify cfg h rows = Some gs
    ∧ groups_inv stringify cfg h rows gs idx.
Proof.
  destruct (buildGroups_inv_from [] [] ∅ rows groups_inv_nil)
    as (gs & idx & Hfold & Hinv).
  exists gs, idx. unfold Body._buildGroups. by rewrite Hfold.
Qed.

Lemma groups_inv_NoDup seen gs idx :
  groups_inv stringify cfg h seen gs idx → NoDup (Body.gkey <$> gs).
Proof. intros Hinv. rewrite (gi_keys _ _ _ _ _ _ Hinv). apply NoDup_first_seen. Qed.

(** X16. [_buildGroups] never throws and partitions the rows of the
    page: every row is in exactly one group, the rows of a group are the
    rows of the page with the group's key, in the order of the page, and
    no group is empty. *)
Theorem buildGroups_partition (rows : list ref) :
  ∃ gs,
    Body._buildGroups stringify cfg h rows = Some gs
    ∧ concat (Body.grows <$> gs) ≡ₚ rows
    ∧ (∀ g, g ∈ gs →
         Body.grows g
         = List.filter (λ r, String.eqb (group_key_of stringify cfg h r)
                                        (Body.gkey g)) rows
         ∧ Body.grows g ≠ [])
    ∧ (∀ r, r ∈ rows →
         ∃ g, g ∈ gs ∧ Body.gkey g = group_key_of stringify cfg h r
              ∧ r ∈ Body.grows g).
Proof.
  destruct (buildGroups_inv rows) as (gs & idx & Hb & Hinv).
  exists gs. split; [done|]. split; [apply (gi_perm _ _ _ _ _ _ Hinv)|].
  split; [apply (gi_rows _ _ _ _ _ _ Hinv)|].
  intros r Hr.
  assert (group_key_of stringify cfg h r ∈ Body.gkey <$> gs) as Hk.
  { rewrite (gi_keys _ _ _ _ _ _ Hinv), elem_of_first_seen.
    apply list_elem_of_fmap. by exists r. }
  apply list_elem_of_fmap in Hk as (g & Hgk & Hg).
  exists g. split; [done|]. split; [done|].
  destruct (gi_rows _ _ _ _ _ _ Hinv g Hg) as [-> _].
  apply list_elem_of_In, List.filter_In. split; [by apply list_elem_of_In|].
  rewrite Hgk. apply String.eqb_refl.
Qed.

(** X17. The groups come in the order in which their keys first
    appear on the page; no two groups have the same key; and the values
    of a group are the key parts of its first row. *)
Theorem buildGroups_order (rows : list ref) :
  ∃ gs,
    Body._buildGroups stringify cfg h rows = Some gs
    ∧ Body.gkey <$> gs = first_seen (group_key_of stringify cfg h <$> rows)
    ∧ NoDup (Body.gkey <$> gs)
    ∧ (∀ g, g ∈ gs →
         ∃ r, head (Body.grows g) = Some r
              ∧ Body.gvalues g
                = Body.group_values (Body.grouping_keys cfg)
                    (Body.key_parts cfg (deref h r))).
Proof.
  destruct (buildGroups_inv rows) as (gs & idx & Hb & Hinv).
  exists gs. split; [done|]. split; [apply (gi_keys _ _ _ _ _ _ Hinv)|].
  split; [by eapply groups_inv_NoDup|apply (gi_values _ _ _ _ _ _ Hinv)].
Qed.

End Grouping.

(** ** Rendering the body *)

Section Rendering.
Context `{JsEnv}.
Variable cfg : Body.config.

Lemma hasChildRows_children (row : obj) :
  Body._hasChildRows cfg row = true →
  ∃ c cs, _getChildrenForRow (Body.tbl cfg) row = Some (c :: cs).
Proof.
  unfold Body._hasChildRows.
  destruct (_getChildrenForRow _ _) as [[|c cs]|]; try done. by exists c, cs.
Qed.

Lemma hasChildRows_none (row : obj) :
  Body._hasChildRows cfg row = false →
  _getChildrenForRow (Body.tbl cfg) row = None.
Proof.
  unfold Body._hasChildRows, _getChildrenForRow.
  destruct (negb _); [done|].
  destruct (prop row _) as [| | | | |[|c cs]|]; done.
Qed.

(** One turn of the loop over the parent rows. *)
Lemma render_parent_spec (ae : bool) (gk : option string) (i : nat) (r : ref)
    (v : Body.view) (frag : list Body.tr) :
  let h := Body.v_heap v in
  let key := parent_key cfg h i r in
  let v' := (Body.render_parent cfg ae gk i r (v, frag)).1 in
  let frag' := (Body.render_parent cfg ae gk i r (v, frag)).2 in
  Body.v_heap v' = h
  ∧ Body._selectedRowKeys v' = Body._selectedRowKeys v
  ∧ Body._headerSelectCheckbox v' = Body._headerSelectCheckbox v
  ∧ Body._childRowsInitialized v' = Body._childRowsInitialized v
  ∧ Body.emitted v' = Body.emitted v
  ∧ Body.tbody v' = Body.tbody v
  ∧ Body._pageParentRowKeys v' = Body._pageParentRowKeys v ++ [key]
  ∧ Body._rowDataByKey v' = <[key := r]> (Body._rowDataByKey v)
  ∧ Body._pageGroupRowKeyMap v'
    = match gk with
      | Some g => (λ m, <[g := default [] (m !! g) ++ [key]]> m)
                    <$> Body._pageGroupRowKeyMap v
      | None => Body._pageGroupRowKeyMap v
      end
  ∧ Body._expandedRowKeys v'
    = (if Body._hasChildRows cfg (deref h r) && ae
       then Body.set_add key (Body._expandedRowKeys v)
       else Body._expandedRowKeys v)
  ∧ frag' = frag ++ parent_block cfg h (Body._expandedRowKeys v) ae gk i r.
Proof.
  intros h key v' frag'. subst v' frag'.
  unfold Body.render_parent, parent_block, shown_expanded.
  fold h. fold (parent_key cfg h i r). fold key.
  destruct (Body._hasChildRows cfg (deref h r)) eqn:Hhas.
  - destruct (hasChildRows_children _ Hhas) as (c & cs & ->).
    destruct ae; cbn [andb orb].
    + assert (key ∈ Body._expandedRowKeys v ++ [key]) as Hlast
        by (apply elem_of_app; right; by left).
      destruct gk; cbn; unfold Body.set_has, Body.set_add;
        (destruct (decide (key ∈ Body._expandedRowKeys v)) as [Hin|Hin];
         [repeat first [rewrite (bool_decide_eq_true_2 _ Hin)|progress cbn]; done
         |repeat first [rewrite (bool_decide_eq_false_2 _ Hin)
                       |rewrite (bool_decide_eq_true_2 _ Hlast)
                       |progress cbn]; done]).
    + destruct gk; cbn; done.
  - cbn [andb]. destruct gk; cbn; done.
Qed.

Lemma rows_rendered_nil ae gk n v frag : rows_rendered cfg ae gk n [] v frag v frag.
Proof.
  unfold rows_rendered. simpl. rewrite !app_nil_r.
  repeat split; try done.
  - destruct gk; [|done]. by destruct (Body._pageGroupRowKeyMap v).
  - by left.
  - intros [?|(_ & i & r & Hi & _)]; done.
Qed.

Lemma parent_block_before (h : heap) (e e' : list string) ae gk i r :
  (ae = false → e' = e) →
  parent_block cfg h e' ae gk i r = parent_block cfg h e ae gk i r.
Proof.
  intros He. unfold parent_block, shown_expanded.
  destruct ae; [done|]. by rewrite He.
Qed.

Lemma rows_rendered_cons ae gk n r rows v frag v1 frag1 v' frag' :
  rows_rendered cfg ae gk n [r] v frag v1 frag1 →
  rows_rendered cfg ae gk (S n) rows v1 frag1 v' frag' →
  rows_rendered cfg ae gk n (r :: rows) v frag v' frag'.
Proof.
  unfold rows_rendered. cbn [imap concat zip zip_with].
  intros (Hh & Hs & Hc & Hi & He & Hb & Hp & Hd & Hg & Hx & Hm & Hf).
  intros (Hh' & Hs' & Hc' & Hi' & He' & Hb' & Hp' & Hd' & Hg' & Hx' & Hm' & Hf').
  rewrite Hh in *.
  assert (∀ (f : nat → ref → string),
            imap ((λ i r, f (n + i)%nat r) ∘ S) rows
            = imap (λ i r, f (S n + i)%nat r) rows) as Hshift.
  { intros f. apply imap_ext. intros i x _. simpl. f_equal. lia. }
  assert (∀ (f : nat → ref → list Body.tr),
            imap ((λ i r, f (n + i)%nat r) ∘ S) rows
            = imap (λ i r, f (S n + i)%nat r) rows) as Hshift'.
  { intros f. apply imap_ext. intros i x _. simpl. f_equal. lia. }
  rewrite (Hshift (parent_key cfg (Body.v_heap v))).
  rewrite (Hshift' (λ j, parent_block cfg (Body.v_heap v)
                           (Body._expandedRowKeys v) ae gk j)).
  set (ks := imap (λ i r, parent_key cfg (Body.v_heap v) (S n + i) r) rows) in *.
  set (k0 := parent_key cfg (Body.v_heap v) (n + 0) r) in *.
  split; [done|]. split; [congruence|]. split; [congruence|].
  split; [congruence|]. split; [congruence|]. split; [congruence|].
  split; [rewrite Hp', Hp; by rewrite <-app_assoc|].
  split; [rewrite Hd', Hd; done|].
  split.
  { rewrite Hg', Hg. destruct gk as [g|]; [|done].
    destruct (Body._pageGroupRowKeyMap v); done. }
  split; [intros Hae; rewrite Hx', Hx; done|].
  split.
  - intros k. rewrite Hm', Hm. split.
    + intros [[?|(Hae & i & x & Hix & Hk & Hc0)]|(Hae & i & x & Hix & Hk & Hc0)].
      * by left.
      * right. split; [done|]. destruct i; [|done]. exists 0%nat, x. done.
      * right. split; [done|]. exists (S i), x. split; [done|].
        split; [|done]. rewrite <-Hk. f_equal. lia.
    + intros [?|(Hae & i & x & Hix & Hk & Hc0)]; [by left; left|].
      destruct i as [|i].
      * left. right. split; [done|]. exists 0%nat, x. done.
      * right. split; [done|]. exists i, x. split; [done|].
        split; [|done]. rewrite <-Hk. f_equal. lia.
  - rewrite Hf', Hf. rewrite app_nil_r, <-app_assoc. do 3 f_equal.
    apply imap_ext. intros i x _. by apply parent_block_before.
Qed.

Lemma render_rows_spec ae gk rows :
  ∀ n v frag,
    rows_rendered cfg ae gk n rows v frag
      (render_rows cfg ae gk n rows (v, frag)).1
      (render_rows cfg ae gk n rows (v, frag)).2.
Proof.
  induction rows as [|r rows IH]; intros n v frag.
  - apply rows_rendered_nil.
  - unfold render_rows. cbn [imap foldl fst snd].
    destruct (Body.render_parent cfg ae gk (n + 0) r (v, frag)) as [v1 frag1] eqn:Hstep.
    assert (rows_rendered cfg ae gk n [r] v frag v1 frag1) as H1.
    { pose proof (render_parent_spec ae gk (n + 0) r v frag) as Hspec.
      rewrite Hstep in Hspec. cbn [fst snd] in Hspec.
      destruct Hspec as (Hh & Hs & Hc & Hi & He & Hb & Hp & Hd & Hg & Hx & Hf).
      unfold rows_rendered. cbn [imap concat zip zip_with].
      rewrite app_nil_r.
      repeat (split; [done|]).
      split. { intros ->. rewrite Hx. by rewrite andb_false_r. }
      split; [|done].
      intros k. rewrite Hx.
      destruct (Body._hasChildRows cfg (deref (Body.v_heap v) r)) eqn:Hhas;
        destruct ae; cbn [andb].
      - rewrite elem_of_set_add. split.
        + intros [->|?]; [|by left]. right. split; [done|].
          exists 0%nat, r. done.
        + intros [?|(_ & i & x & Hix & Hk & _)]; [by right|].
          destruct i; [|done]. injection Hix as <-. by left.
      - split; [by left|]. intros [?|[? _]]; done.
      - split; [by left|]. intros [?|(_ & i & x & Hix & Hk & Hc0)]; [done|].
        destruct i; [|done]. injection Hix as <-. congruence.
      - split; [by left|]. intros [?|[? _]]; done. }
    eapply rows_rendered_cons; [exact H1|].
    assert (imap ((λ i r0, ((n + i)%nat, r0)) ∘ S) rows
            = imap (λ i r0, ((S n + i)%nat, r0)) rows) as ->.
    { apply imap_ext. intros i x _. simpl. f_equal. lia. }
    apply (IH (S n) v1 frag1).
Qed.

End Rendering.

Lemma imap_plus_0 {A B} (f : nat → A → B) (l : list A) :
  imap (λ i x, f (0 + i)%nat x) l = imap f l.
Proof. by apply imap_ext. Qed.

Lemma store_rows_snoc krs k r m :
  store_rows (krs ++ [(k, r)]) m = <[k := r]> (store_rows krs m).
Proof. unfold store_rows. by rewrite foldl_app. Qed.

Lemma store_rows_keeps krs m k :
  is_Some (m !! k) → is_Some (store_rows krs m !! k).
Proof.
  induction krs as [|[k' r'] krs IH] using rev_ind; [done|].
  intros Hk. rewrite store_rows_snoc.
  destruct (decide (k' = k)) as [->|Hne].
  - rewrite lookup_insert_eq. by eexists.
  - rewrite lookup_insert_ne by done. by apply IH.
Qed.

Lemma store_rows_known krs m k r :
  (k, r) ∈ krs → ∃ r', store_rows krs m !! k = Some r' ∧ (k, r') ∈ krs.
Proof.
  induction krs as [|[k' r'] krs IH] using rev_ind; intros Hk.
  - by apply elem_of_nil in Hk.
  - rewrite store_rows_snoc.
    destruct (decide (k' = k)) as [->|Hne].
    + exists r'. rewrite lookup_insert_eq. split; [done|].
      apply elem_of_app. right. by left.
    + rewrite lookup_insert_ne by done.
      apply elem_of_app in Hk as [Hk|Hk].
      * destruct (IH Hk) as (r0 & Hr0 & Hin). exists r0. split; [done|].
        apply elem_of_app. by left.
      * apply list_elem_of_singleton in Hk. congruence.
Qed.

Lemma store_rows_other krs m k :
  k ∉ krs.*1 → store_rows krs m !! k = m !! k.
Proof.
  induction krs as [|[k' r'] krs IH] using rev_ind; intros Hk; [done|].
  rewrite store_rows_snoc. rewrite fmap_app, not_elem_of_app in Hk.
  destruct Hk as [Hk Hk']. rewrite lookup_insert_ne; [by apply IH|].
  intros ->. apply Hk'. by left.
Qed.

Section RenderingFlat.
Context `{JsEnv}.
Variable stringify : list jsval → string.
Variable cfg : Body.config.

Lemma renderBody_flat_eq (rows : list ref) (v : Body.view) :
  rows ≠ [] →
  Body._hasGrouping cfg = false →
  let ae := auto_expand cfg v in
  let out := render_rows cfg ae None 0 rows (Body.with_pageKeys (λ _, []) v, []) in
  Body._renderBody stringify cfg rows v
  = Some (if ae then Body.with_initialized true (Body.with_tbody out.2 out.1)
          else Body.with_tbody out.2 out.1).
Proof.
  intros Hrows Hflat ae out. unfold Body._renderBody. fold (auto_expand cfg v).
  fold ae. rewrite Hflat. destruct rows as [|r rows]; [done|].
  cbn [mbind option_bind]. done.
Qed.

(** X18. What a render of a page without grouping leaves in the
    ledgers: the page keys are the keys of the rows of the page, in their
    order; every one of them is known to [_rowDataByKey] afterwards, under
    the row that was rendered last with that key, and no key known before
    is forgotten; the selection is not touched.  Keys expanded before stay
    expanded; new ones are added only by the automatic expansion of the
    first render, which expands the rows that have children. *)
Theorem renderBody_flat_ledgers (rows : list ref) (v : Body.view) :
  rows ≠ [] →
  Body._hasGrouping cfg = false →
  ∃ v',
    Body._renderBody stringify cfg rows v = Some v'
    ∧ let h := Body.v_heap v in
      let ks := parent_keys cfg h rows in
      Body._pageParentRowKeys v' = ks
      ∧ Body._rowDataByKey v' = store_rows (zip ks rows) (Body._rowDataByKey v)
      ∧ (∀ k, k ∈ ks → ∃ r, Body._rowDataByKey v' !! k = Some r ∧ r ∈ rows)
      ∧ (∀ k, is_Some (Body._rowDataByKey v !! k) →
              is_Some (Body._rowDataByKey v' !! k))
      ∧ Body._selectedRowKeys v' = Body._selectedRowKeys v
      ∧ Body.v_heap v' = h
      ∧ (∀ k, k ∈ Body._expandedRowKeys v'
              ↔ k ∈ Body._expandedRowKeys v
                ∨ (auto_expand cfg v = true
                   ∧ ∃ i r, rows !! i = Some r
                            ∧ parent_key cfg h i r = k
                            ∧ Body._hasChildRows cfg (deref h r) = true)).
Proof.
  intros Hrows Hflat.
  pose proof (renderBody_flat_eq rows v Hrows Hflat) as Heq. simpl in Heq.
  set (ae := auto_expand cfg v) in *.
  set (v0 := Body.with_pageKeys (λ _, []) v) in *.
  pose proof (render_rows_spec cfg ae None rows 0 v0 []) as Hspec.
  destruct (render_rows cfg ae None 0 rows (v0, [])) as [v1 frag1].
  cbn [fst snd] in *.
  destruct Hspec as (Hh & Hs & Hc & Hi & He & Hb & Hp & Hd & Hg & Hx & Hm & Hf).
  rewrite !imap_plus_0 in *.
  change (Body.v_heap v0) with (Body.v_heap v) in *.
  change (Body._rowDataByKey v0) with (Body._rowDataByKey v) in *.
  change (Body._expandedRowKeys v0) with (Body._expandedRowKeys v) in *.
  change (Body._selectedRowKeys v0) with (Body._selectedRowKeys v) in *.
  change (Body._pageParentRowKeys v0) with (@nil string) in *.
  fold (parent_keys cfg (Body.v_heap v) rows) in *.
  set (ks := parent_keys cfg (Body.v_heap v) rows) in *.
  eexists. split; [exact Heq|].
  assert (∀ u, Body._pageParentRowKeys
                 (if ae then Body.with_initialized true (Body.with_tbody frag1 u)
                  else Body.with_tbody frag1 u) = Body._pageParentRowKeys u
             ∧ Body._rowDataByKey
                 (if ae then Body.with_initialized true (Body.with_tbody frag1 u)
                  else Body.with_tbody frag1 u) = Body._rowDataByKey u
             ∧ Body._selectedRowKeys
                 (if ae then Body.with_initialized true (Body.with_tbody frag1 u)
                  else Body.with_tbody frag1 u) = Body._selectedRowKeys u
             ∧ Body.v_heap
                 (if ae then Body.with_initialized true (Body.with_tbody frag1 u)
                  else Body.with_tbody frag1 u) = Body.v_heap u
             ∧ Body._expandedRowKeys
                 (if ae then Body.with_initialized true (Body.with_tbody frag1 u)
                  else Body.with_tbody frag1 u) = Body._expandedRowKeys u)
    as Hfin by (intros u; by destruct ae).
  destruct (Hfin v1) as (-> & -> & -> & -> & ->).
  split; [by rewrite Hp|]. split; [done|]. split; [|split; [|done]].
  - intros k Hk. rewrite Hd.
    apply list_elem_of_lookup in Hk as [i Hi'].
    assert (∃ r, rows !! i = Some r) as [r Hr].
    { apply lookup_lt_is_Some. apply lookup_lt_Some in Hi'.
      subst ks. unfold parent_keys in Hi'. by rewrite length_imap in Hi'. }
    assert ((k, r) ∈ zip ks rows) as Hin.
    { apply list_elem_of_lookup. exists i. by apply lookup_zip_Some. }
    destruct (store_rows_known _ (Body._rowDataByKey v) _ _ Hin) as (r' & Hr' & Hin').
    exists r'. split; [done|]. by apply elem_of_zip_r in Hin'.
  - intros k Hk. rewrite Hd. by apply store_rows_keeps.
Qed.

End RenderingFlat.

Lemma elem_of_concat {A} (x : A) (ls : list (list A)) :
  x ∈ concat ls ↔ ∃ l, x ∈ l ∧ l ∈ ls.
Proof.
  rewrite list_elem_of_In, in_concat. split.
  - intros (l & Hl & Hx). exists l. by rewrite !list_elem_of_In.
  - intros (l & Hx & Hl). exists l. by rewrite <-!list_elem_of_In.
Qed.

Lemma omap_imap_none {A B C} (p : B → option C) (g : nat → A → B) (l : list A) :
  (∀ i x, p (g i x) = None) → omap p (imap g l) = [].
Proof.
  revert g. induction l as [|x l IH]; intros g Hg; [done|].
  cbn [imap omap list_omap]. rewrite Hg. apply IH. intros i y. apply Hg.
Qed.

Section RenderingFlatBody.
Context `{JsEnv}.
Variable stringify : list jsval → string.
Variable cfg : Body.config.

Lemma parent_of_block h e ae gk i r :
  omap parent_of (parent_block cfg h e ae gk i r) = [(parent_key cfg h i r, r)].
Proof.
  unfold parent_block. cbn [omap list_omap parent_of]. f_equal.
  destruct (shown_expanded _ _ _ _ _ _); [|done].
  by apply omap_imap_none.
Qed.

Lemma parents_of_blocks h e ae gk (rows : list ref) :
  ∀ n,
    omap parent_of
      (concat (imap (λ i r, parent_block cfg h e ae gk (n + i) r) rows))
    = zip (imap (λ i r, parent_key cfg h (n + i) r) rows) rows.
Proof.
  induction rows as [|r rows IH]; intros n; [done|].
  cbn [imap concat zip zip_with]. rewrite omap_app, parent_of_block.
  cbn [app]. f_equal.
  rewrite (imap_ext _ (λ i r, parent_block cfg h e ae gk (S n + i) r))
    by (intros i x _; simpl; f_equal; lia).
  rewrite (imap_ext ((λ i r0, parent_key cfg h (n + i) r0) ∘ S)
             (λ i r, parent_key cfg h (S n + i) r))
    by (intros i x _; simpl; f_equal; lia).
  apply IH.
Qed.

(** X19. The body that a render of a page without grouping builds:
    the rows of the page, each once and in their order, every one followed
    by its child rows exactly when it has children and its key is among
    the expanded keys after the render.  A child row stands nowhere else:
    each one carries the key of the parent it stands under. *)
Theorem renderBody_flat_body (rows : list ref) (v : Body.view) :
  rows ≠ [] →
  Body._hasGrouping cfg = false →
  ∃ v',
    Body._renderBody stringify cfg rows v = Some v'
    ∧ let h := Body.v_heap v in
      Body.tbody v'
      = concat (imap (parent_block cfg h (Body._expandedRowKeys v') false None)
                     rows)
      ∧ omap parent_of (Body.tbody v') = zip (parent_keys cfg h rows) rows
      ∧ (∀ ck c pk gk,
           Body.DataTr ck c (Some pk) gk ∈ Body.tbody v' →
           pk ∈ Body._expandedRowKeys v'
           ∧ ∃ i r cs, rows !! i = Some r
                       ∧ parent_key cfg h i r = pk
                       ∧ _getChildrenForRow (Body.tbl cfg) (deref h r) = Some cs
                       ∧ c ∈ cs).
Proof.
  intros Hrows Hflat.
  pose proof (renderBody_flat_eq stringify cfg rows v Hrows Hflat) as Heq.
  simpl in Heq.
  set (ae := auto_expand cfg v) in *.
  set (v0 := Body.with_pageKeys (λ _, []) v) in *.
  pose proof (render_rows_spec cfg ae None rows 0 v0 []) as Hspec.
  destruct (render_rows cfg ae None 0 rows (v0, [])) as [v1 frag1].
  cbn [fst snd] in *.
  destruct Hspec as (Hh & Hs & Hc & Hi & He & Hb & Hp & Hd & Hg & Hx & Hm & Hf).
  rewrite !imap_plus_0 in *.
  change (Body.v_heap v0) with (Body.v_heap v) in *.
  change (Body._expandedRowKeys v0) with (Body._expandedRowKeys v) in *.
  set (h := Body.v_heap v) in *.
  eexists. split; [exact Heq|].
  assert (∀ u, Body.tbody
                 (if ae then Body.with_initialized true (Body.with_tbody frag1 u)
                  else Body.with_tbody frag1 u) = frag1
             ∧ Body._expandedRowKeys
                 (if ae then Body.with_initialized true (Body.with_tbody frag1 u)
                  else Body.with_tbody frag1 u) = Body._expandedRowKeys u)
    as Hfin by (intros u; by destruct ae).
  destruct (Hfin v1) as (-> & ->).
  assert (frag1 = concat (imap (parent_block cfg h (Body._expandedRowKeys v1)
                                  false None) rows)) as Hbody.
  { rewrite Hf. cbn [app]. f_equal. apply imap_ext. intros i r Hir.
    unfold parent_block, shown_expanded.
    destruct (Body._hasChildRows cfg (deref h r)) eqn:Hhas; [|done].
    cbn [andb orb]. destruct ae eqn:Hae.
    - cbn [orb]. unfold Body.set_has. rewrite bool_decide_eq_true_2; [done|].
      apply Hm. right. split; [done|]. by exists i, r.
    - by rewrite Hx. }
  split; [done|]. split.
  - rewrite Hbody. rewrite <-(imap_plus_0 (parent_block _ _ _ _ _)).
    rewrite parents_of_blocks. unfold parent_keys.
    by rewrite (imap_plus_0 (parent_key cfg h)).
  - intros ck c pk gk Hin. rewrite Hbody in Hin.
    apply elem_of_concat in Hin as (block & Hin & Hblock).
    apply elem_of_lookup_imap in Hblock as (i & r & -> & Hir).
    unfold parent_block in Hin. apply elem_of_cons in Hin as [?|Hin]; [done|].
    unfold shown_expanded in Hin.
    destruct (Body._hasChildRows cfg (deref h r)) eqn:Hhas;
      [|by apply elem_of_nil in Hin].
    cbn [andb orb] in Hin. unfold Body.set_has in Hin.
    case_bool_decide as Hex; [|by apply elem_of_nil in Hin].
    destruct (hasChildRows_children cfg _ Hhas) as (c0 & cs & Hcs).
    rewrite Hcs in Hin. cbn [default from_option id] in Hin.
    unfold Body.child_trs in Hin.
    apply elem_of_lookup_imap in Hin as (j & c' & Htr & Hj).
    injection Htr as -> -> ->.
    split; [done|]. exists i, r, (c0 :: cs).
    repeat split; try done. by eapply list_elem_of_lookup_2.
Qed.

End RenderingFlatBody.

(** ** Rendering a page with groups *)

Lemma push_keys_cons (g k : string) (ks : list string)
    (m : gmap string (list string)) :
  push_keys g (k :: ks) m
  = push_keys g ks (<[g := default [] (m !! g) ++ [k]]> m).
Proof. done. Qed.

Lemma push_keys_some (g : string) (ks l : list string)
    (m : gmap string (list string)) :
  m !! g = Some l → push_keys g ks m = <[g := l ++ ks]> m.
Proof.
  revert l m. induction ks as [|k ks IH]; intros l m Hl.
  - simpl. rewrite app_nil_r. by rewrite insert_id.
  - rewrite push_keys_cons, Hl. cbn [default from_option id].
    rewrite (IH (l ++ [k])) by apply lookup_insert_eq.
    rewrite insert_insert_eq. by rewrite <-app_assoc.
Qed.

Lemma push_keys_fresh (g : string) (ks : list string)
    (m : gmap string (list string)) :
  m !! g = None → ks ≠ [] → push_keys g ks m = <[g := ks]> m.
Proof.
  intros Hg Hks. destruct ks as [|k ks]; [done|].
  rewrite push_keys_cons, Hg. cbn [default from_option id app].
  rewrite (push_keys_some g ks [k]) by apply lookup_insert_eq.
  by rewrite insert_insert_eq.
Qed.

Lemma push_entries_lookup (es : list (string * list string)) :
  NoDup es.*1 →
  Forall (λ e, e.2 ≠ []) es →
  ∀ g ks,
    foldl (λ m e, push_keys e.1 e.2 m) ∅ es !! g = Some ks ↔ (g, ks) ∈ es.
Proof.
  induction es as [|[g0 ks0] es IH] using rev_ind; intros Hnd Hne g ks.
  - simpl. rewrite lookup_empty, elem_of_nil. done.
  - rewrite fmap_app in Hnd. apply NoDup_app in Hnd as (Hnd & Hdisj & _).
    apply Forall_app in Hne as [Hne Hne0].
    apply Forall_inv in Hne0. simpl in Hne0.
    rewrite foldl_app. cbn [foldl fst snd].
    assert (foldl (λ m e, push_keys e.1 e.2 m) ∅ es !! g0 = None) as Hfresh.
    { destruct (foldl _ ∅ es !! g0) as [l|] eqn:Hl; [|done].
      apply (IH Hnd Hne) in Hl. exfalso.
      apply (Hdisj g0); [|by left].
      apply list_elem_of_fmap. by exists (g0, l). }
    rewrite push_keys_fresh by done.
    rewrite elem_of_app, list_elem_of_singleton.
    destruct (decide (g = g0)) as [->|Hg].
    + rewrite lookup_insert_eq. split.
      * intros [= ->]. by right.
      * intros [Hin|[= ->]]; [|done]. exfalso.
        apply (Hdisj g0); [|by left].
        apply list_elem_of_fmap. by exists (g0, ks).
    + rewrite lookup_insert_ne by done. rewrite (IH Hnd Hne). split.
      * by left.
      * intros [?|[= -> ->]]; done.
Qed.

Section RenderingGroups.
Context `{JsEnv}.
Variable stringify : list jsval → string.
Variable cfg : Body.config.

Lemma render_rows_cons ae gk n r rows acc :
  render_rows cfg ae gk n (r :: rows) acc
  = render_rows cfg ae gk (S n) rows (Body.render_parent cfg ae gk n r acc).
Proof.
  unfold render_rows. cbn [imap foldl fst snd]. rewrite Nat.add_0_r.
  f_equal. apply imap_ext. intros i x _. simpl. f_equal. lia.
Qed.

Lemma render_group_rows ae gk rows :
  ∀ v frag n,
    foldl (λ acc r,
             let '(v, frag, counter) := acc in
             let '(v', frag') :=
               Body.render_parent cfg ae gk counter r (v, frag) in
             (v', frag', S counter))
          (v, frag, n) rows
    = (render_rows cfg ae gk n rows (v, frag), (n + length rows)%nat).
Proof.
  induction rows as [|r rows IH]; intros v frag n.
  - simpl. by rewrite Nat.add_0_r.
  - cbn [foldl]. rewrite render_rows_cons.
    destruct (Body.render_parent cfg ae gk n r (v, frag)) as [v1 frag1].
    rewrite IH. f_equal. simpl. lia.
Qed.

Lemma group_entries_keys h n gs :
  (group_entries cfg h n gs).*1 = Body.gkey <$> gs.
Proof.
  revert n. induction gs as [|g gs IH]; intros n; [done|].
  simpl. by rewrite IH.
Qed.

Lemma group_entries_concat h n gs :
  concat (group_entries cfg h n gs).*2
  = imap (λ i r, parent_key cfg h (n + i) r) (concat (Body.grows <$> gs)).
Proof.
  revert n. induction gs as [|g gs IH]; intros n; [done|].
  cbn [group_entries fmap list_fmap concat snd]. rewrite imap_app. f_equal.
  change (list_fmap _ _ snd ?l) with (l.*2).
  change (list_fmap _ _ Body.grows ?l) with (Body.grows <$> l).
  rewrite IH. apply imap_ext. intros i x _. f_equal. lia.
Qed.

Lemma groups_rendered_spec ae gs :
  ∀ n v frag,
    groups_rendered cfg ae n gs v
      (foldl (Body.render_group cfg ae) (v, frag, n) gs).1.1.
Proof.
  induction gs as [|g gs IH]; intros n v frag.
  - unfold groups_rendered. simpl. rewrite app_nil_r.
    repeat split; try done. by destruct (Body._pageGroupRowKeyMap v).
  - cbn [foldl]. unfold Body.render_group at 2.
    set (frag0 := if Body.header_show cfg
                  then frag ++ [Body.GroupHeaderTr (Body.gkey g)] else frag).
    rewrite render_group_rows.
    pose proof (render_rows_spec cfg ae (Some (Body.gkey g)) (Body.grows g) n
                  v frag0) as Hrows.
    destruct (render_rows cfg ae (Some (Body.gkey g)) n (Body.grows g) (v, frag0))
      as [v1 frag1].
    cbn [fst snd] in Hrows.
    specialize (IH (n + length (Body.grows g))%nat v1 frag1).
    set (v' := (foldl (Body.render_group cfg ae)
                  (v1, frag1, (n + length (Body.grows g))%nat) gs).1.1) in *.
    clearbody v'.
    destruct Hrows as (Hh & Hs & Hc & Hi & He & Hb & Hp & Hd & Hg & Hx & Hm & Hf).
    destruct IH as (Hh' & Hs' & Hc' & Hi' & He' & Hp' & Hd' & Hg' & Hx' & Hm').
    rewrite Hh in *.
    unfold groups_rendered.
    cbn [fmap list_fmap concat group_entries foldl fst snd].
    change (list_fmap _ _ Body.grows ?l) with (Body.grows <$> l).
    set (h := Body.v_heap v) in *.
    set (ks1 := imap (λ i r, parent_key cfg h (n + i) r) (Body.grows g)) in *.
    set (rest := concat (Body.grows <$> gs)) in *.
    set (ks2 := imap (λ i r, parent_key cfg h (n + length (Body.grows g) + i) r)
                     rest) in *.
    assert (imap (λ i r, parent_key cfg h (n + i) r) (Body.grows g ++ rest)
            = ks1 ++ ks2) as Hks.
    { rewrite imap_app. f_equal. apply imap_ext. intros i x _. simpl.
      f_equal. lia. }
    rewrite Hks.
    split; [done|]. split; [congruence|]. split; [congruence|].
    split; [congruence|]. split; [congruence|].
    split; [rewrite Hp', Hp; by rewrite <-app_assoc|].
    split.
    { rewrite Hd', Hd. unfold store_rows.
      rewrite zip_with_app by (subst ks1; by rewrite length_imap).
      by rewrite foldl_app. }
    split.
    { rewrite Hg', Hg. by destruct (Body._pageGroupRowKeyMap v). }
    split; [intros Hae; rewrite Hx', Hx; done|].
    intros k Hk. apply Hm'. apply Hm. by left.
Qed.

Lemma renderBody_grouped_eq (rows : list ref) (v : Body.view) gs :
  rows ≠ [] →
  Body._hasGrouping cfg = true →
  Body._buildGroups stringify cfg (Body.v_heap v) rows = Some gs →
  let ae := auto_expand cfg v in
  let out :=
    (foldl (Body.render_group cfg ae)
       (Body.with_groupMap (Some ∅) (Body.with_pageKeys (λ _, []) v), [], 0%nat)
       gs).1 in
  Body._renderBody stringify cfg rows v
  = Some (if ae then Body.with_initialized true (Body.with_tbody out.2 out.1)
          else Body.with_tbody out.2 out.1).
Proof.
  intros Hrows Hgrp Hgs ae out. unfold Body._renderBody.
  fold (auto_expand cfg v). fold ae. rewrite Hgrp.
  destruct rows as [|r rows]; [done|].
  unfold Body._renderGroupedBodyFragment.
  change (Body.v_heap (Body.with_groupMap _ _)) with (Body.v_heap v).
  rewrite Hgs. cbn [mbind option_bind]. done.
Qed.

Lemma renderBody_grouped_spec (rows : list ref) (v : Body.view) :
  rows ≠ [] →
  Body._hasGrouping cfg = true →
  ∃ v' gs m,
    Body._renderBody stringify cfg rows v = Some v'
    ∧ Body._buildGroups stringify cfg (Body.v_heap v) rows = Some gs
    ∧ Body._pageGroupRowKeyMap v' = Some m
    ∧ let h := Body.v_heap v in
      let entries := group_entries cfg h 0 gs in
      Body._pageParentRowKeys v' = parent_keys cfg h (concat (Body.grows <$> gs))
      ∧ (∀ g ks, m !! g = Some ks ↔ (g, ks) ∈ entries)
      ∧ entries.*1 = Body.gkey <$> gs
      ∧ concat entries.*2 = Body._pageParentRowKeys v'
      ∧ length (Body._pageParentRowKeys v') = length rows
      ∧ Body._selectedRowKeys v' = Body._selectedRowKeys v
      ∧ (∀ k, is_Some (Body._rowDataByKey v !! k) →
              is_Some (Body._rowDataByKey v' !! k)).
Proof.
  intros Hrows Hgrp.
  destruct (buildGroups_inv stringify cfg (Body.v_heap v) rows)
    as (gs & idx & Hgs & Hinv).
  pose proof (renderBody_grouped_eq rows v gs Hrows Hgrp Hgs) as Heq.
  simpl in Heq.
  set (ae := auto_expand cfg v) in *.
  set (v0 := Body.with_groupMap (Some ∅) (Body.with_pageKeys (λ _, []) v)) in *.
  pose proof (groups_rendered_spec ae gs 0 v0 []) as Hspec.
  destruct (foldl (Body.render_group cfg ae) (v0, [], 0%nat) gs)
    as [[v1 frag1] n1].
  cbn [fst snd] in *.
  destruct Hspec as (Hh & Hs & Hc & Hi & He & Hp & Hd & Hg & Hx & Hm).
  change (Body.v_heap v0) with (Body.v_heap v) in *.
  change (Body._rowDataByKey v0) with (Body._rowDataByKey v) in *.
  change (Body._selectedRowKeys v0) with (Body._selectedRowKeys v) in *.
  change (Body._pageParentRowKeys v0) with (@nil string) in *.
  change (Body._pageGroupRowKeyMap v0)
    with (Some (∅ : gmap string (list string))) in *.
  set (h := Body.v_heap v) in *.
  rewrite !imap_plus_0 in *.
  fold (parent_keys cfg h (concat (Body.grows <$> gs))) in *.
  cbn [fmap option_fmap option_map] in Hg.
  eexists _, gs, _. split; [exact Heq|]. split; [done|].
  assert (∀ u, Body._pageParentRowKeys
                 (if ae then Body.with_initialized true (Body.with_tbody frag1 u)
                  else Body.with_tbody frag1 u) = Body._pageParentRowKeys u
             ∧ Body._rowDataByKey
                 (if ae then Body.with_initialized true (Body.with_tbody frag1 u)
                  else Body.with_tbody frag1 u) = Body._rowDataByKey u
             ∧ Body._selectedRowKeys
                 (if ae then Body.with_initialized true (Body.with_tbody frag1 u)
                  else Body.with_tbody frag1 u) = Body._selectedRowKeys u
             ∧ Body._pageGroupRowKeyMap
                 (if ae then Body.with_initialized true (Body.with_tbody frag1 u)
                  else Body.with_tbody frag1 u) = Body._pageGroupRowKeyMap u)
    as Hfin by (intros u; by destruct ae).
  destruct (Hfin v1) as (-> & -> & -> & ->).
  split; [exact Hg|].
  assert (length (concat (Body.grows <$> gs)) = length rows) as Hlen
    by (by rewrite (gi_perm _ _ _ _ _ _ Hinv)).
  split; [by rewrite Hp|]. split.
  - apply push_entries_lookup.
    + rewrite group_entries_keys. by eapply groups_inv_NoDup.
    + clear -Hinv. pose proof (gi_rows _ _ _ _ _ _ Hinv) as Hne.
      assert (∀ n, Forall (λ e, e.2 ≠ []) (group_entries cfg h n gs)) as Hall;
        [|apply Hall].
      clear Hinv. induction gs as [|g gs IH]; intros n; [constructor|].
      cbn [group_entries]. constructor.
      * cbn [snd]. destruct (Hne g) as [_ Hg]; [by left|].
        destruct (Body.grows g); done.
      * apply IH. intros g' Hg'. apply Hne. by right.
  - split; [apply group_entries_keys|]. split.
    + rewrite group_entries_concat, Hp. cbn [app]. unfold parent_keys.
      by rewrite imap_plus_0.
    + split; [rewrite Hp; cbn [app]; unfold parent_keys; by rewrite length_imap|].
      split; [done|]. intros k Hk. rewrite Hd. by apply store_rows_keeps.
Qed.

(** X20. What a render of a page with groups leaves in the ledgers:
    the rows are taken group by group, the groups in the order of
    [_buildGroups]; the page keys are the keys of the rows in that order;
    the map from group keys to row keys holds, for every group, the keys
    of the rows of that group and nothing else, so that the lists of the
    groups, one after the other, are the page keys; there are as many page
    keys as rows; the selection is not touched. *)
Theorem renderBody_grouped_ledgers (rows : list ref) (v : Body.view) :
  rows ≠ [] →
  Body._hasGrouping cfg = true →
  ∃ v' gs m,
    Body._renderBody stringify cfg rows v = Some v'
    ∧ Body._buildGroups stringify cfg (Body.v_heap v) rows = Some gs
    ∧ Body._pageGroupRowKeyMap v' = Some m
    ∧ let h := Body.v_heap v in
      let entries := group_entries cfg h 0 gs in
      Body._pageParentRowKeys v' = parent_keys cfg h (concat (Body.grows <$> gs))
      ∧ (∀ g ks, m !! g = Some ks ↔ (g, ks) ∈ entries)
      ∧ entries.*1 = Body.gkey <$> gs
      ∧ concat entries.*2 = Body._pageParentRowKeys v'
      ∧ length (Body._pageParentRowKeys v') = length rows
      ∧ Body._selectedRowKeys v' = Body._selectedRowKeys v
      ∧ (∀ k, is_Some (Body._rowDataByKey v !! k) →
              is_Some (Body._rowDataByKey v' !! k)).
Proof. apply renderBody_grouped_spec. Qed.

End RenderingGroups.

(** ** Rendering and the selection *)

Section RenderingAndSelection.
Context `{JsEnv}.
Variable stringify : list jsval → string.
Variable cfg : Body.config.

Lemma finish_render (ae : bool) (frag : list Body.tr) (u : Body.view) :
  let u' := if ae then Body.with_initialized true (Body.with_tbody frag u)
            else Body.with_tbody frag u in
  Body._pageParentRowKeys u' = Body._pageParentRowKeys u
  ∧ Body._rowDataByKey u' = Body._rowDataByKey u
  ∧ Body._selectedRowKeys u' = Body._selectedRowKeys u
  ∧ Body._pageGroupRowKeyMap u' = Body._pageGroupRowKeyMap u
  ∧ Body._expandedRowKeys u' = Body._expandedRowKeys u
  ∧ Body._headerSelectCheckbox u' = Body._headerSelectCheckbox u
  ∧ Body.v_heap u' = Body.v_heap u
  ∧ Body.emitted u' = Body.emitted u
  ∧ Body.tbody u' = frag
  ∧ Body._childRowsInitialized u' = Body._childRowsInitialized u || ae.
Proof. destruct ae; simpl; rewrite ?orb_true_r, ?orb_false_r; done. Qed.

(** What every render of the body leaves alone, and what it sets. *)
Lemma renderBody_core (rows : list ref) (v v' : Body.view) :
  Body._renderBody stringify cfg rows v = Some v' →
  Body._selectedRowKeys v' = Body._selectedRowKeys v
  ∧ Body._headerSelectCheckbox v' = Body._headerSelectCheckbox v
  ∧ Body.v_heap v' = Body.v_heap v
  ∧ Body.emitted v' = Body.emitted v
  ∧ Body._childRowsInitialized v'
    = Body._childRowsInitialized v || auto_expand cfg v
  ∧ (auto_expand cfg v = false →
     Body._expandedRowKeys v' = Body._expandedRowKeys v)
  ∧ (∀ k, k ∈ Body._expandedRowKeys v → k ∈ Body._expandedRowKeys v')
  ∧ (rows ≠ [] →
     Body._pageParentRowKeys v'
     = page_keys_of stringify cfg (Body.v_heap v) rows)
  ∧ (rows = [] →
     Body._pageParentRowKeys v' = Body._pageParentRowKeys v
     ∧ Body.tbody v' = [Body.EmptyTr])
  ∧ (∀ k, is_Some (Body._rowDataByKey v !! k) →
          is_Some (Body._rowDataByKey v' !! k)).
Proof.
  intros Hr.
  destruct rows as [|r0 rows0] eqn:Hrows.
  { unfold Body._renderBody in Hr. fold (auto_expand cfg v) in Hr.
    cbn [mbind option_bind fst snd] in Hr. injection Hr as <-.
    destruct (finish_render (auto_expand cfg v) [Body.EmptyTr] v)
      as (-> & -> & -> & _ & -> & -> & -> & -> & -> & ->).
    repeat split; done. }
  rewrite <-Hrows in *. assert (rows ≠ []) as Hne by (by rewrite Hrows).
  clear Hrows.
  destruct (Body._hasGrouping cfg) eqn:Hgrp.
  - destruct (buildGroups_inv stringify cfg (Body.v_heap v) rows)
      as (gs & idx & Hgs & Hinv).
    rewrite (renderBody_grouped_eq stringify cfg rows v gs Hne Hgrp Hgs) in Hr.
    injection Hr as <-.
    set (ae := auto_expand cfg v) in *.
    set (v0 := Body.with_groupMap (Some ∅) (Body.with_pageKeys (λ _, []) v)) in *.
    pose proof (groups_rendered_spec cfg ae gs 0 v0 []) as Hspec.
    destruct (foldl (Body.render_group cfg ae) (v0, [], 0%nat) gs)
      as [[v1 frag1] n1].
    cbn [fst snd] in *.
    destruct Hspec as (Hh & Hs & Hc & Hi & He & Hp & Hd & Hg & Hx & Hm).
    destruct (finish_render ae frag1 v1)
      as (-> & -> & -> & _ & -> & -> & -> & -> & _ & ->).
    rewrite !imap_plus_0 in *.
    split; [done|]. split; [done|]. split; [done|]. split; [done|].
    split; [by rewrite Hi|]. split; [done|]. split; [done|].
    split; [|split; [done|]].
    + intros _. rewrite Hp. unfold page_keys_of. rewrite Hgrp, Hgs. done.
    + intros k Hk. rewrite Hd. by apply store_rows_keeps.
  - rewrite (renderBody_flat_eq stringify cfg rows v Hne Hgrp) in Hr.
    injection Hr as <-.
    set (ae := auto_expand cfg v) in *.
    set (v0 := Body.with_pageKeys (λ _, []) v) in *.
    pose proof (render_rows_spec cfg ae None rows 0 v0 []) as Hspec.
    destruct (render_rows cfg ae None 0 rows (v0, [])) as [v1 frag1].
    cbn [fst snd] in *.
    destruct Hspec as (Hh & Hs & Hc & Hi & He & Hb & Hp & Hd & Hg & Hx & Hm & Hf).
    destruct (finish_render ae frag1 v1)
      as (-> & -> & -> & _ & -> & -> & -> & -> & _ & ->).
    rewrite !imap_plus_0 in *.
    split; [done|]. split; [done|]. split; [done|]. split; [done|].
    split; [by rewrite Hi|]. split; [done|].
    split; [intros k Hk; apply Hm; by left|].
    split; [|split; [done|]].
    + intros _. rewrite Hp. unfold page_keys_of. by rewrite Hgrp.
    + intros k Hk. rewrite Hd. by apply store_rows_keeps.
Qed.

Lemma sync_frame (u : Body.view) :
  let u' := Body._syncSelectionDomAndHeader cfg u in
  Body._selectedRowKeys u' = Body._selectedRowKeys u
  ∧ Body._pageParentRowKeys u' = Body._pageParentRowKeys u
  ∧ Body._rowDataByKey u' = Body._rowDataByKey u
  ∧ Body._pageGroupRowKeyMap u' = Body._pageGroupRowKeyMap u
  ∧ Body._expandedRowKeys u' = Body._expandedRowKeys u
  ∧ Body._childRowsInitialized u' = Body._childRowsInitialized u
  ∧ Body.v_heap u' = Body.v_heap u
  ∧ Body.emitted u' = Body.emitted u
  ∧ Body.tbody u' = Body.tbody u
  ∧ (is_Some (Body._headerSelectCheckbox u')
     ↔ is_Some (Body._headerSelectCheckbox u)).
Proof.
  unfold Body._syncSelectionDomAndHeader, Body._updateHeaderSelectCheckboxState.
  destruct (negb _); [done|].
  destruct (Body._headerSelectCheckbox u) eqn:Hc; [|by rewrite Hc].
  repeat (match goal with |- context [if ?c then _ else _] => destruct c end);
    cbn; repeat split; done.
Qed.

(** The header checkbox after a sync, whether selection is enabled or
    not: a function of the checkbox being there, of the page keys and of
    the selection. *)
Lemma sync_header (u w : Body.view) :
  Body._pageParentRowKeys u = Body._pageParentRowKeys w →
  Body._selectedRowKeys u = Body._selectedRowKeys w →
  (Body.select_enabled cfg = true →
   (is_Some (Body._headerSelectCheckbox u)
    ↔ is_Some (Body._headerSelectCheckbox w))) →
  (Body.select_enabled cfg = false →
   Body._headerSelectCheckbox u = Body._headerSelectCheckbox w) →
  Body._headerSelectCheckbox (Body._syncSelectionDomAndHeader cfg u)
  = Body._headerSelectCheckbox (Body._syncSelectionDomAndHeader cfg w).
Proof.
  intros Hp Hs Hen Hdis.
  destruct (Body.select_enabled cfg) eqn:Hse.
  - destruct (Body._headerSelectCheckbox u) as [cu|] eqn:Hu.
    + assert (is_Some (Body._headerSelectCheckbox w)) as Hw
        by (apply (Hen eq_refl); by eexists).
      assert (is_Some (Body._headerSelectCheckbox u)) as Hu'
        by (rewrite Hu; by eexists).
      rewrite (header_after_sync cfg u Hse Hu'), (header_after_sync cfg w Hse Hw).
      by rewrite Hp, Hs.
    + destruct (Body._headerSelectCheckbox w) as [cw|] eqn:Hw.
      * destruct (proj2 (Hen eq_refl)) as [x Hx]; [by eexists|done].
      * unfold Body._syncSelectionDomAndHeader,
          Body._updateHeaderSelectCheckboxState.
        rewrite Hse, Hu, Hw. cbn. by rewrite Hu, Hw.
  - unfold Body._syncSelectionDomAndHeader. rewrite Hse. cbn. by apply Hdis.
Qed.

(** X21. A selection outlives the pages: after a box has been ticked
    or cleared on a page, a render of any other page and then of the first
    page again leaves the selection as it was after the click, gives the
    page its keys again, and shows every row box and the header checkbox
    as they were after the click. *)
Theorem selection_survives_paging (rowsA rowsB : list ref)
    (v0 v1 v3 v4 : Body.view) (k : string) (b : bool) (gk : option string) :
  rowsA ≠ [] →
  Body.render_page stringify cfg rowsA v0 = Some v1 →
  let v2 := Body._handleRowCheckboxChange cfg k b gk v1 in
  Body.render_page stringify cfg rowsB v2 = Some v3 →
  Body.render_page stringify cfg rowsA v3 = Some v4 →
  Body._selectedRowKeys v4 = Body._selectedRowKeys v2
  ∧ Body._pageParentRowKeys v4 = Body._pageParentRowKeys v1
  ∧ Body._headerSelectCheckbox v4 = Body._headerSelectCheckbox v2
  ∧ (∀ x, Body.row_checked v4 x = Body.row_checked v2 x).
Proof.
  intros HA H1 v2 H3 H4.
  unfold Body.render_page in H1, H3, H4.
  destruct (Body._renderBody stringify cfg rowsA v0) as [u1|] eqn:Hr1; [|done].
  destruct (Body._renderBody stringify cfg rowsB v2) as [u3|] eqn:Hr3; [|done].
  destruct (Body._renderBody stringify cfg rowsA v3) as [u4|] eqn:Hr4; [|done].
  cbn [fmap option_fmap option_map] in H1, H3, H4.
  injection H1 as <-. injection H3 as <-. injection H4 as <-.
  destruct (renderBody_core _ _ _ Hr1) as (Hs1 & Hc1 & Hh1 & _ & _ & _ & _ & Hp1 & _).
  destruct (renderBody_core _ _ _ Hr3) as (Hs3 & Hc3 & Hh3 & _).
  destruct (renderBody_core _ _ _ Hr4) as (Hs4 & Hc4 & Hh4 & _ & _ & _ & _ & Hp4 & _).
  specialize (Hp1 HA). specialize (Hp4 HA).
  destruct (sync_frame u1) as (Hss1 & Hsp1 & _ & _ & _ & _ & Hsh1 & _ & _ & Hsc1).
  destruct (sync_frame u3) as (Hss3 & Hsp3 & _ & _ & _ & _ & Hsh3 & _ & _ & Hsc3).
  destruct (sync_frame u4) as (Hss4 & Hsp4 & _).
  set (w1 := Body._syncSelectionDomAndHeader cfg u1) in *.
  set (w3 := Body._syncSelectionDomAndHeader cfg u3) in *.
  (* the click *)
  destruct (Body.row_affected cfg w1 k gk) as [md affected] eqn:Haff.
  set (c1 := Body.with_selected (Body.apply_keys b affected) w1).
  assert (v2 = Body.emit
                 {| Body.mode := md; Body.ev_rowKey := Some k;
                    Body.checked := b; Body.affectedRowKeys := affected;
                    Body.selectedRowKeys :=
                      Body.getSelectedRowKeys
                        (Body._syncSelectionDomAndHeader cfg c1) |}
                 (Body._syncSelectionDomAndHeader cfg c1)) as Hv2.
  { subst v2. unfold Body._handleRowCheckboxChange. by rewrite Haff. }
  destruct (sync_frame c1) as (Hssc & Hspc & _ & _ & _ & _ & Hshc & _ & _ & Hscc).
  assert (Body._selectedRowKeys v2
          = Body._selectedRowKeys (Body._syncSelectionDomAndHeader cfg c1)
          ∧ Body._pageParentRowKeys v2 = Body._pageParentRowKeys w1
          ∧ Body.v_heap v2 = Body.v_heap w1
          ∧ Body._headerSelectCheckbox v2
            = Body._headerSelectCheckbox (Body._syncSelectionDomAndHeader cfg c1))
    as (Hs2 & Hp2 & Hh2 & Hc2).
  { rewrite Hv2. cbn [Body._selectedRowKeys Body._pageParentRowKeys Body.v_heap
                      Body._headerSelectCheckbox Body.emit].
    rewrite Hspc, Hshc. done. }
  assert (Body._selectedRowKeys u4 = Body._selectedRowKeys v2) as Hsel.
  { rewrite Hs4, Hss3, Hs3. done. }
  assert (Body._pageParentRowKeys u4 = Body._pageParentRowKeys w1) as Hpage.
  { rewrite Hp4, Hsp1, Hp1. f_equal.
    rewrite Hsh3, Hh3, Hh2, Hsh1, Hh1. done. }
  split; [by rewrite Hss4|]. split; [by rewrite Hsp4|]. split.
  - rewrite Hc2. apply sync_header.
    + by rewrite Hpage.
    + rewrite Hsel, Hs2. by rewrite Hssc.
    + intros Hen. rewrite Hc4. rewrite Hsc3, Hc3, Hc2, Hscc. done.
    + intros Hdis. rewrite Hc4.
      assert (∀ u, Body._headerSelectCheckbox
                     (Body._syncSelectionDomAndHeader cfg u)
                   = Body._headerSelectCheckbox u) as Hoff.
      { intros u. unfold Body._syncSelectionDomAndHeader. by rewrite Hdis. }
      fold w3. unfold w3. rewrite Hoff, Hc3, Hc2, Hoff. done.
  - intros x. unfold Body.row_checked. by rewrite Hss4, Hsel.
Qed.

(** X22. Rows are expanded automatically by the first render only.
    Every render leaves the table initialised when child rows are enabled
    and start expanded; a render of an initialised table changes nothing
    in the expanded keys, so that whatever has been collapsed or expanded
    since the first render is found as it was left; and no render ever
    collapses a row. *)
Theorem start_expanded_once (rows rows' : list ref) (v v1 v2 : Body.view)
    (f : list string → list string) :
  childRows_enabled (Body.tbl cfg) && Body.startExpanded cfg = true →
  Body._renderBody stringify cfg rows v = Some v1 →
  Body._renderBody stringify cfg rows' (Body.with_expanded f v1) = Some v2 →
  Body._childRowsInitialized v1 = true
  ∧ Body._expandedRowKeys v2 = f (Body._expandedRowKeys v1)
  ∧ (∀ k, k ∈ Body._expandedRowKeys v → k ∈ Body._expandedRowKeys v1).
Proof.
  intros Hstart Hr1 Hr2.
  destruct (renderBody_core _ _ _ Hr1) as (_ & _ & _ & _ & Hi1 & _ & Hm1 & _).
  destruct (renderBody_core _ _ _ Hr2) as (_ & _ & _ & _ & _ & Hx2 & _).
  assert (Body._childRowsInitialized v1 = true) as Hinit.
  { rewrite Hi1. unfold auto_expand. rewrite Hstart.
    by destruct (Body._childRowsInitialized v). }
  split; [done|]. split; [|done].
  rewrite Hx2; [done|]. unfold auto_expand.
  cbn [Body._childRowsInitialized Body.with_expanded]. rewrite Hinit.
  by rewrite andb_false_r.
Qed.

(** X23. A page without rows does not reset the page keys: the body
    then shows the "no data" row alone, but the keys of the page rendered
    before stay in place, and ticking the header checkbox selects them. *)
Theorem empty_page_keeps_keys (v : Body.view) :
  ∃ v',
    Body.render_page stringify cfg [] v = Some v'
    ∧ Body.tbody v' = [Body.EmptyTr]
    ∧ Body._pageParentRowKeys v' = Body._pageParentRowKeys v
    ∧ ∀ k, k ∈ Body._pageParentRowKeys v →
           k ∈ Body._selectedRowKeys (Body._handleHeaderSelectAll cfg true v').
Proof.
  destruct (Body._renderBody stringify cfg [] v) as [u|] eqn:Hr; [|done].
  destruct (renderBody_core _ _ _ Hr) as (_ & _ & _ & _ & _ & _ & _ & _ & He & _).
  destruct (He eq_refl) as [Hp Hb].
  destruct (sync_frame u) as (_ & Hsp & _ & _ & _ & _ & _ & _ & Hsb & _).
  exists (Body._syncSelectionDomAndHeader cfg u).
  unfold Body.render_page. rewrite Hr. split; [done|].
  split; [by rewrite Hsb|]. split; [by rewrite Hsp|].
  intros k Hk.
  set (w := Body._syncSelectionDomAndHeader cfg u) in *.
  destruct (sync_frame (Body.with_selected
                          (Body.apply_keys true (Body._pageParentRowKeys w)) w))
    as (Hs & _).
  unfold Body._handleHeaderSelectAll.
  cbn [Body._selectedRowKeys Body.emit]. rewrite Hs.
  cbn [Body._selectedRowKeys Body.with_selected].
  apply elem_of_apply_keys. left. by rewrite Hsp, Hp.
Qed.

(** X24. With selection by group, the box of a group acts on the
    rows of that group on the page and on no other: after a render of the
    page, a click on a row that carries the key of a group selects, or
    unselects, exactly the keys of the rows of that group, whose list is
    not empty and is part of the page keys, and the [select] event names
    them. *)
Theorem group_checkbox_selects_group (rows : list ref) (v v' : Body.view)
    (gs : list Body.group) (g rowKey : string) (ks : list string) (b : bool) :
  rows ≠ [] →
  Body._hasGrouping cfg = true →
  Body.select_groupMode cfg = "group" →
  Body.render_page stringify cfg rows v = Some v' →
  Body._buildGroups stringify cfg (Body.v_heap v) rows = Some gs →
  (g, ks) ∈ group_entries cfg (Body.v_heap v) 0 gs →
  g ≠ "" →
  let v'' := Body._handleRowCheckboxChange cfg rowKey b (Some g) v' in
  (∀ k, k ∈ Body._selectedRowKeys v''
        ↔ (if b then (k ∈ ks) ∨ (k ∈ Body._selectedRowKeys v)
           else (k ∉ ks) ∧ (k ∈ Body._selectedRowKeys v)))
  ∧ Body.emitted v''
    = Body.emitted v'
      ++ [ {| Body.mode := "group"; Body.ev_rowKey := Some rowKey;
              Body.checked := b; Body.affectedRowKeys := ks;
              Body.selectedRowKeys := Body._selectedRowKeys v'' |} ]
  ∧ ks ≠ []
  ∧ (∀ k, k ∈ ks → k ∈ Body._pageParentRowKeys v').
Proof.
  intros Hrows Hgrp Hmode Hrender Hgs Hin Hg v''.
  unfold Body.render_page in Hrender.
  destruct (Body._renderBody stringify cfg rows v) as [u|] eqn:Hr; [|done].
  cbn [fmap option_fmap option_map] in Hrender. injection Hrender as <-.
  destruct (renderBody_grouped_spec stringify cfg rows v Hrows Hgrp)
    as (u' & gs' & m & Hr' & Hgs' & Hm & Hp & Hlook & Hkeys & Hcat & _ & Hsel & _).
  rewrite Hr in Hr'. injection Hr' as <-.
  rewrite Hgs in Hgs'. injection Hgs' as <-.
  destruct (sync_frame u) as (Hss & Hsp & _ & Hsg & _ & _ & _ & Hse & _).
  set (w := Body._syncSelectionDomAndHeader cfg u) in *.
  assert (Body.row_affected cfg w rowKey (Some g) = ("group", ks)) as Haff.
  { unfold Body.row_affected. rewrite Hgrp, Hmode. cbn [andb].
    rewrite String.eqb_refl. rewrite Hsg, Hm.
    apply String.eqb_neq in Hg. rewrite Hg.
    apply Hlook in Hin. by rewrite Hin. }
  set (c1 := Body.with_selected (Body.apply_keys b ks) w).
  assert (v'' = Body.emit
                  {| Body.mode := "group"; Body.ev_rowKey := Some rowKey;
                     Body.checked := b; Body.affectedRowKeys := ks;
                     Body.selectedRowKeys :=
                       Body.getSelectedRowKeys
                         (Body._syncSelectionDomAndHeader cfg c1) |}
                  (Body._syncSelectionDomAndHeader cfg c1)) as Hv''.
  { subst v''. unfold Body._handleRowCheckboxChange. by rewrite Haff. }
  destruct (sync_frame c1) as (Hssc & _ & _ & _ & _ & _ & _ & Hsec & _).
  assert (Body._selectedRowKeys v''
          = Body.apply_keys b ks (Body._selectedRowKeys v)) as Hsel''.
  { rewrite Hv''. cbn [Body._selectedRowKeys Body.emit]. rewrite Hssc.
    unfold c1. cbn [Body._selectedRowKeys Body.with_selected].
    by rewrite Hss, Hsel. }
  split; [intros k; rewrite Hsel''; apply elem_of_apply_keys|].
  split.
  { rewrite Hsel''. rewrite Hv''. cbn [Body.emitted Body.emit].
    rewrite Hsec. unfold Body.getSelectedRowKeys. rewrite Hssc.
    unfold c1. cbn [Body._selectedRowKeys Body.emitted Body.with_selected].
    by rewrite Hss, Hsel. }
  assert (ks ∈ (group_entries cfg (Body.v_heap v) 0 gs).*2) as Hks.
  { apply list_elem_of_fmap. by exists (g, ks). }
  split.
  - destruct (buildGroups_inv stringify cfg (Body.v_heap v) rows)
      as (gs2 & idx & Hgs2 & Hinv).
    rewrite Hgs in Hgs2. injection Hgs2 as <-.
    pose proof (gi_rows _ _ _ _ _ _ Hinv) as Hne.
    clear -Hin Hne. revert Hin. generalize 0%nat.
    induction gs as [|g0 gs IH]; intros n Hin; [by apply elem_of_nil in Hin|].
    cbn [group_entries] in Hin. apply elem_of_cons in Hin as [Heq|Hin].
    + injection Heq as -> ->. destruct (Hne g0) as [_ Hg0]; [by left|].
      destruct (Body.grows g0); done.
    + eapply IH; [|exact Hin]. intros g' Hg'. apply Hne. by right.
  - intros k Hk. rewrite Hsp, <-Hcat. apply elem_of_concat. by exists ks.
Qed.

End RenderingAndSelection.

(** ** The render and selection properties on example tables *)

Lemma renderBody_flat_ledgers_witness :
  let rows := [0; 1; 2]%nat in
  rows ≠ []
  ∧ Body._hasGrouping Sample.body_cfg = false
  ∧ ∃ v',
      @Body._renderBody AsciiEnv.env Sample.stringify Sample.body_cfg rows
        Sample.view0 = Some v'
      ∧ Body._pageParentRowKeys v' = ["1"; "2"; "3"]
      ∧ Body._selectedRowKeys v' = Body._selectedRowKeys Sample.view0.
Proof.
  intros rows.
  assert (rows ≠ []) as H1 by discriminate.
  assert (Body._hasGrouping Sample.body_cfg = false) as H2 by reflexivity.
  split; [exact H1|]. split; [exact H2|].
  destruct (@renderBody_flat_ledgers AsciiEnv.env Sample.stringify
              Sample.body_cfg rows Sample.view0 H1 H2)
    as (v' & Hr & Hp & _ & _ & _ & Hs & _).
  exists v'. split; [exact Hr|]. split; [|exact Hs].
  rewrite Hp. vm_compute. reflexivity.
Defined.

Lemma renderBody_flat_body_witness :
  let rows := [0; 3]%nat in
  rows ≠ []
  ∧ Body._hasGrouping Sample.tree_cfg = false
  ∧ ∃ v',
      @Body._renderBody AsciiEnv.env Sample.stringify Sample.tree_cfg rows
        Sample.tree_view = Some v'
      ∧ Body.tbody v'
        = [ Body.DataTr "1" 0%nat None None;
            Body.DataTr "11" 1%nat (Some "1") None;
            Body.DataTr "12" 2%nat (Some "1") None;
            Body.DataTr "2" 3%nat None None ]
      ∧ omap parent_of (Body.tbody v') = [("1", 0%nat); ("2", 3%nat)].
Proof.
  intros rows.
  assert (rows ≠ []) as H1 by discriminate.
  assert (Body._hasGrouping Sample.tree_cfg = false) as H2 by reflexivity.
  split; [exact H1|]. split; [exact H2|].
  destruct (@renderBody_flat_body AsciiEnv.env Sample.stringify
              Sample.tree_cfg rows Sample.tree_view H1 H2)
    as (v' & Hr & Hb & Hp & _).
  exists v'. split; [exact Hr|]. split.
  - assert (Body.tbody v'
            = Body.tbody (default Sample.tree_view
                (@Body._renderBody AsciiEnv.env Sample.stringify
                   Sample.tree_cfg rows Sample.tree_view))) as ->
      by (rewrite Hr; reflexivity).
    vm_compute. reflexivity.
  - rewrite Hp. vm_compute. reflexivity.
Defined.

Lemma renderBody_grouped_ledgers_witness :
  let rows := [0; 1; 2]%nat in
  let v := Body.new_view Sample.grouped_cfg (w_heap Example.w1) in
  rows ≠ []
  ∧ Body._hasGrouping Sample.grouped_cfg = true
  ∧ ∃ v' m,
      @Body._renderBody AsciiEnv.env Sample.stringify Sample.grouped_cfg rows v
      = Some v'
      ∧ Body._pageGroupRowKeyMap v' = Some m
      ∧ Body._pageParentRowKeys v' = ["1"; "2"; "3"]
      ∧ m !! "[25]" = Some ["2"; "3"].
Proof.
  intros rows v.
  assert (rows ≠ []) as H1 by discriminate.
  assert (Body._hasGrouping Sample.grouped_cfg = true) as H2 by reflexivity.
  split; [exact H1|]. split; [exact H2|].
  destruct (@renderBody_grouped_ledgers AsciiEnv.env Sample.stringify
              Sample.grouped_cfg rows v H1 H2)
    as (v' & gs & m & Hr & Hgs & Hm & Hp & Hlook & _).
  assert (Some gs = Some (default []
            (Body._buildGroups Sample.stringify Sample.grouped_cfg
               (Body.v_heap v) rows))) as Hgs'
    by (rewrite <-Hgs; vm_compute; reflexivity).
  injection Hgs' as ->.
  exists v', m. split; [exact Hr|]. split; [exact Hm|]. split.
  - rewrite Hp. vm_compute. reflexivity.
  - apply Hlook. vm_compute. right. left.
Defined.

Lemma selection_survives_paging_witness :
  let cfg := Sample.body_cfg in
  let page (rows : list ref) (v : Body.view) :=
    default v (@Body.render_page AsciiEnv.env Sample.stringify cfg rows v) in
  let v1 := page [0; 1]%nat Sample.view0 in
  let v2 := Body._handleRowCheckboxChange cfg "2" true None v1 in
  let v3 := page [2]%nat v2 in
  let v4 := page [0; 1]%nat v3 in
  [0; 1]%nat ≠ []
  ∧ @Body.render_page AsciiEnv.env Sample.stringify cfg [0; 1]%nat Sample.view0
    = Some v1
  ∧ @Body.render_page AsciiEnv.env Sample.stringify cfg [2]%nat v2 = Some v3
  ∧ @Body.render_page AsciiEnv.env Sample.stringify cfg [0; 1]%nat v3 = Some v4
  ∧ Body._selectedRowKeys v4 = Body._selectedRowKeys v2
  ∧ Body._pageParentRowKeys v4 = Body._pageParentRowKeys v1
  ∧ Body._headerSelectCheckbox v4 = Body._headerSelectCheckbox v2
  ∧ (∀ x, Body.row_checked v4 x = Body.row_checked v2 x).
Proof.
  intros cfg page v1 v2 v3 v4.
  assert ([0; 1]%nat ≠ []) as H0 by discriminate.
  assert (@Body.render_page AsciiEnv.env Sample.stringify cfg [0; 1]%nat
            Sample.view0 = Some v1) as H1 by (vm_compute; reflexivity).
  assert (@Body.render_page AsciiEnv.env Sample.stringify cfg [2]%nat v2
          = Some v3) as H3 by (vm_compute; reflexivity).
  assert (@Body.render_page AsciiEnv.env Sample.stringify cfg [0; 1]%nat v3
          = Some v4) as H4 by (vm_compute; reflexivity).
  split; [exact H0|]. split; [exact H1|]. split; [exact H3|]. split; [exact H4|].
  exact (@selection_survives_paging AsciiEnv.env Sample.stringify cfg
           [0; 1]%nat [2]%nat Sample.view0 v1 v3 v4 "2" true None H0 H1 H3 H4).
Defined.

Lemma start_expanded_once_witness :
  let cfg := Sample.tree_cfg in
  let v1 := default Sample.tree_view
              (@Body._renderBody AsciiEnv.env Sample.stringify cfg [0; 3]%nat
                 Sample.tree_view) in
  let collapse := Body.set_delete "1" in
  let v2 := default v1
              (@Body._renderBody AsciiEnv.env Sample.stringify cfg [0; 3]%nat
                 (Body.with_expanded collapse v1)) in
  childRows_enabled (Body.tbl cfg) && Body.startExpanded cfg = true
  ∧ @Body._renderBody AsciiEnv.env Sample.stringify cfg [0; 3]%nat
      Sample.tree_view = Some v1
  ∧ @Body._renderBody AsciiEnv.env Sample.stringify cfg [0; 3]%nat
      (Body.with_expanded collapse v1) = Some v2
  ∧ Body._expandedRowKeys v1 = ["1"]
  ∧ Body._childRowsInitialized v1 = true
  ∧ Body._expandedRowKeys v2 = collapse (Body._expandedRowKeys v1)
  ∧ (∀ k, k ∈ Body._expandedRowKeys Sample.tree_view
          → k ∈ Body._expandedRowKeys v1).
Proof.
  intros cfg v1 collapse v2.
  assert (childRows_enabled (Body.tbl cfg) && Body.startExpanded cfg = true)
    as H0 by reflexivity.
  assert (@Body._renderBody AsciiEnv.env Sample.stringify cfg [0; 3]%nat
            Sample.tree_view = Some v1) as H1 by (vm_compute; reflexivity).
  assert (@Body._renderBody AsciiEnv.env Sample.stringify cfg [0; 3]%nat
            (Body.with_expanded collapse v1) = Some v2)
    as H2 by (vm_compute; reflexivity).
  assert (Body._expandedRowKeys v1 = ["1"]) as H3 by (vm_compute; reflexivity).
  split; [exact H0|]. split; [exact H1|]. split; [exact H2|]. split; [exact H3|].
  exact (@start_expanded_once AsciiEnv.env Sample.stringify cfg
           [0; 3]%nat [0; 3]%nat Sample.tree_view v1 v2 collapse H0 H1 H2).
Defined.

Lemma group_checkbox_selects_group_witness :
  let cfg := Sample.grouped_cfg in
  let rows := [0; 1; 2]%nat in
  let v := Body.new_view cfg (w_heap Example.w1) in
  let v' := default v (@Body.render_page AsciiEnv.env Sample.stringify cfg rows v) in
  let gs := default [] (Body._buildGroups Sample.stringify cfg (Body.v_heap v) rows) in
  let ks := ["2"; "3"] in
  let v'' := Body._handleRowCheckboxChange cfg "2" true (Some "[25]") v' in
  rows ≠ []
  ∧ Body._hasGrouping cfg = true
  ∧ Body.select_groupMode cfg = "group"
  ∧ @Body.render_page AsciiEnv.env Sample.stringify cfg rows v = Some v'
  ∧ Body._buildGroups Sample.stringify cfg (Body.v_heap v) rows = Some gs
  ∧ ("[25]", ks) ∈ @group_entries AsciiEnv.env cfg (Body.v_heap v) 0 gs
  ∧ "[25]" ≠ ""
  ∧ (∀ k, k ∈ Body._selectedRowKeys v''
          ↔ (k ∈ ks) ∨ (k ∈ Body._selectedRowKeys v))
  ∧ Body.emitted v''
    = Body.emitted v'
      ++ [ {| Body.mode := "group"; Body.ev_rowKey := Some "2";
              Body.checked := true; Body.affectedRowKeys := ks;
              Body.selectedRowKeys := Body._selectedRowKeys v'' |} ]
  ∧ ks ≠ []
  ∧ (∀ k, k ∈ ks → k ∈ Body._pageParentRowKeys v').
Proof.
  intros cfg rows v v' gs ks v''.
  assert (rows ≠ []) as H1 by discriminate.
  assert (Body._hasGrouping cfg = true) as H2 by reflexivity.
  assert (Body.select_groupMode cfg = "group") as H3 by reflexivity.
  assert (@Body.render_page AsciiEnv.env Sample.stringify cfg rows v = Some v')
    as H4 by (vm_compute; reflexivity).
  assert (Body._buildGroups Sample.stringify cfg (Body.v_heap v) rows = Some gs)
    as H5 by (vm_compute; reflexivity).
  assert (("[25]", ks) ∈ @group_entries AsciiEnv.env cfg (Body.v_heap v) 0 gs)
    as H6 by (vm_compute; right; left).
  assert ("[25]" ≠ "") as H7 by discriminate.
  repeat (split; [assumption|]).
  exact (@group_checkbox_selects_group AsciiEnv.env Sample.stringify cfg rows
           v v' gs "[25]" "2" ks true H1 H2 H3 H4 H5 H6 H7).
Defined.

(** ** The bookkeeping of the draws *)

Lemma draw_ledger_new cfg st : draw_ledger cfg (new_table st).
Proof.
  split; simpl.
  - intros id. split; [set_solver|]. intros [? _]. lia.
  - intros id Hid. by apply elem_of_nil in Hid.
  - constructor.
  - intros c. split; [set_solver|]. intros [_ ?]. lia.
  - by rewrite andb_false_r.
Qed.

Lemma onLoad_ledger cfg id res s :
  drawSeq (onLoad cfg id res s) = drawSeq s
  ∧ pending (onLoad cfg id res s) = pending s
  ∧ history (onLoad cfg id res s) = history s
  ∧ aborted (onLoad cfg id res s) = aborted s
  ∧ activeAbort (onLoad cfg id res s) = activeAbort s.
Proof. unfold onLoad. by destruct (_ && _). Qed.

Lemma settle_ledger cfg id o effs s :
  id ∈ pending s →
  draw_ledger cfg s → draw_ledger cfg (settle id o effs s).
Proof.
  intros Hid [Hp Hh Hn Ha Hc].
  destruct (proj1 (Hp id) Hid) as [Hrange Hnew].
  split; simpl.
  - intros i. rewrite elem_of_difference, Hp, fmap_app, elem_of_app.
    simpl. rewrite list_elem_of_singleton, elem_of_singleton. tauto.
  - intros i. rewrite fmap_app, elem_of_app. simpl.
    rewrite list_elem_of_singleton. intros [?| ->]; [by apply Hh|done].
  - rewrite fmap_app. apply NoDup_app. split; [done|]. split.
    + intros i Hi Hi'. simpl in Hi'. apply list_elem_of_singleton in Hi'.
      by subst.
    + apply NoDup_singleton.
  - done.
  - done.
Qed.

Lemma step_ledger cfg s ev s' :
  draw_ledger cfg s → step cfg s ev s' → draw_ledger cfg s'.
Proof.
  intros Hs Hstep. destruct Hstep as [s|s id res Hid|s id err Hid].
  - destruct Hs as [Hp Hh Hn Ha Hc]. split; simpl.
    + intros i. rewrite elem_of_union, elem_of_singleton, Hp. split.
      * intros [->|[? ?]]; [|split; [lia|done]].
        split; [lia|]. intros Hin. apply Hh in Hin. lia.
      * intros [? ?]. destruct (decide (i = S (drawSeq s))); [by left|right].
        split; [lia|done].
    + intros i Hi. apply Hh in Hi. lia.
    + done.
    + intros c. rewrite Hc. destruct (isAjax cfg) eqn:Hajax; simpl.
      * destruct (Nat.eqb_spec (drawSeq s) 0) as [Hz|Hz]; simpl.
        -- rewrite Ha. split; [intros [_ ?]; lia|]. intros [_ ?]. lia.
        -- rewrite elem_of_union, elem_of_singleton, Ha. split.
           ++ intros [->|[_ ?]]; split; try done; lia.
           ++ intros [_ ?]. destruct (decide (c = drawSeq s)); [by left|right].
              split; [done|lia].
      * rewrite Ha. split; intros [? _]; done.
    + by destruct (isAjax cfg).
  - apply settle_ledger.
    + by destruct (onLoad_ledger cfg id res s) as (_ & -> & _).
    + destruct Hs as [Hp Hh Hn Ha Hc].
      destruct (onLoad_ledger cfg id res s) as (Hd & Hq & Hy & Hb & Hv).
      split; rewrite ?Hd, ?Hq, ?Hy, ?Hb, ?Hv; done.
  - by apply settle_ledger.
Qed.

Lemma run_ledger cfg s evs s' :
  draw_ledger cfg s → run cfg s evs s' →
  draw_ledger cfg s' ∧ drawSeq s' = (drawSeq s + draws evs)%nat.
Proof.
  intros Hs Hrun. induction Hrun as [s|s ev s1 evs s2 Hstep Hrun IH].
  - split; [done|]. unfold draws. simpl. lia.
  - destruct (IH (step_ledger _ _ _ _ Hs Hstep)) as [Hl Hd].
    split; [done|]. rewrite Hd. unfold draws.
    destruct Hstep as [s|s id res Hid|s id err Hid]; simpl.
    + lia.
    + by destruct (onLoad_ledger cfg id res s) as (-> & _).
    + done.
Qed.

(** X25. The bookkeeping of the draws, whatever draws were started and
    however their loads settled: the draw counter counts the draws; the
    loads pending are those of the draws started that have not settled,
    and no load settles twice; on an Ajax table every draw started before
    the latest has had its request aborted and the latest has not, its
    controller being the active one; on any other table nothing is ever
    aborted. *)
Theorem draws_are_accounted_for cfg st evs s :
  run cfg (new_table st) evs s →
  drawSeq s = draws evs
  ∧ (∀ id, id ∈ pending s
           ↔ (1 ≤ id ≤ drawSeq s)%nat ∧ id ∉ (history s).*1)
  ∧ NoDup (history s).*1
  ∧ (∀ c, c ∈ aborted s ↔ isAjax cfg = true ∧ (1 ≤ c < drawSeq s)%nat)
  ∧ activeAbort s
    = (if isAjax cfg && negb (drawSeq s =? 0)%nat then Some (drawSeq s) else None).
Proof.
  intros Hrun.
  destruct (run_ledger _ _ _ _ (draw_ledger_new cfg st) Hrun) as [[Hp Hh Hn Ha Hc] Hd].
  split; [by rewrite Hd|]. done.
Qed.

Lemma last_resolved_snoc h id o :
  last_resolved (h ++ [(id, o)])
  = match o with
    | LoadResolved res => Some res
    | _ => last_resolved h
    end.
Proof.
  unfold last_resolved. rewrite omap_app. simpl.
  destruct o; simpl; rewrite ?app_nil_r; [|done..].
  by rewrite last_snoc.
Qed.

(** X26. A table that is not in Ajax mode has no guard against late
    results: whatever draws were started and in whatever order their loads
    settled, the body and [state.totalRows] are those of the load that
    resolved last, be it the load of an older draw than the latest; loads
    that fail change neither. *)
Theorem last_resolved_load_wins cfg st evs s :
  isAjax cfg = false →
  run cfg (new_table st) evs s →
  match last_resolved (history s) with
  | Some res =>
      tbody s = result_rows res
      ∧ _lastPageRows s = result_rows res
      ∧ totalRows (state s) = result_total res
  | None => tbody s = [] ∧ state s = st
  end.
Proof.
  intros Hajax Hrun.
  assert (∀ s0,
            match last_resolved (history s0) with
            | Some res =>
                tbody s0 = result_rows res
                ∧ _lastPageRows s0 = result_rows res
                ∧ totalRows (state s0) = result_total res
            | None => tbody s0 = [] ∧ state s0 = st
            end →
            run cfg s0 evs s →
            match last_resolved (history s) with
            | Some res =>
                tbody s = result_rows res
                ∧ _lastPageRows s = result_rows res
                ∧ totalRows (state s) = result_total res
            | None => tbody s = [] ∧ state s = st
            end) as Hgen.
  { clear Hrun. intros s0 Hs0 Hrun.
    induction Hrun as [s|s ev s1 evs s2 Hstep Hrun IH]; [done|].
    apply IH. clear IH Hrun.
    destruct Hstep as [s|s id res Hid|s id err Hid].
    - done.
    - simpl. rewrite last_resolved_snoc.
      unfold onLoad. rewrite Hajax. simpl. done.
    - simpl. rewrite last_resolved_snoc.
      unfold on_error. destruct (is_abort err); simpl; done. }
  apply (Hgen (new_table st)); [|done]. done.
Qed.

Lemma draws_are_accounted_for_witness :
  let cfg := {| isAjax := true; onError := false |} in
  let r2 := Some {| r_rows := VArr [1; 2]%nat; r_total := Some 2 |} in
  let evs := [Draw; Draw; LoadResolves 2 r2; Draw] in
  ∃ s, run cfg (new_table Example.st0) evs s
       ∧ drawSeq s = 3%nat
       ∧ (∀ id, id ∈ pending s
                ↔ (1 ≤ id ≤ drawSeq s)%nat ∧ id ∉ (history s).*1)
       ∧ NoDup (history s).*1
       ∧ (∀ c, c ∈ aborted s ↔ isAjax cfg = true ∧ (1 ≤ c < drawSeq s)%nat)
       ∧ activeAbort s = Some 3%nat.
Proof.
  intros cfg r2 evs.
  destruct (exec cfg (new_table Example.st0) evs) as [s|] eqn:Hex;
    [|by vm_compute in Hex].
  assert (run cfg (new_table Example.st0) evs s) as Hrun by by apply exec_run.
  assert (drawSeq s = 3%nat) as Hseq.
  { vm_compute in Hex. by injection Hex as <-. }
  destruct (draws_are_accounted_for cfg Example.st0 evs s Hrun)
    as (Hd & Hp & Hn & Ha & Hc).
  exists s. split; [done|]. split; [done|]. split; [done|]. split; [done|].
  split; [done|]. rewrite Hc, Hseq. done.
Defined.

Lemma last_resolved_load_wins_witness :
  let cfg := {| isAjax := false; onError := false |} in
  let r1 := Some {| r_rows := VArr [0%nat]; r_total := Some 1 |} in
  let r2 := Some {| r_rows := VArr [1; 2]%nat; r_total := Some 2 |} in
  let evs := [Draw; Draw; LoadResolves 2 r2; LoadResolves 1 r1] in
  ∃ s, isAjax cfg = false
       ∧ run cfg (new_table Example.st0) evs s
       ∧ drawSeq s = 2%nat
       ∧ last_resolved (history s) = Some r1
       ∧ tbody s = [0%nat]
       ∧ totalRows (state s) = 1.
Proof.
  intros cfg r1 r2 evs.
  destruct (exec cfg (new_table Example.st0) evs) as [s|] eqn:Hex;
    [|by vm_compute in Hex].
  assert (run cfg (new_table Example.st0) evs s) as Hrun by by apply exec_run.
  assert (drawSeq s = 2%nat ∧ last_resolved (history s) = Some r1) as [Hseq Hlast].
  { vm_compute in Hex. by injection Hex as <-. }
  pose proof (last_resolved_load_wins cfg Example.st0 evs s eq_refl Hrun) as Hwin.
  rewrite Hlast in Hwin. destruct Hwin as (Hb & _ & Ht).
  exists s. repeat (split; [done|]). done.
Defined.

(** ** The response of an Ajax request, rendered *)

(** X27. What an Ajax table shows of a response, once the hook or the
    request of the latest draw has answered and [transform], if any, has
    been applied: the rows are the answer itself when it is an array, else
    its [data], and the total is its [total] when that is a number, even
    one that differs from the number of rows, else the number of rows.  A
    [rows] property is not read: an answer of the shape [{rows, total}],
    without [data], leaves the body empty under the total it names. *)
Theorem ajax_response_shown (cfg : draw_config)
    (transform : option (response → response)) (json : response) (s : tstate) :
  drawSeq s ∈ pending s →
  let j := match transform with Some t => t json | None => json end in
  let res := Some (_handleFetchResponse transform json) in
  let s' := settle (drawSeq s) (LoadResolved res) []
              (onLoad cfg (drawSeq s) res s) in
  step cfg s (LoadResolves (drawSeq s) res) s'
  ∧ tbody s' = response_rows j
  ∧ totalRows (state s') = response_total j
  ∧ (∀ l, j = RespArray l →
          tbody s' = l ∧ totalRows (state s') = Z.of_nat (length l))
  ∧ (∀ l other n, j = RespObject (Some l) other (Some n) →
          tbody s' = l ∧ totalRows (state s') = n)
  ∧ (∀ l t, j = RespObject None (Some l) t →
          tbody s' = [] ∧ totalRows (state s') = default 0 t).
Proof.
  intros Hid j res s'.
  destruct (onLoad_current cfg res s) as (Hb & _ & Ht & _).
  assert (tbody s' = response_rows j ∧ totalRows (state s') = response_total j)
    as [Hrows Htotal].
  { subst s'. cbn [tbody state settle]. rewrite Hb, Ht.
    subst res j. unfold _handleFetchResponse, result_rows, result_total.
    cbn. by destruct (match transform with Some t => t json | None => json end)
      as [l|d o [n|]]. }
  split; [by apply step_resolves|]. split; [done|]. split; [done|].
  rewrite Hrows, Htotal. split; [|split].
  - by intros l ->.
  - by intros l other n ->.
  - intros l t ->. by destruct t.
Qed.

Lemma ajax_response_shown_witness :
  let cfg := {| isAjax := true; onError := false |} in
  let s := (draw_begin cfg (new_table Example.st0)).2 in
  let json := RespObject None (Some [0; 1]%nat) (Some 2) in
  let res := Some (_handleFetchResponse None json) in
  let s' := settle (drawSeq s) (LoadResolved res) []
              (onLoad cfg (drawSeq s) res s) in
  drawSeq s ∈ pending s
  ∧ step cfg s (LoadResolves (drawSeq s) res) s'
  ∧ tbody s' = []
  ∧ totalRows (state s') = 2.
Proof.
  intros cfg s json res s'.
  assert (drawSeq s ∈ pending s) as H1 by (vm_compute; set_solver).
  destruct (ajax_response_shown cfg None json s H1)
    as (Hstep & _ & _ & _ & _ & Hshape).
  destruct (Hshape [0; 1]%nat (Some 2) eq_refl) as [Hb Ht].
  split; [exact H1|]. split; [exact Hstep|]. split; [exact Hb|exact Ht].
Defined.

(** ** The pager *)

Lemma seqZ_3 (m : Z) : seqZ m 3 = [m; m + 1; m + 2].
Proof. rewrite !seqZ_cons by lia. rewrite seqZ_nil by lia. repeat f_equal; lia. Qed.

Lemma seqZ_2 (m : Z) : seqZ m 2 = [m; m + 1].
Proof. rewrite !seqZ_cons by lia. rewrite seqZ_nil by lia. repeat f_equal; lia. Qed.

Lemma seqZ_1 (m : Z) : seqZ m 1 = [m].
Proof. rewrite !seqZ_cons by lia. by rewrite seqZ_nil by lia. Qed.

Section PagerProperties.
Context `{JsEnv}.

(** X28. The page numbers that the pager offers, on a state whose page
    is in range: the current page is among them, the first is 1 and the
    last is the last page, they ascend without repetition, there are never
    more than seven items, and a click on any of them makes [goToPage] go
    to that very page. *)
Theorem pager_offers_pages (st : QueryState) :
  0 < pageSize st →
  page_in_range st →
  let ps := getState st in
  let items := page_items ps in
  let numbers := omap item_number items in
  PageItem (page st) ∈ items
  ∧ head numbers = Some 1
  ∧ last numbers = Some (p_totalPages ps)
  ∧ StronglySorted Z.lt numbers
  ∧ (length items ≤ 7)%nat
  ∧ (∀ n, PageItem n ∈ items →
          page (default st (goToPage true n st)) = n).
Proof.
  intros Hps [Hlo Hhi] ps items numbers.
  set (total := Z.max 1 (ceil_div (totalRows st) (pageSize st))) in *.
  assert (1 ≤ total) as Htotal by lia.
  assert (∀ n, 1 ≤ n ≤ total → page (default st (goToPage true n st)) = n)
    as Hgo.
  { intros n Hn. unfold goToPage. cbn [negb]. fold total.
    destruct (Z.eqb_spec (Z.min (Z.max 1 n) total) (page st)) as [Heq|Hne];
      cbn [default from_option id page set_page]; lia. }
  subst numbers items. unfold page_items.
  change (p_totalPages ps) with total. change (p_page ps) with (page st).
  destruct (Z.leb_spec total 7) as [Hsmall|Hbig].
  - assert (total = 1 ∨ total = 2 ∨ total = 3 ∨ total = 4 ∨ total = 5
            ∨ total = 6 ∨ total = 7) as Hcases by lia.
    assert (page st = 1 ∨ page st = 2 ∨ page st = 3 ∨ page st = 4
            ∨ page st = 5 ∨ page st = 6 ∨ page st = 7) as Hpage by lia.
    destruct Hcases as [Ht|[Ht|[Ht|[Ht|[Ht|[Ht|Ht]]]]]]; rewrite Ht;
      match goal with
      | |- context [seqZ ?a ?b] =>
          let l := eval vm_compute in (seqZ a b) in change (seqZ a b) with l
      end;
      cbn [fmap list_fmap omap list_omap item_number head last length].
    all: split;
      [destruct Hpage as [Hp|[Hp|[Hp|[Hp|[Hp|[Hp|Hp]]]]]]; rewrite Hp;
       first [lia | set_solver]|].
    all: split; [done|]. all: split; [done|].
    all: split; [repeat constructor|].
    all: split; [lia|].
    all: intros n Hn; apply Hgo; rewrite ?elem_of_cons, elem_of_nil in Hn.
    all: repeat (destruct Hn as [Hn|Hn]; [injection Hn as ->; lia|]); done.
  - set (left := Z.max 2 (page st - 1)).
    set (right := Z.min (total - 1) (page st + 1)).
    assert (right - left + 1 = 1 ∨ right - left + 1 = 2 ∨ right - left + 1 = 3)
      as Hlen by lia.
    assert (page st = 1 ∨ page st = total ∨ page st = left
            ∨ (page st = left + 1 ∧ 2 ≤ right - left + 1)
            ∨ (page st = left + 2 ∧ 3 ≤ right - left + 1)) as Hin by lia.
    assert (right < left + 3 ∧ left ≤ right ∧ 1 < left ∧ right < total)
      as (Hw & Hlr & Hl & Hr) by lia.
    assert (∀ n, n = 1 ∨ n = total ∨ left ≤ n ≤ right →
                 page (default st (goToPage true n st)) = n) as Hgo'
      by (intros n Hn; apply Hgo; lia).
    clearbody left right. clear Hgo.
    destruct (Z.ltb_spec 2 left), (Z.ltb_spec right (total - 1));
      destruct Hlen as [Hlen|[Hlen|Hlen]]; rewrite Hlen;
      rewrite ?seqZ_1, ?seqZ_2, ?seqZ_3;
      cbn [app fmap list_fmap omap list_omap item_number head last length].
    all: split;
      [destruct Hin as [Hp|[Hp|[Hp|[[Hp Hc]|[Hp Hc]]]]];
       first [lia | rewrite Hp; set_solver]|].
    all: split; [done|]. all: split; [done|].
    all: split; [repeat constructor; lia|].
    all: split; [lia|].
    all: intros n Hn; apply Hgo'; rewrite ?elem_of_cons, elem_of_nil in Hn.
    all: repeat (destruct Hn as [Hn|Hn];
                 [first [injection Hn as ->; lia | done]|]); done.
Qed.

(** X29. The legend of the pager describes the page: on a Local table
    whose [totalRows] is the total of the current query and whose page is
    in range, the rows returned for the page are the rows from the
    position [start] to the position [end] of the query result, counted
    from 1, and there are [end - start + 1] of them; when the query has
    rows, [start] and [end] lie between 1 and the total. *)
Theorem pager_info_matches_page tbl st cols w :
  pagingEnabled st = true →
  0 < pageSize st →
  page_in_range st →
  totalRows st = total (load tbl st cols w).1 →
  let ps := getState st in
  let all := (getFilteredRows tbl st cols w).1 in
  let shown := rows (load tbl st cols w).1 in
  (0 < totalRows st →
   1 ≤ p_start ps ∧ p_start ps ≤ p_end ps ∧ p_end ps ≤ totalRows st
   ∧ shown = take (Z.to_nat (p_end ps - p_start ps + 1))
                  (drop (Z.to_nat (p_start ps - 1)) all)
   ∧ Z.of_nat (length shown) = p_end ps - p_start ps + 1)
  ∧ (totalRows st = 0 → shown = [] ∧ p_start ps = 0 ∧ p_end ps = 0).
Proof.
  intros Hpaging Hps [Hlo Hhi] Htotal ps all shown.
  set (n := Z.of_nat (length all)).
  assert (totalRows st = n) as Hn by (rewrite Htotal; done).
  assert (shown = take (Z.to_nat (pageSize st))
                       (drop (Z.to_nat ((page st - 1) * pageSize st)) all))
    as Hshown.
  { subst shown. rewrite load_rows_paged by done. by rewrite js_slice_page by lia. }
  split.
  - intros Hpos.
    pose proof (ceil_div_tight n (pageSize st) Hps) as Htight.
    assert ((page st - 1) * pageSize st < n) as Hoff.
    { rewrite Hn in Hhi.
      destruct (decide (page st = 1)) as [->|?]; [lia|]. nia. }
    assert (0 ≤ (page st - 1) * pageSize st) as Hoff0 by nia.
    subst ps. unfold getState. cbn [p_start p_end].
    destruct (Z.eqb_spec (totalRows st) 0) as [?|_]; [lia|].
    rewrite Hn.
    assert (page st * pageSize st = (page st - 1) * pageSize st + pageSize st)
      as Hmul by lia.
    set (off := (page st - 1) * pageSize st) in *.
    split; [lia|]. split; [lia|]. split; [lia|].
    replace (off + 1 - 1) with off by lia.
    assert (shown = take (Z.to_nat (Z.min (page st * pageSize st) n - (off + 1) + 1))
                         (drop (Z.to_nat off) all)) as Hshown'.
    { rewrite Hshown. rewrite Hmul.
      destruct (decide (off + pageSize st ≤ n)) as [Hfull|Hpart].
      - f_equal. lia.
      - rewrite !take_ge; [done|rewrite length_drop; fold n; lia..]. }
    split; [done|].
    rewrite Hshown', length_take, length_drop. fold n. lia.
  - intros Hzero. subst ps. unfold getState. cbn [p_start p_end].
    rewrite Hzero. cbn. split; [|done].
    rewrite Hshown. assert (all = []) as ->; [|by rewrite drop_nil, take_nil].
    apply length_zero_iff_nil. lia.
Qed.

End PagerProperties.

Lemma pager_offers_pages_witness :
  let st := set_totalRows 95 (Sample.paged 5 10) in
  let ps := getState st in
  let items := page_items ps in
  let numbers := omap item_number items in
  0 < pageSize st
  ∧ page_in_range st
  ∧ items = [ PageItem 1; Ellipsis; PageItem 4; PageItem 5; PageItem 6;
              Ellipsis; PageItem 10 ]
  ∧ PageItem (page st) ∈ items
  ∧ head numbers = Some 1
  ∧ last numbers = Some (p_totalPages ps)
  ∧ StronglySorted Z.lt numbers
  ∧ (length items ≤ 7)%nat
  ∧ (∀ n, PageItem n ∈ items →
          page (default st (@goToPage true n st)) = n).
Proof.
  intros st ps items numbers.
  assert (0 < pageSize st) as H1 by (simpl; lia).
  assert (page_in_range st) as H2 by (split; vm_compute; discriminate).
  split; [exact H1|]. split; [exact H2|].
  split; [vm_compute; reflexivity|].
  exact (@pager_offers_pages st H1 H2).
Defined.

Lemma pager_info_matches_page_witness :
  let st := set_totalRows 3 (Sample.paged 2 2) in
  let ps := getState st in
  let all := (@getFilteredRows AsciiEnv.env (Some Example.tbl) st
                Example.cols Example.w1).1 in
  let shown := rows (@load AsciiEnv.env (Some Example.tbl) st Example.cols
                       Example.w1).1 in
  pagingEnabled st = true
  ∧ 0 < pageSize st
  ∧ page_in_range st
  ∧ totalRows st
    = total (@load AsciiEnv.env (Some Example.tbl) st Example.cols Example.w1).1
  ∧ 0 < totalRows st
  ∧ p_start ps = 3 ∧ p_end ps = 3
  ∧ shown = take (Z.to_nat (p_end ps - p_start ps + 1))
                 (drop (Z.to_nat (p_start ps - 1)) all)
  ∧ Z.of_nat (length shown) = p_end ps - p_start ps + 1.
Proof.
  intros st ps all shown.
  assert (pagingEnabled st = true) as H1 by reflexivity.
  assert (0 < pageSize st) as H2 by (simpl; lia).
  assert (page_in_range st) as H3 by (split; vm_compute; discriminate).
  assert (totalRows st
          = total (@load AsciiEnv.env (Some Example.tbl) st Example.cols
                     Example.w1).1) as H4 by (vm_compute; reflexivity).
  assert (0 < totalRows st) as H5 by (simpl; lia).
  split; [exact H1|]. split; [exact H2|]. split; [exact H3|].
  split; [exact H4|]. split; [exact H5|].
  split; [reflexivity|]. split; [reflexivity|].
  destruct (@pager_info_matches_page AsciiEnv.env (Some Example.tbl) st
              Example.cols Example.w1 H1 H2 H3 H4) as [Hpos _].
  destruct (Hpos H5) as (_ & _ & _ & Hshown & Hlen).
  split; [exact Hshown|exact Hlen].
Defined.

(** ** Toggling child rows *)


